(** * mapbites: the media-to-restaurant resolution function

    A shallow embedding of [supabase/functions/process_media/index.ts]:
    the candidate extractor, the Levenshtein similarity scorer, the place
    search client and the request handler, with the properties of the
    design document stated and settled against them.  The text-recognition
    handler of the same file and the pollers of the client
    ([src/services/mediaService.ts], [src/services/ocrMediaService.ts])
    follow, with the properties the code itself shows.

    Conventions of the embedding.
    - A JavaScript string is the list of its UTF-16 code units ([str]).
    - [String.prototype.toLowerCase] is a built-in driven by the Unicode case
      tables; it is a parameter of the development ([toLowerCase]).  The
      only fact ever assumed of it is stated where it is used.  The two
      string checks of the validation library are parameters as well.
    - JavaScript numbers are IEEE-754 doubles.  A finite double is taken as
      the rational it denotes ([Q]), and an arithmetic operation is the
      exact operation followed by [double], the rounding to the nearest
      double with ties to even.  Overflow, infinities and NaN are not
      modelled: no number of the program comes near them.  Math.max is
      [Qmax]; [a >= b] is [Qle_bool b a].  The last section checks the
      rounding against the machine's doubles on the sums the runs meet.
    - The handler threads a [World] (data store, console, record of
      outbound calls) through a small state-and-exception monad.  What the
      providers and the data store answer is an input of the run ([Env]);
      within one run a provider answers the same request the same way.
    - The data-store client is taken to be configured, as the non-null
      assertions on [SUPABASE_URL] and [SUPABASE_SERVICE_ROLE_KEY] in the
      source have it. *)

From Stdlib Require Import String Ascii.
From Stdlib Require Import List Bool Arith NArith ZArith QArith Qminmax Lia.
From Stdlib Require Import Sorted Permutation Lqa Qround Qpower Qreduction.
From Corelib Require PrimFloat FloatOps SpecFloat.
From Stdlib Require Uint63.
From Stdlib Require DecimalString.
Import ListNotations.
Close Scope Q_scope.

Set Implicit Arguments.

(** ** JavaScript strings *)

Module JsString.

Definition str := list N.

(** An ASCII literal as a JavaScript string. *)
Definition lit (s : string) : str := map N_of_ascii (list_ascii_of_string s).

Fixpoint str_eqb (a b : str) : bool :=
  match a, b with
  | [], [] => true
  | x :: a', y :: b' => (x =? y)%N && str_eqb a' b'
  | _, _ => false
  end.

(** ECMAScript WhiteSpace and LineTerminator code units: what [trim]
    strips and what the regular-expression class \s matches. *)
Definition is_space (c : N) : bool :=
  ((9 <=? c) && (c <=? 13) || (c =? 32) || (c =? 160) || (c =? 5760)
   || (8192 <=? c) && (c <=? 8202) || (c =? 8232) || (c =? 8233)
   || (c =? 8239) || (c =? 8287) || (c =? 12288) || (c =? 65279))%N.

Definition is_upper (c : N) : bool := ((65 <=? c) && (c <=? 90))%N.
Definition is_lower (c : N) : bool := ((97 <=? c) && (c <=? 122))%N.
Definition is_digit (c : N) : bool := ((48 <=? c) && (c <=? 57))%N.

(** The two halves of a surrogate pair, [D800-DBFF] and [DC00-DFFF]. *)
Definition is_high_surrogate (c : N) : bool := ((55296 <=? c) && (c <=? 56319))%N.
Definition is_low_surrogate (c : N) : bool := ((56320 <=? c) && (c <=? 57343))%N.

(** The regular-expression class \w. *)
Definition is_word (c : N) : bool :=
  is_upper c || is_lower c || is_digit c || (c =? 95)%N.

Fixpoint drop_while (f : N -> bool) (s : str) : str :=
  match s with
  | [] => []
  | c :: s' => if f c then drop_while f s' else s
  end.

Definition trimStart (s : str) : str := drop_while is_space s.
Definition trimEnd (s : str) : str := rev (drop_while is_space (rev s)).
Definition trim (s : str) : str := trimEnd (trimStart s).

(** [s.split(sep)] for a one-unit separator: never empty, the pieces
    between consecutive separators. *)
Fixpoint split (sep : N) (s : str) : list str :=
  match s with
  | [] => [[]]
  | c :: s' =>
      if (c =? sep)%N then [] :: split sep s'
      else match split sep s' with
           | [] => [[c]]
           | piece :: pieces => (c :: piece) :: pieces
           end
  end.

(** [parts.join(sep)]. *)
Fixpoint join (sep : str) (parts : list str) : str :=
  match parts with
  | [] => []
  | [p] => p
  | p :: rest => p ++ sep ++ join sep rest
  end.

Fixpoint startsWith (s pre : str) : bool :=
  match pre, s with
  | [], _ => true
  | _ :: _, [] => false
  | x :: pre', y :: s' => (x =? y)%N && startsWith s' pre'
  end.

(** [s.includes(sub)]. *)
Fixpoint includes (s sub : str) : bool :=
  startsWith s sub ||
  match s with
  | [] => false
  | _ :: s' => includes s' sub
  end.

(** The lower-casing used wherever the development is run on concrete
    input: A-Z to a-z, every other code unit unchanged. *)
Definition ascii_lower_unit (c : N) : N := if is_upper c then (c + 32)%N else c.
Definition ascii_lower (s : str) : str := map ascii_lower_unit s.

End JsString.
Import JsString.


(** ** IEEE-754 doubles

    Binary64 has 53 significant bits and exponents down to -1074.  A
    positive number in the binade [2^e <= x < 2^(e+1)] is rounded to the
    nearest whole multiple of [2^(e-52)], or of [2^-1074] where that is
    coarser (the subnormal range); a tie goes to the even multiple. *)

Definition pow2 (e : Z) : Q := (2 ^ e)%Q.

(** The integer nearest to [q], the even one of two that are equally
    near. *)
Definition nearest_even (q : Q) : Z :=
  let f := Qfloor q in
  match (q - inject_Z f ?= 1 # 2)%Q with
  | Lt => f
  | Gt => (f + 1)%Z
  | Eq => if Z.even f then f else (f + 1)%Z
  end.

(** The [e] with [2^e <= x < 2^(e+1)], for a positive [x]. *)
Definition binade (x : Q) : Z :=
  if Qle_bool 1 x then Z.log2 (Qfloor x)
  else (- Z.log2_up (Qceiling (/ x)))%Z.

(** The exponent of the spacing of the doubles around [x]. *)
Definition ulp_exponent (x : Q) : Z := Z.max (binade x - 52) (-1074).

Definition round_pos (x : Q) : Q :=
  let ulp := pow2 (ulp_exponent x) in
  (inject_Z (nearest_even (x / ulp)) * ulp)%Q.

(** The double nearest to [x], as a fraction in lowest terms. *)
Definition double (x : Q) : Q :=
  let x := Qred x in
  Qred match (x ?= 0)%Q with
       | Eq => 0%Q
       | Gt => round_pos x
       | Lt => (- round_pos (- x))%Q
       end.

(** Every double is a whole multiple of the smallest one. *)
Definition on_grid (x : Q) : Prop :=
  exists k : Z, (x == inject_Z k * pow2 (-1074))%Q.

(** The rational a machine double denotes (zero for what is not
    finite). *)
Definition float_value (f : PrimFloat.float) : Q :=
  match FloatOps.Prim2SF f with
  | SpecFloat.S754_finite sign mantissa exponent =>
      ((if sign then -1 else 1) * inject_Z (Zpos mantissa) * pow2 exponent)%Q
  | _ => 0%Q
  end.

(** A machine double agrees with a rounded rational. *)
Definition agrees (f : PrimFloat.float) (q : Q) : bool :=
  Qeq_bool (float_value f) q.

(** A length as a machine double. *)
Definition float_of_nat (n : nat) : PrimFloat.float :=
  PrimFloat.of_uint63 (Uint63.of_Z (Z.of_nat n)).
Section Resolution.

Set Default Proof Using "Type".

(** [String.prototype.toLowerCase]. *)
Variable toLowerCase : str -> str.

(** The two string checks of the validation library behind
    [z.string().uuid()] and [z.string().url()]. *)
Variables isUUID isURL : str -> bool.

(** ** Candidate extraction *)

(** The keyword table, as the source file spells it (its fourth entry is
    the five code units c, a, f, U+221A, U+00A9). *)
Definition FOOD_KEYWORDS : list str :=
  [ lit "burger"; lit "pizza"; lit "sushi"; [99; 97; 102; 8730; 169]%N;
    lit "cafe"; lit "bakery"; lit "bar"; lit "grill";
    lit "kebab"; lit "ramen"; lit "taco"; lit "steak"; lit "bistro";
    lit "brunch"; lit "restaurant";
    lit "diner"; lit "eatery"; lit "kitchen"; lit "food"; lit "dining";
    lit "cuisine" ].

(** The regular expression ^[A-Z][a-z]+(\s+[A-Z][a-z]+)*$ as the
    automaton it denotes.  The three classes are pairwise disjoint, so the
    automaton is deterministic. *)
Inductive title_state : Type :=
| WantUpper      (* at the start, or after the blanks between two words *)
| WantLower      (* just after the capital of a word *)
| InWord         (* after at least one small letter: the accepting state *)
| InBlanks       (* inside \s+ *)
| NoMatch.

Definition title_step (q : title_state) (c : N) : title_state :=
  match q with
  | WantUpper => if is_upper c then WantLower else NoMatch
  | WantLower => if is_lower c then InWord else NoMatch
  | InWord => if is_lower c then InWord
              else if is_space c then InBlanks else NoMatch
  | InBlanks => if is_space c then InBlanks
                else if is_upper c then WantLower else NoMatch
  | NoMatch => NoMatch
  end.

Definition title_accepts (q : title_state) : bool :=
  match q with InWord => true | _ => false end.

(** [/^[A-Z][a-z]+(\s+[A-Z][a-z]+)*$/.test(line)]; the first code unit is
    read from the start state [WantUpper]. *)
Definition isTitleCase (line : str) : bool :=
  title_accepts (fold_left title_step line WantUpper).

Definition hasFoodKeyword (line : str) : bool :=
  existsb (fun keyword => includes (toLowerCase line) (toLowerCase keyword))
          FOOD_KEYWORDS.

Definition reasonableLength (line : str) : bool :=
  (3 <=? length line) && (length line <=? 50).

Definition hasSocialIndicator (line : str) : bool :=
  includes line (lit "@") || includes line (lit "#").

(** The condition under which the loop pushes [line]. *)
Definition qualifies (line : str) : bool :=
  (hasFoodKeyword line || (isTitleCase line && reasonableLength line)
   || hasSocialIndicator line)
  && negb (includes line (lit "http")) && negb (includes line (lit "www")).

(** [text.split('\n').map(line => line.trim()).filter(line => line.length > 0)] *)
Definition lines_of (text : str) : list str :=
  filter (fun line => 0 <? length line) (map trim (split 10%N text)).

(** A JavaScript [Set] of strings, as the list of its members in insertion
    order. *)
Definition Set_has (s : list str) (x : str) : bool := existsb (str_eqb x) s.
Definition Set_add (s : list str) (x : str) : list str :=
  if Set_has s x then s else s ++ [x].
Definition Set_of (items : list str) : list str := fold_left Set_add items [].

Definition push_if_candidate (candidates : list str) (line : str) : list str :=
  if qualifies line then candidates ++ [line] else candidates.

Definition extractPOICandidates (text : str) : list str :=
  let lines := lines_of text in
  let candidates := fold_left push_if_candidate lines [] in
  Set_of candidates.

(** Position of the first occurrence of [x] among [l]. *)
Fixpoint first_index (x : str) (l : list str) : option nat :=
  match l with
  | [] => None
  | y :: l' => if str_eqb y x then Some 0
               else option_map S (first_index x l')
  end.

(** Members met so far are skipped, new ones are kept in order. *)
Fixpoint fresh (seen items : list str) : list str :=
  match items with
  | [] => []
  | x :: items' =>
      if Set_has seen x then fresh seen items'
      else x :: fresh (seen ++ [x]) items'
  end.

(** ** Similarity scorer *)

Record PlaceSearchResult : Type := mkPlace {
  name : str;
  address : str;
  lat : Q;
  lng : Q;
  place_id : str;
  rating : option Q;            (* rating?: number *)
  types : option (list str)     (* types?: string[] *)
}.

(** [{ ...place, score }] *)
Record ScoredPlace : Type := mkScored {
  place : PlaceSearchResult;
  score : Q
}.

Definition Qlt_bool (x y : Q) : bool := negb (Qle_bool y x).

(** [Math.min(a, b, c)] on matrix cells. *)
Definition min3 (a b c : nat) : nat := Nat.min (Nat.min a b) c.

(** Row [j] of the matrix from column [i] on, [i >= 1]: [above] is row
    [j-1] from column [i-1] on, [left] is [matrix[j][i-1]], [cj] is
    [str2[j-1]] and [str1] is what is left of the first string from
    position [i-1]. *)
Fixpoint fill_row (cj : N) (str1 : str) (above : list nat) (left : nat)
  : list nat :=
  match str1, above with
  | ci :: str1', diag :: ((up :: _) as above') =>
      let indicator := if (ci =? cj)%N then 0 else 1 in
      let cell := min3 (left + 1) (up + 1) (diag + indicator) in
      cell :: fill_row cj str1' above' cell
  | _, _ => []
  end.

(** One iteration of the outer loop: from row [j-1] to row [j]. *)
Definition next_row (str1 : str) (st : nat * list nat) (cj : N)
  : nat * list nat :=
  let (j, above) := st in (S j, j :: fill_row cj str1 above j).

(** [matrix[0][i] = i], then the rows in turn; the answer is the last cell
    of the last row, [matrix[str2.length][str1.length]]. *)
Definition levenshteinDistance (str1 str2 : str) : nat :=
  let row0 := seq 0 (length str1 + 1) in
  last (snd (fold_left (next_row str1) str2 (1, row0))) 0.

(** The quotient [(longer.length - editDistance) / longer.length], exact;
    the number the function returns is the double nearest to it, taken
    where the value is used (in [score_step]). *)
Definition calculateSimilarity (str1 str2 : str) : Q :=
  let s1 := toLowerCase str1 in
  let s2 := toLowerCase str2 in
  if str_eqb s1 s2 then 1%Q
  else
    let longer := if length s2 <? length s1 then s1 else s2 in
    let shorter := if length s2 <? length s1 then s2 else s1 in
    if length longer =? 0 then 1%Q
    else
      let distance := levenshteinDistance longer shorter in
      ((inject_Z (Z.of_nat (length longer)) - inject_Z (Z.of_nat distance))
       / inject_Z (Z.of_nat (length longer)))%Q.

(** [place.types?.some(type => FOOD_KEYWORDS.some(keyword => type.includes(keyword)))] *)
Definition foodType (p : PlaceSearchResult) : bool :=
  match types p with
  | Some ts =>
      existsb (fun type => existsb (fun keyword => includes type keyword)
                                   FOOD_KEYWORDS) ts
  | None => false
  end.

(** [place.rating && place.rating > 4.0]: a rating that is absent or zero
    is falsy. *)
Definition highRating (p : PlaceSearchResult) : bool :=
  match rating p with
  | Some r => negb (Qeq_bool r 0) && Qlt_bool 4 r
  | None => false
  end.

(** The literal [0.1]. *)
Definition tenth : Q := double (1 # 10).

(** The body of the loop over the candidates; [+=] adds doubles. *)
Definition score_step (p : PlaceSearchResult) (maxScore : Q) (candidate : str)
  : Q :=
  let similarity := double (calculateSimilarity candidate (name p)) in
  let score := similarity in
  let score := if foodType p then double (score + tenth) else score in
  let score := if highRating p then double (score + tenth) else score in
  Qmax maxScore score.

Definition scorePlace (candidates : list str) (p : PlaceSearchResult)
  : ScoredPlace :=
  {| place := p; score := fold_left (score_step p) candidates 0%Q |}.

(** [Array.prototype.sort(comparefn)].  The language fixes the sort to be
    stable and leaves the algorithm open; with a consistent comparison the
    result is the same for every algorithm, and it is computed here by
    insertion: an element moves in front of the first one that compares
    greater than it. *)
Section ArraySort.

Variable A : Type.
Variable comparefn : A -> A -> Q.

Fixpoint sort_insert (x : A) (sorted : list A) : list A :=
  match sorted with
  | [] => [x]
  | y :: rest =>
      if Qlt_bool 0 (comparefn y x) then x :: sorted
      else y :: sort_insert x rest
  end.

Definition sort (l : list A) : list A :=
  fold_left (fun sorted x => sort_insert x sorted) l [].

End ArraySort.

(** [(a, b) => b.score - a.score] *)
Definition by_score_desc (a b : ScoredPlace) : Q := double (score b - score a).

Definition scorePlaceCandidates (candidates : list str)
                                (places : list PlaceSearchResult)
  : list ScoredPlace :=
  sort by_score_desc (map (scorePlace candidates) places).

(** The two bonuses added to a similarity, as the loop adds them. *)
Definition add_bonuses (p : PlaceSearchResult) (similarity : Q) : Q :=
  let score := similarity in
  let score := if foodType p then double (score + tenth) else score in
  let score := if highRating p then double (score + tenth) else score in
  score.

(** The design document's maximum: the greatest similarity between the
    place's name and a candidate. *)
Definition is_max_similarity (candidates : list str) (p : PlaceSearchResult)
                             (m : Q) : Prop :=
  (exists c, In c candidates /\ (calculateSimilarity c (name p) == m)%Q) /\
  (forall c, In c candidates -> (calculateSimilarity c (name p) <= m)%Q).

(** Order and ties among scored places. *)
Definition score_ge (a b : ScoredPlace) : Prop := (score b <= score a)%Q.
Definition has_score (q : Q) (sp : ScoredPlace) : bool := Qeq_bool (score sp) q.

(** The greatest score there is: a similarity of 1 and both bonuses,
    [(1 + 0.1) + 0.1], which is 1.2000000000000002. *)
Definition top_score : Q := double (double (1 + tenth) + tenth).

(** The scores of [l] are doubles. *)
Definition scored (l : list ScoredPlace) : Prop :=
  Forall (fun sp => on_grid (score sp)) l.

(** For a longer string of [L] code units at distance [d]: the machine's
    similarity and its sums with one and with two bonuses agree with the
    rounded ones. *)
Definition scores_agree (L d : nat) : bool :=
  let f := PrimFloat.div (float_of_nat (L - d)) (float_of_nat L) in
  let bonus := PrimFloat.div (float_of_nat 1) (float_of_nat 10) in
  let q := double (Z.of_nat (L - d) # Pos.of_nat L) in
  agrees f q
  && agrees (PrimFloat.add f bonus) (double (q + tenth))
  && agrees (PrimFloat.add (PrimFloat.add f bonus) bonus)
            (double (double (q + tenth) + tenth)).

(** The machine's difference of two similarities agrees with the rounded
    one. *)
Definition differences_agree (L d L' d' : nat) : bool :=
  agrees (PrimFloat.sub
            (PrimFloat.div (float_of_nat (L - d)) (float_of_nat L))
            (PrimFloat.div (float_of_nat (L' - d')) (float_of_nat L')))
         (double (double (Z.of_nat (L - d) # Pos.of_nat L)
                  - double (Z.of_nat (L' - d') # Pos.of_nat L'))).
(** ** The data store, the providers and the runtime *)

Inductive MediaStatus : Type :=
| uploaded | processing | needs_confirmation | done.

Record MediaRow : Type := mkMedia {
  m_id : str;
  m_user_id : str;
  m_restaurant_id : option str;
  m_ocr_text : option str;
  m_status : MediaStatus
}.

(** What the handler sends to [restaurants]; the store adds the [id]. *)
Record RestaurantInsert : Type := mkRestaurantInsert {
  ri_name : str;
  ri_address : str;
  ri_lat : Q;
  ri_lng : Q;
  ri_place_provider : str;
  ri_place_id : str;
  ri_tags : list str;
  ri_created_by : option str
}.

Record RestaurantRow : Type := mkRestaurant {
  r_id : str;
  r_fields : RestaurantInsert
}.

Record PlaceCacheRow : Type := mkCache {
  c_normalized_query : str;
  c_country : option str;
  c_city : option str;
  c_provider : str;
  c_place_id : str;
  c_name : str;
  c_address : str;
  c_lat : Q;
  c_lng : Q;
  c_score : Q
}.

Record Store : Type := mkStore {
  media : list MediaRow;
  restaurants : list RestaurantRow;
  place_cache : list PlaceCacheRow
}.

(** The fields of an [update] on [media]; [restaurant_id] is only part of
    the update of the confirming branch. *)
Record MediaUpdate : Type := mkMediaUpdate {
  u_restaurant_id : option str;
  u_status : MediaStatus;
  u_ocr_text : str
}.

Definition apply_update (u : MediaUpdate) (row : MediaRow) : MediaRow :=
  {| m_id := m_id row;
     m_user_id := m_user_id row;
     m_restaurant_id := match u_restaurant_id u with
                        | Some r => Some r
                        | None => m_restaurant_id row
                        end;
     m_ocr_text := Some (u_ocr_text u);
     m_status := u_status u |}.

(** [update ... .eq('id', media_id)]: every row with that id. *)
Definition update_rows (media_id : str) (u : MediaUpdate) (rows : list MediaRow)
  : list MediaRow :=
  map (fun row => if str_eqb (m_id row) media_id then apply_update u row else row)
      rows.

(** Outbound requests, in the order they are issued. *)
Inductive Call : Type :=
| VisionCall (imageUrl : str)
| PlacesCall (searchQuery : str)
| SelectUserId (media_id : str)
| InsertRestaurant (fields : RestaurantInsert)
| UpdateMedia (media_id : str) (u : MediaUpdate)
| InsertPlaceCache (row : PlaceCacheRow).

Inductive LogEntry : Type :=
| console_log (text : str)
| console_warn (text : str)
| console_error (text : str) (error : str).

Record World : Type := mkWorld {
  store : Store;
  console : list LogEntry;
  calls : list Call
}.

(** A raw entry of [data.results]; [raw_location] is
    [geometry.location], absent when the provider leaves it out. *)
Record RawPlace : Type := mkRaw {
  raw_name : str;
  raw_formatted_address : str;
  raw_location : option (Q * Q);
  raw_place_id : str;
  raw_rating : option Q;
  raw_types : option (list str)
}.

Record PlacesBody : Type := mkPlacesBody {
  pb_status : str;
  pb_results : list RawPlace
}.

(** What [fetch] and [response.json()] give for a place search: the
    request fails, or an HTTP response arrives whose body is JSON or not. *)
Inductive PlacesFetch : Type :=
| PlacesFetchFails (message : str)
| PlacesResponse (ok : bool) (statusText : str) (body : option PlacesBody).

(** The same for text detection; [textAnnotations] is
    [data.responses[0]?.textAnnotations], each with its [description] and
    [confidence] when present. *)
Inductive VisionFetch : Type :=
| VisionFetchFails (message : str)
| VisionResponse (ok : bool) (statusText : str)
                 (textAnnotations : option (list (option str * option Q))).

(** A reply of the data store: [{ data, error }]. *)
Inductive DbReply (A : Type) : Type :=
| DbData (data : A)
| DbError (message : str).
Arguments DbError {A} message.

(** Everything the function does not decide itself: its configuration and
    what the providers and the data store answer. *)
Record Env : Type := mkEnv {
  GOOGLE_VISION_API_KEY : option str;
  GOOGLE_MAPS_API_KEY : option str;
  FEATURE_USE_TESSERACT : option str;
  vision_fetch : str -> VisionFetch;          (* by image URL *)
  places_fetch : str -> PlacesFetch;          (* by search query *)
  select_user_fails : bool;
  insert_restaurant_reply : DbReply str;      (* the new row's id *)
  update_media_error : option str;
  insert_cache_error : option str
}.

(** [!value] for a string from the environment: unset or empty. *)
Definition unset (v : option str) : bool :=
  match v with
  | Some (_ :: _) => false
  | _ => true
  end.

(** ** A monad for the handler: state and exceptions *)

Inductive Outcome (A : Type) : Type :=
| Returned (a : A)
| Thrown (message : str).
Arguments Thrown {A} message.

Definition M (A : Type) : Type := World -> Outcome A * World.

Definition ret {A : Type} (a : A) : M A := fun w => (Returned a, w).
Definition throw {A : Type} (message : str) : M A := fun w => (Thrown message, w).

Definition bind {A B : Type} (m : M A) (k : A -> M B) : M B :=
  fun w => match m w with
           | (Returned a, w') => k a w'
           | (Thrown e, w') => (Thrown e, w')
           end.

Definition try_catch {A : Type} (m : M A) (handler : str -> M A) : M A :=
  fun w => match m w with
           | (Returned a, w') => (Returned a, w')
           | (Thrown e, w') => handler e w'
           end.

Definition lift {A : Type} (o : Outcome A) : M A := fun w => (o, w).

Notation "x <- m ;; k" := (bind m (fun x => k))
  (at level 61, m at next level, right associativity).
Notation "m ;;; k" := (bind m (fun _ => k))
  (at level 61, right associativity).

Definition log (e : LogEntry) : M unit :=
  fun w => (Returned tt,
            {| store := store w; console := console w ++ [e]; calls := calls w |}).

Definition issue (c : Call) : M unit :=
  fun w => (Returned tt,
            {| store := store w; console := console w; calls := calls w ++ [c] |}).

Definition read_store : M Store := fun w => (Returned (store w), w).

Definition write_store (s : Store) : M unit :=
  fun w => (Returned tt, {| store := s; console := console w; calls := calls w |}).

(** *** Data-store operations.  None of them throws: a failure comes back
    as the [error] of the reply and leaves the store as it was. *)

(** [from('media').select('user_id').eq('id', media_id).single()], then
    [.data?.user_id]: a value only when exactly one row matches. *)
Definition lookup_user_id (env : Env) (media_id : str) (s : Store) : option str :=
  if select_user_fails env then None
  else match filter (fun row => str_eqb (m_id row) media_id) (media s) with
       | [row] => Some (m_user_id row)
       | _ => None
       end.

Definition select_user_id (env : Env) (media_id : str) : M (option str) :=
  issue (SelectUserId media_id) ;;;
  s <- read_store ;;
  ret (lookup_user_id env media_id s).

(** [from('restaurants').insert(fields).select().single()] *)
Definition insert_restaurant (env : Env) (fields : RestaurantInsert)
  : M (DbReply RestaurantRow) :=
  issue (InsertRestaurant fields) ;;;
  match insert_restaurant_reply env with
  | DbError message => ret (DbError message)
  | DbData id =>
      let row := {| r_id := id; r_fields := fields |} in
      s <- read_store ;;
      write_store {| media := media s;
                     restaurants := restaurants s ++ [row];
                     place_cache := place_cache s |} ;;;
      ret (DbData row)
  end.

(** [from('media').update(u).eq('id', media_id)]; the reply is its
    [error]. *)
Definition update_media (env : Env) (media_id : str) (u : MediaUpdate)
  : M (option str) :=
  issue (UpdateMedia media_id u) ;;;
  match update_media_error env with
  | Some message => ret (Some message)
  | None =>
      s <- read_store ;;
      write_store {| media := update_rows media_id u (media s);
                     restaurants := restaurants s;
                     place_cache := place_cache s |} ;;;
      ret None
  end.

(** [from('place_cache').insert(row)] *)
Definition insert_place_cache (env : Env) (row : PlaceCacheRow)
  : M (option str) :=
  issue (InsertPlaceCache row) ;;;
  match insert_cache_error env with
  | Some message => ret (Some message)
  | None =>
      s <- read_store ;;
      write_store {| media := media s;
                     restaurants := restaurants s;
                     place_cache := place_cache s ++ [row] |} ;;;
      ret None
  end.

(** ** Text extraction *)

Record OCRResult : Type := mkOCR {
  text : str;
  confidence : Q
}.

Definition no_text : OCRResult := {| text := []; confidence := 0%Q |}.

Definition performOCRWithVision (env : Env) (imageUrl : str) : M OCRResult :=
  if unset (GOOGLE_VISION_API_KEY env)
  then throw (lit "GOOGLE_VISION_API_KEY not configured")
  else
    issue (VisionCall imageUrl) ;;;
    match vision_fetch env imageUrl with
    | VisionFetchFails message => throw message
    | VisionResponse ok statusText textAnnotations =>
        if negb ok then throw (lit "Vision API error: " ++ statusText)
        else match textAnnotations with
             | None | Some [] => ret no_text
             | Some ((description, conf) :: _) =>
                 ret {| text := match description with
                                | Some d => d
                                | None => []
                                end;
                        confidence := match conf with
                                      | Some c => c
                                      | None => 0%Q
                                      end |}
             end
    end.

Definition performOCRWithTesseract (imageUrl : str) : M OCRResult :=
  log (console_log (lit "Tesseract OCR not implemented yet, using Vision API")) ;;;
  ret no_text.

(** ** Place search *)

(** One entry of [data.results.map(...)]; reading [geometry.location] of
    an entry without it throws. *)
Definition to_place (raw : RawPlace) : Outcome PlaceSearchResult :=
  match raw_location raw with
  | Some (la, ln) =>
      Returned {| name := raw_name raw;
                  address := raw_formatted_address raw;
                  lat := la;
                  lng := ln;
                  place_id := raw_place_id raw;
                  rating := raw_rating raw;
                  types := raw_types raw |}
  | None => Thrown (lit "Cannot read properties of undefined (reading 'location')")
  end.

Fixpoint to_places (raws : list RawPlace) : Outcome (list PlaceSearchResult) :=
  match raws with
  | [] => Returned []
  | raw :: rest =>
      match to_place raw with
      | Thrown e => Thrown e
      | Returned p =>
          match to_places rest with
          | Thrown e => Thrown e
          | Returned ps => Returned (p :: ps)
          end
      end
  end.

(** The query sent to the provider: the city is appended when it is
    given and not empty. *)
Definition build_query (query : str) (city : option str) : str :=
  match city with
  | Some (c :: cs) => query ++ lit " in " ++ (c :: cs)
  | _ => query
  end.

(** [encodeURIComponent] throws a [URIError] on a string that holds a
    surrogate without its other half; this tells the strings it takes. *)
Fixpoint isWellFormed (s : str) : bool :=
  match s with
  | [] => true
  | c :: rest =>
      if is_high_surrogate c
      then match rest with
           | d :: rest' => is_low_surrogate d && isWellFormed rest'
           | [] => false
           end
      else negb (is_low_surrogate c) && isWellFormed rest
  end.

(** The URL is built before the provider is called, so a query that
    cannot be encoded throws without a call. *)
Definition searchPlaces (env : Env) (query : str) (country city : option str)
  : M (list PlaceSearchResult) :=
  if unset (GOOGLE_MAPS_API_KEY env)
  then throw (lit "GOOGLE_MAPS_API_KEY not configured")
  else
    let searchQuery := build_query query city in
    if negb (isWellFormed searchQuery) then throw (lit "URI malformed")
    else
    issue (PlacesCall searchQuery) ;;;
    match places_fetch env searchQuery with
    | PlacesFetchFails message => throw message
    | PlacesResponse ok statusText body =>
        if negb ok then throw (lit "Places API error: " ++ statusText)
        else match body with
             | None => throw (lit "Unexpected token in JSON")
             | Some data =>
                 if negb (str_eqb (pb_status data) (lit "OK"))
                 then
                   log (console_warn (lit "Places API returned status: "
                                        ++ pb_status data)) ;;;
                   ret []
                 else lift (to_places (pb_results data))
             end
    end.

(** ** The request handler *)

Record ProcessMediaRequest : Type := mkRequest {
  media_id : str;
  frame_urls : list str;
  country : option str;
  city : option str
}.

(** The body of the request as [req.json()] and the schema see it: not
    JSON at all, JSON without the schema's fields and types, or the four
    fields with strings in them. *)
Inductive JsonBody : Type :=
| NotJson
| WrongShape
| Fields (r : ProcessMediaRequest).

Record Request : Type := mkReq {
  method : str;
  json : JsonBody
}.

(** [await req.json()] followed by [ProcessMediaSchema.parse(body)].  The
    message of the error the schema throws is the JSON of its list of
    issues; the texts here name the first issue and stand for it. *)
Definition ProcessMediaSchema_parse (body : JsonBody)
  : Outcome ProcessMediaRequest :=
  match body with
  | NotJson => Thrown (lit "Unexpected end of JSON input")
  | WrongShape => Thrown (lit "Required")
  | Fields r =>
      if isUUID (media_id r) && forallb isURL (frame_urls r)
      then Returned r
      else if isUUID (media_id r) then Thrown (lit "Invalid url")
      else Thrown (lit "Invalid uuid")
  end.

Record Candidate : Type := mkCandidate {
  cand_name : str;
  cand_address : str;
  cand_lat : Q;
  cand_lng : Q;
  cand_place_id : str;
  cand_score : Q
}.

(** The JSON of a response: [ProcessMediaResponse] with its [status], the
    [{ error }] of the catch-all, or a plain text. *)
Inductive ResponseBody : Type :=
| confirmed (restaurant_id : str) (score : Q)
| needs_confirmation_with (candidates : list Candidate) (ocr_text : str)
| error_body (error : str)
| plain (text : str).

Record Response : Type := mkResponse {
  status : nat;
  body : ResponseBody
}.

(** The loop over the frames. *)
Fixpoint ocr_frames (env : Env) (useTesseract : bool) (frame_urls : list str)
                    (ocrResults : list OCRResult) : M (list OCRResult) :=
  match frame_urls with
  | [] => ret ocrResults
  | frameUrl :: rest =>
      ocrResults' <-
        try_catch
          (result <- (if useTesseract then performOCRWithTesseract frameUrl
                      else performOCRWithVision env frameUrl) ;;
           ret (ocrResults ++ [result]))
          (fun error =>
             log (console_error (lit "OCR failed for frame " ++ frameUrl ++ lit ":")
                                error) ;;;
             ret (ocrResults ++ [no_text])) ;;
      ocr_frames env useTesseract rest ocrResults'
  end.

(** The loop over the first candidates. *)
Fixpoint search_candidates (env : Env) (candidates : list str)
                           (country city : option str)
                           (allPlaces : list PlaceSearchResult)
  : M (list PlaceSearchResult) :=
  match candidates with
  | [] => ret allPlaces
  | candidate :: rest =>
      allPlaces' <-
        try_catch
          (places <- searchPlaces env candidate country city ;;
           ret (allPlaces ++ places))
          (fun error =>
             log (console_error
                    (lit "Place search failed for candidate " ++ [34%N]
                       ++ candidate ++ [34%N; 58%N]) error) ;;;
             ret allPlaces) ;;
      search_candidates env rest country city allPlaces'
  end.

(** [allText] of the handler. *)
Definition aggregate (ocrResults : list OCRResult) : str :=
  toLowerCase (join (lit " ") (map text ocrResults)).

(** [.replace(/[^\w\s]/g, ' ')] *)
Definition blank_non_word (s : str) : str :=
  map (fun c => if is_word c || is_space c then c else 32%N) s.

(** [.replace(/\s+/g, ' ')]; [in_run] tells that the previous unit was
    white space. *)
Fixpoint collapse_spaces (in_run : bool) (s : str) : str :=
  match s with
  | [] => []
  | c :: s' =>
      if is_space c
      then if in_run then collapse_spaces true s'
           else 32%N :: collapse_spaces true s'
      else c :: collapse_spaces false s'
  end.

(** [normalizedText] of the handler. *)
Definition normalize (allText : str) : str :=
  trim (collapse_spaces false (blank_non_word allText)).

Definition to_candidate (p : ScoredPlace) : Candidate :=
  {| cand_name := name (place p);
     cand_address := address (place p);
     cand_lat := lat (place p);
     cand_lng := lng (place p);
     cand_place_id := place_id (place p);
     cand_score := score p |}.

Definition ok_json (b : ResponseBody) : Response := {| status := 200; body := b |}.

(** The update of the branches that ask the user. *)
Definition review_update (normalizedText : str) : MediaUpdate :=
  {| u_restaurant_id := None;
     u_status := needs_confirmation;
     u_ocr_text := normalizedText |}.

(** The update of the confirming branch. *)
Definition link_update (restaurant_id normalizedText : str) : MediaUpdate :=
  {| u_restaurant_id := Some restaurant_id;
     u_status := done;
     u_ocr_text := normalizedText |}.

Definition restaurant_of (bestMatch : ScoredPlace) (created_by : option str)
  : RestaurantInsert :=
  {| ri_name := name (place bestMatch);
     ri_address := address (place bestMatch);
     ri_lat := lat (place bestMatch);
     ri_lng := lng (place bestMatch);
     ri_place_provider := lit "google";
     ri_place_id := place_id (place bestMatch);
     ri_tags := [lit "ai-analyzed"];
     ri_created_by := created_by |}.

(** [candidates[0]] is read where the list is known not to be empty. *)
Definition cache_entry_of (r : ProcessMediaRequest) (candidates : list str)
                          (bestMatch : ScoredPlace) : PlaceCacheRow :=
  {| c_normalized_query := toLowerCase (hd [] candidates);
     c_country := country r;
     c_city := city r;
     c_provider := lit "google";
     c_place_id := place_id (place bestMatch);
     c_name := name (place bestMatch);
     c_address := address (place bestMatch);
     c_lat := lat (place bestMatch);
     c_lng := lng (place bestMatch);
     c_score := score bestMatch |}.

(** Status [needs_confirmation] is written, and the places to choose from
    are returned.  The reply of the update is not looked at. *)
Definition ask_user (env : Env) (media_id normalizedText : str)
                    (topPlaces : list ScoredPlace) : M Response :=
  update_media env media_id (review_update normalizedText) ;;;
  ret (ok_json (needs_confirmation_with (map to_candidate topPlaces)
                                        normalizedText)).

(** The branch taken on a confident match.  Only the reply of the insert
    into [restaurants] is looked at. *)
Definition auto_confirm (env : Env) (r : ProcessMediaRequest)
                        (normalizedText : str) (candidates : list str)
                        (bestMatch : ScoredPlace) : M Response :=
  user_id <- select_user_id env (media_id r) ;;
  reply <- insert_restaurant env (restaurant_of bestMatch user_id) ;;
  match reply with
  | DbError message => throw (lit "Failed to create restaurant: " ++ message)
  | DbData restaurant =>
      update_media env (media_id r)
                   (link_update (r_id restaurant) normalizedText) ;;;
      insert_place_cache env (cache_entry_of r candidates bestMatch) ;;;
      ret (ok_json (confirmed (r_id restaurant) (score bestMatch)))
  end.

(** From the scoring step to the response. *)
Definition score_and_decide (env : Env) (r : ProcessMediaRequest)
                            (normalizedText : str) (candidates : list str)
                            (allPlaces : list PlaceSearchResult) : M Response :=
  let scoredPlaces := scorePlaceCandidates candidates allPlaces in
  let topPlaces := firstn 3 scoredPlaces in
  match topPlaces with
  | bestMatch :: _ =>
      if Qle_bool (3 # 4) (score bestMatch)
      then auto_confirm env r normalizedText candidates bestMatch
      else ask_user env (media_id r) normalizedText topPlaces
  | [] => ask_user env (media_id r) normalizedText topPlaces
  end.

(** [Deno.env.get('FEATURE_USE_TESSERACT') === 'true'] *)
Definition useTesseract (env : Env) : bool :=
  match FEATURE_USE_TESSERACT env with
  | Some flag => str_eqb flag (lit "true")
  | None => false
  end.

(** The body of the [try] block. *)
Definition process (env : Env) (req : Request) : M Response :=
  r <- lift (ProcessMediaSchema_parse (json req)) ;;
  ocrResults <- ocr_frames env (useTesseract env) (frame_urls r) [] ;;
  let allText := aggregate ocrResults in
  let normalizedText := normalize allText in
  let candidates := extractPOICandidates allText in
  match candidates with
  | [] => ask_user env (media_id r) normalizedText []
  | _ :: _ =>
      allPlaces <- search_candidates env (firstn 3 candidates)
                                     (country r) (city r) [] ;;
      match allPlaces with
      | [] => ask_user env (media_id r) normalizedText []
      | _ :: _ => score_and_decide env r normalizedText candidates allPlaces
      end
  end.

Definition serve (env : Env) (req : Request) (w : World) : Response * World :=
  if negb (str_eqb (method req) (lit "POST"))
  then ({| status := 405; body := plain (lit "Method not allowed") |}, w)
  else
    match process env req w with
    | (Returned response, w') => (response, w')
    | (Thrown message, w') =>
        ({| status := 500; body := error_body message |},
         {| store := store w';
            console := console w' ++ [console_error (lit "Process media error:")
                                                    message];
            calls := calls w' |})
    end.

(** ** What a computation leaves alone *)

Definition is_places_call (c : Call) : bool :=
  match c with
  | PlacesCall _ => true
  | _ => false
  end.

(** The place searches issued so far. *)
Definition searches (w : World) : list Call := filter is_places_call (calls w).

(** [m] never changes what [view] shows of the world. *)
Definition preserves {X A : Type} (view : World -> X) (m : M A) : Prop :=
  forall w, view (snd (m w)) = view w.

(** [m] returns normally from every world. *)
Definition never_throws {A : Type} (m : M A) : Prop :=
  forall w, exists a, fst (m w) = Returned a.

(** The provider answered a place search, and not with success: the HTTP
    status is not a success status, or the status of the body is not
    [OK]. *)
Definition non_success (reply : PlacesFetch) : Prop :=
  match reply with
  | PlacesFetchFails _ => False
  | PlacesResponse ok _ body =>
      ok = false \/
      exists data, body = Some data /\ pb_status data <> lit "OK"
  end.

(** ** Concrete runs *)

Definition is_hex (c : N) : bool :=
  is_digit c || ((97 <=? c) && (c <=? 102))%N || ((65 <=? c) && (c <=? 70))%N.

(** The shape the validation library asks of a UUID: groups of 8, 4, 4, 4
    and 12 hexadecimal digits, the third starting with a version 1-5. *)
Definition sample_isUUID (s : str) : bool :=
  match split 45%N s with
  | [a; b; c; d; e] =>
      (length a =? 8) && (length b =? 4) && (length c =? 4)
      && (length d =? 4) && (length e =? 12)
      && forallb is_hex (a ++ b ++ c ++ d ++ e)
      && match c with
         | v :: _ => ((49 <=? v) && (v <=? 53))%N
         | [] => false
         end
  | _ => false
  end.

(** A stand-in for the URL check, enough for the runs below: the two web
    schemes followed by something. *)
Definition sample_isURL (s : str) : bool :=
  (startsWith s (lit "https://") && (8 <? length s))
  || (startsWith s (lit "http://") && (7 <? length s)).

Definition sample_media_id : str := lit "123e4567-e89b-42d3-a456-426614174000".

Definition sample_request : Request :=
  {| method := lit "POST";
     json := Fields {| media_id := sample_media_id;
                       frame_urls := [lit "https://cdn.example/frame1.jpg"];
                       country := Some (lit "NO");
                       city := None |} |}.

Definition malformed_request : Request :=
  {| method := lit "POST";
     json := Fields {| media_id := lit "42";
                       frame_urls := [lit "https://cdn.example/frame1.jpg"];
                       country := None;
                       city := None |} |}.

(** The frame shows two lines, [Pizza Night] and [Joes Grill]. *)
Definition sign_text : str := lit "Pizza Night" ++ [10%N] ++ lit "Joes Grill".

Definition joes_grill : RawPlace :=
  {| raw_name := lit "Joes Grill";
     raw_formatted_address := lit "1 Main St";
     raw_location := Some (599 # 10, 107 # 10)%Q;
     raw_place_id := lit "place-1";
     raw_rating := Some (45 # 10)%Q;
     raw_types := Some [lit "restaurant"] |}.

(** The provider knows [joes grill] and nothing else. *)
Definition sample_places (searchQuery : str) : PlacesFetch :=
  if str_eqb searchQuery (lit "joes grill")
  then PlacesResponse true (lit "OK")
         (Some {| pb_status := lit "OK"; pb_results := [joes_grill] |})
  else PlacesResponse true (lit "OK")
         (Some {| pb_status := lit "ZERO_RESULTS"; pb_results := [] |}).

Definition sample_env : Env :=
  {| GOOGLE_VISION_API_KEY := Some (lit "vision-key");
     GOOGLE_MAPS_API_KEY := Some (lit "maps-key");
     FEATURE_USE_TESSERACT := None;
     vision_fetch := fun _ =>
       VisionResponse true (lit "OK") (Some [(Some sign_text, Some (9 # 10)%Q)]);
     places_fetch := sample_places;
     select_user_fails := false;
     insert_restaurant_reply := DbData (lit "restaurant-1");
     update_media_error := None;
     insert_cache_error := None |}.

(** The same, with a data store that turns the insert into [restaurants]
    down. *)
Definition env_insert_refused : Env :=
  {| GOOGLE_VISION_API_KEY := GOOGLE_VISION_API_KEY sample_env;
     GOOGLE_MAPS_API_KEY := GOOGLE_MAPS_API_KEY sample_env;
     FEATURE_USE_TESSERACT := None;
     vision_fetch := vision_fetch sample_env;
     places_fetch := sample_places;
     select_user_fails := false;
     insert_restaurant_reply := DbError (lit "permission denied");
     update_media_error := None;
     insert_cache_error := None |}.

(** The same, with a data store that turns the update of [media] down. *)
Definition env_update_refused : Env :=
  {| GOOGLE_VISION_API_KEY := GOOGLE_VISION_API_KEY sample_env;
     GOOGLE_MAPS_API_KEY := GOOGLE_MAPS_API_KEY sample_env;
     FEATURE_USE_TESSERACT := None;
     vision_fetch := vision_fetch sample_env;
     places_fetch := sample_places;
     select_user_fails := false;
     insert_restaurant_reply := DbData (lit "restaurant-1");
     update_media_error := Some (lit "permission denied");
     insert_cache_error := None |}.

(** The same, with a frame that shows nothing that looks like a place. *)
Definition env_plain_text : Env :=
  {| GOOGLE_VISION_API_KEY := GOOGLE_VISION_API_KEY sample_env;
     GOOGLE_MAPS_API_KEY := GOOGLE_MAPS_API_KEY sample_env;
     FEATURE_USE_TESSERACT := None;
     vision_fetch := fun _ =>
       VisionResponse true (lit "OK")
                      (Some [(Some (lit "Hello World!"), Some (9 # 10)%Q)]);
     places_fetch := sample_places;
     select_user_fails := false;
     insert_restaurant_reply := DbData (lit "restaurant-1");
     update_media_error := None;
     insert_cache_error := None |}.

(** A frame that shows nothing that looks like a place, and a data store
    that turns the update of [media] down. *)
Definition env_plain_text_update_refused : Env :=
  {| GOOGLE_VISION_API_KEY := GOOGLE_VISION_API_KEY sample_env;
     GOOGLE_MAPS_API_KEY := GOOGLE_MAPS_API_KEY sample_env;
     FEATURE_USE_TESSERACT := None;
     vision_fetch := vision_fetch env_plain_text;
     places_fetch := sample_places;
     select_user_fails := false;
     insert_restaurant_reply := DbData (lit "restaurant-1");
     update_media_error := Some (lit "permission denied");
     insert_cache_error := None |}.

(** The same, with a place provider that answers 503 to every search. *)
Definition env_provider_down : Env :=
  {| GOOGLE_VISION_API_KEY := GOOGLE_VISION_API_KEY sample_env;
     GOOGLE_MAPS_API_KEY := GOOGLE_MAPS_API_KEY sample_env;
     FEATURE_USE_TESSERACT := None;
     vision_fetch := vision_fetch sample_env;
     places_fetch := fun _ =>
       PlacesResponse false (lit "Service Unavailable") None;
     select_user_fails := false;
     insert_restaurant_reply := DbData (lit "restaurant-1");
     update_media_error := None;
     insert_cache_error := None |}.

Definition sample_media_row : MediaRow :=
  {| m_id := sample_media_id;
     m_user_id := lit "user-1";
     m_restaurant_id := None;
     m_ocr_text := None;
     m_status := processing |}.

Definition sample_world : World :=
  {| store := {| media := [sample_media_row];
                 restaurants := [];
                 place_cache := [] |};
     console := [];
     calls := [] |}.

(** A world in which the frame reads [frame] and every place search finds
    exactly [found]. *)
Definition env_showing (frame : str) (found : RawPlace) : Env :=
  {| GOOGLE_VISION_API_KEY := Some (lit "vision-key");
     GOOGLE_MAPS_API_KEY := Some (lit "maps-key");
     FEATURE_USE_TESSERACT := None;
     vision_fetch := fun _ =>
       VisionResponse true (lit "OK") (Some [(Some frame, Some (9 # 10)%Q)]);
     places_fetch := fun _ =>
       PlacesResponse true (lit "OK")
                      (Some {| pb_status := lit "OK"; pb_results := [found] |});
     select_user_fails := false;
     insert_restaurant_reply := DbData (lit "restaurant-1");
     update_media_error := None;
     insert_cache_error := None |}.

(** A place without rating or categories, so that its score is the bare
    similarity. *)
Definition bare_place (place_name : str) : RawPlace :=
  {| raw_name := place_name;
     raw_formatted_address := lit "2 Side St";
     raw_location := Some (599 # 10, 107 # 10)%Q;
     raw_place_id := lit "place-2";
     raw_rating := None;
     raw_types := None |}.

(** One edit in four code units: similarity 3/4, on the threshold. *)
Definition env_on_threshold : Env := env_showing (lit "#abc") (bare_place (lit "#abd")).

(** Two edits in five code units: similarity 3/5, below the threshold. *)
Definition env_below_threshold : Env :=
  env_showing (lit "#abcd") (bare_place (lit "#abxy")).

Definition sample_candidates : list str := [lit "pizza night"; lit "joes grill"].

Definition sample_place : PlaceSearchResult :=
  {| name := lit "Joes Grill";
     address := lit "1 Main St";
     lat := (599 # 10)%Q;
     lng := (107 # 10)%Q;
     place_id := lit "place-1";
     rating := Some (45 # 10)%Q;
     types := Some [lit "restaurant"] |}.

(** Two places for the candidate [abcdefghij]: the first is three edits
    away and is a restaurant, the second is two edits away and has no
    category. *)
Definition place_three_edits : PlaceSearchResult :=
  {| name := lit "abcdefgxyz";
     address := lit "3 Low St";
     lat := (599 # 10)%Q;
     lng := (107 # 10)%Q;
     place_id := lit "place-3";
     rating := None;
     types := Some [lit "restaurant"] |}.

Definition place_two_edits : PlaceSearchResult :=
  {| name := lit "abcdefghxy";
     address := lit "4 High St";
     lat := (599 # 10)%Q;
     lng := (107 # 10)%Q;
     place_id := lit "place-4";
     rating := None;
     types := None |}.
(** ** The recurrence behind the distance table

    The distance between two prefixes, each given from its last code unit
    backwards: the recurrence that [matrix[j][i]] is filled by. *)
Fixpoint prefix_distance (p1 : str) : str -> nat :=
  fix against (p2 : str) : nat :=
    match p1, p2 with
    | [], _ => length p2
    | _ :: _, [] => length p1
    | a :: p1', b :: p2' =>
        min3 (prefix_distance p1' p2 + 1)
             (against p2' + 1)
             (prefix_distance p1' p2' + (if (a =? b)%N then 0 else 1))
    end.

(** Row of the table for the prefix [p2] of the second string, from the
    column of the prefix [p1] of the first string on; [rest] is what
    follows [p1] in the first string. *)
Fixpoint row_from (p1 rest p2 : str) : list nat :=
  prefix_distance p1 p2 ::
  match rest with
  | [] => []
  | c :: rest' => row_from (c :: p1) rest' p2
  end.

(** ** Shapes of strings *)

(** [s] does not begin with white space. *)
Definition starts_clean (s : str) : Prop :=
  match s with
  | [] => True
  | c :: _ => is_space c = false
  end.

(** [s] neither begins nor ends with white space. *)
Definition trimmed (s : str) : Prop := starts_clean s /\ starts_clean (rev s).

(** No two neighbours of [s] are both the space U+0020. *)
Fixpoint single_spaced (s : str) : Prop :=
  match s with
  | c :: ((d :: _) as s') => ~ (c = 32%N /\ d = 32%N) /\ single_spaced s'
  | _ => True
  end.

(** Only word characters and the space U+0020. *)
Definition words_and_spaces (s : str) : Prop :=
  Forall (fun c => is_word c = true \/ c = 32%N) s.

(** Nothing but white space. *)
Definition blank (s : str) : Prop := Forall (fun c => is_space c = true) s.

(** ** Counting outbound requests *)

Definition is_vision_call (c : Call) : bool :=
  match c with
  | VisionCall _ => true
  | _ => false
  end.

(** How many of the calls issued so far are of the kind [kind]. *)
Definition count_calls (kind : Call -> bool) (w : World) : nat :=
  length (filter kind (calls w)).

(** [m] issues at most [n] calls of the kind [kind]. *)
Definition issues_at_most {A : Type} (kind : Call -> bool) (n : nat) (m : M A)
  : Prop :=
  forall w, count_calls kind (snd (m w)) <= count_calls kind w + n.

(** What text recognition gives for one frame inside the loop of the
    handler: its result, or the empty text when it throws. *)
Definition frame_result (env : Env) (useTesseract : bool) (frameUrl : str)
                        (r : OCRResult) : Prop :=
  forall w,
    match fst ((if useTesseract then performOCRWithTesseract frameUrl
                else performOCRWithVision env frameUrl) w) with
    | Returned result => r = result
    | Thrown _ => r = no_text
    end.

(** ** The text-recognition function (process-ocr)

    The second handler of the file recognises the text of one image and
    writes it to the media row.  It runs in the same [World].  Its body is
    taken to be one of: not JSON, [null], or an object whose fields
    [media_id] and [image_url] are strings when they are present.  The
    constructors of the two clients are taken not to throw. *)

Inductive OcrBody : Type :=
| OcrNotJson (message : str)
| OcrNull
| OcrFields (media_id image_url : option str).

Record OcrRequest : Type := mkOcrReq {
  ocr_method : str;
  ocr_json : OcrBody
}.

(** [ProcessOCRResponse], or the plain text of the 405 answer. *)
Inductive OcrResponseBody : Type :=
| ocr_done (text : list str)
| ocr_error (error : str)
| ocr_plain (text : str).

Record OcrResponse : Type := mkOcrResponse {
  ocr_status : nat;
  ocr_body : OcrResponseBody
}.

(** What [visionClient.textDetection] gives: it throws, or
    [result.textAnnotations] with the [description] of each detection. *)
Inductive TextDetection : Type :=
| DetectionFails (message : str)
| Detected (textAnnotations : option (list (option str))).

Record OcrEnv : Type := mkOcrEnv {
  GOOGLE_APPLICATION_CREDENTIALS_JSON : option str;
  credentials_are_json : bool;     (* whether JSON.parse accepts the secret *)
  SUPABASE_URL : option str;
  SERVICE_ROLE_KEY : option str;
  textDetection : str -> TextDetection;       (* by image URL *)
  ocr_update_error : option str
}.

(** The value of a field that has passed the [!field] test. *)
Definition field_value (v : option str) : str :=
  match v with
  | Some s => s
  | None => []
  end.

(** [`${n}`] for a length. *)
Definition decimal (n : nat) : str :=
  lit (DecimalString.NilEmpty.string_of_uint (Nat.to_uint n)).

(** [from('media').update({ ocr_text, status: 'done' }).eq('id', media_id)] *)
Definition text_update (ocr_text : str) : MediaUpdate :=
  {| u_restaurant_id := None;
     u_status := done;
     u_ocr_text := ocr_text |}.

Definition ocr_update_media (env : OcrEnv) (media_id : str) (u : MediaUpdate)
  : M (option str) :=
  issue (UpdateMedia media_id u) ;;;
  match ocr_update_error env with
  | Some message => ret (Some message)
  | None =>
      s <- read_store ;;
      write_store {| media := update_rows media_id u (media s);
                     restaurants := restaurants s;
                     place_cache := place_cache s |} ;;;
      ret None
  end.

(** The update, its error check and the answer [done]. *)
Definition store_text (env : OcrEnv) (media_id ocr_text : str)
                      (text : list str) : M OcrResponse :=
  updateError <- ocr_update_media env media_id (text_update ocr_text) ;;
  match updateError with
  | Some message => throw (lit "Failed to update media record: " ++ message)
  | None => ret {| ocr_status := 200; ocr_body := ocr_done text |}
  end.

(** [detections.map(d => d.description || '').filter(t => t.length > 0)] *)
Definition extractedText (detections : list (option str)) : list str :=
  filter (fun text => 0 <? length text) (map field_value detections).

(** The body of the [try] block. *)
Definition process_ocr (env : OcrEnv) (req : OcrRequest) : M OcrResponse :=
  match ocr_json req with
  | OcrNotJson message => throw message
  | OcrNull =>
      throw (lit "Cannot read properties of null (reading 'media_id')")
  | OcrFields media_id image_url =>
      if unset media_id || unset image_url
      then ret {| ocr_status := 400;
                  ocr_body := ocr_error
                    (lit "Missing required fields: media_id and image_url") |}
      else if unset (GOOGLE_APPLICATION_CREDENTIALS_JSON env)
      then throw (lit "GOOGLE_APPLICATION_CREDENTIALS_JSON not found in secrets")
      else if negb (credentials_are_json env)
      then throw (lit "Invalid service account JSON format")
      else if unset (SUPABASE_URL env) || unset (SERVICE_ROLE_KEY env)
      then throw (lit "Missing Supabase configuration in secrets")
      else
        log (console_log (lit "Processing OCR for media_id: "
                            ++ field_value media_id)) ;;;
        log (console_log (lit "Image URL: " ++ field_value image_url)) ;;;
        issue (VisionCall (field_value image_url)) ;;;
        match textDetection env (field_value image_url) with
        | DetectionFails message => throw message
        | Detected None | Detected (Some []) =>
            log (console_log (lit "No text detected in image")) ;;;
            store_text env (field_value media_id) [] []
        | Detected (Some detections) =>
            let extracted := extractedText detections in
            let fullText := hd [] extracted in
            let individualTexts := tl extracted in
            log (console_log (lit "OCR completed. Found "
                                ++ decimal (length extracted)
                                ++ lit " text elements")) ;;;
            log (console_log (lit "Full text: " ++ firstn 100 fullText
                                ++ lit "...")) ;;;
            store_text env (field_value media_id) fullText individualTexts
        end
  end.

(** [error.message || 'Unknown error occurred'] *)
Definition message_or_default (message : str) : str :=
  match message with
  | [] => lit "Unknown error occurred"
  | _ :: _ => message
  end.

Definition serve_process_ocr (env : OcrEnv) (req : OcrRequest) (w : World)
  : OcrResponse * World :=
  if negb (str_eqb (ocr_method req) (lit "POST"))
  then ({| ocr_status := 405; ocr_body := ocr_plain (lit "Method not allowed") |},
        w)
  else
    match process_ocr env req w with
    | (Returned response, w') => (response, w')
    | (Thrown message, w') =>
        ({| ocr_status := 500;
            ocr_body := ocr_error (message_or_default message) |},
         {| store := store w';
            console := console w' ++ [console_error (lit "OCR processing error:")
                                                    message];
            calls := calls w' |})
    end.

(** ** The client: waiting for a result

    [mediaService.ts] and [ocrMediaService.ts] poll the media row.  What
    the data store answers at each attempt is an input of the run; the
    client's steps are recorded in the order they happen. *)

(** The answer to [select(...).eq('id', mediaId).single()]: an [error], or
    the row's [status], [restaurant_id] and [ocr_text]. *)
Inductive SelectReply : Type :=
| SelectFails (message : str)
| Selected (status : str) (restaurant_id ocr_text : option str).

(** [ProcessMediaResult] as the poller builds it. *)
Inductive ProcessMediaResult : Type :=
| result_confirmed (restaurant_id : option str) (score : Q)
                   (ocr_text : option str)
| result_needs_confirmation (candidates : list Candidate)
                            (ocr_text : option str).

Inductive ClientStep : Type :=
| SelectMedia (mediaId : str)
| Notify (status : str)
| SelectRestaurant (restaurant_id : option str)
| Sleep (ms : nat).

(** [if (onStatusUpdate) onStatusUpdate(media.status)] *)
Definition notify (onStatusUpdate : bool) (status : str) : list ClientStep :=
  if onStatusUpdate then [Notify status] else [].

(** The loop of [pollMediaStatus], from attempt [attempt] with [remaining]
    attempts left before [maxAttempts]. *)
Fixpoint poll_media (replies : nat -> SelectReply) (mediaId : str)
                    (onStatusUpdate : bool) (attempt remaining : nat)
  : Outcome ProcessMediaResult * list ClientStep :=
  match remaining with
  | 0 => (Thrown (lit "Media processing timeout"), [])
  | S remaining' =>
      match replies attempt with
      | SelectFails message =>
          (Thrown (lit "Failed to check media status: " ++ message),
           [SelectMedia mediaId])
      | Selected status restaurant_id ocr_text =>
          let steps := SelectMedia mediaId :: notify onStatusUpdate status in
          if str_eqb status (lit "done")
          then (Returned (result_confirmed restaurant_id 1 ocr_text),
                steps ++ [SelectRestaurant restaurant_id])
          else if str_eqb status (lit "needs_confirmation")
          then (Returned (result_needs_confirmation [] ocr_text), steps)
          else
            let (outcome, later) :=
              poll_media replies mediaId onStatusUpdate (S attempt) remaining' in
            (outcome, steps ++ Sleep 1000 :: later)
      end
  end.

Definition pollMediaStatus (replies : nat -> SelectReply) (mediaId : str)
                           (onStatusUpdate : bool)
  : Outcome ProcessMediaResult * list ClientStep :=
  poll_media replies mediaId onStatusUpdate 0 30.

(** The loop of [pollOCRStatus]; the result is [{ status: 'done',
    ocr_text }]. *)
Fixpoint poll_ocr (replies : nat -> SelectReply) (mediaId : str)
                  (onStatusUpdate : bool) (attempt remaining : nat)
  : Outcome (option str) * list ClientStep :=
  match remaining with
  | 0 => (Thrown (lit "OCR processing timeout"), [])
  | S remaining' =>
      match replies attempt with
      | SelectFails message =>
          (Thrown (lit "Failed to check media status: " ++ message),
           [SelectMedia mediaId])
      | Selected status _ ocr_text =>
          let steps := SelectMedia mediaId :: notify onStatusUpdate status in
          if str_eqb status (lit "done")
          then (Returned ocr_text, steps)
          else if str_eqb status (lit "error")
          then (Thrown (lit "OCR processing failed"), steps)
          else
            let (outcome, later) :=
              poll_ocr replies mediaId onStatusUpdate (S attempt) remaining' in
            (outcome, steps ++ Sleep 1000 :: later)
      end
  end.

Definition pollOCRStatus (replies : nat -> SelectReply) (mediaId : str)
                         (onStatusUpdate : bool)
  : Outcome (option str) * list ClientStep :=
  poll_ocr replies mediaId onStatusUpdate 0 60.

(** *** Polling a data store that nobody else writes to *)

(** The text the column [status] holds. *)
Definition status_text (s : MediaStatus) : str :=
  match s with
  | uploaded => lit "uploaded"
  | processing => lit "processing"
  | needs_confirmation => lit "needs_confirmation"
  | done => lit "done"
  end.

(** [.single()] answers with an error unless exactly one row matches. *)
Definition select_media (s : Store) (mediaId : str) : SelectReply :=
  match filter (fun row => str_eqb (m_id row) mediaId) (media s) with
  | [row] => Selected (status_text (m_status row)) (m_restaurant_id row)
                      (m_ocr_text row)
  | _ => SelectFails
           (lit "JSON object requested, multiple (or no) rows returned")
  end.

(** How often the client asked for the media row, and how often it
    waited. *)
Definition is_select (step : ClientStep) : bool :=
  match step with
  | SelectMedia _ => true
  | _ => false
  end.

Definition is_sleep (step : ClientStep) : bool :=
  match step with
  | Sleep _ => true
  | _ => false
  end.

(** The reply leaves the poller of [mediaService.ts] waiting. *)
Definition pending (reply : SelectReply) : Prop :=
  match reply with
  | SelectFails _ => False
  | Selected status _ _ =>
      status <> lit "done" /\ status <> lit "needs_confirmation"
  end.

(** The reply leaves the poller of [ocrMediaService.ts] waiting. *)
Definition ocr_pending (reply : SelectReply) : Prop :=
  match reply with
  | SelectFails _ => False
  | Selected status _ _ => status <> lit "done" /\ status <> lit "error"
  end.

(** ** Further concrete runs *)

(** The sample environment without a key for the place provider. *)
Definition env_no_maps_key : Env :=
  {| GOOGLE_VISION_API_KEY := GOOGLE_VISION_API_KEY sample_env;
     GOOGLE_MAPS_API_KEY := None;
     FEATURE_USE_TESSERACT := None;
     vision_fetch := vision_fetch sample_env;
     places_fetch := sample_places;
     select_user_fails := false;
     insert_restaurant_reply := DbData (lit "restaurant-1");
     update_media_error := None;
     insert_cache_error := None |}.

(** The sample environment with the Tesseract flag set. *)
Definition env_tesseract : Env :=
  {| GOOGLE_VISION_API_KEY := GOOGLE_VISION_API_KEY sample_env;
     GOOGLE_MAPS_API_KEY := GOOGLE_MAPS_API_KEY sample_env;
     FEATURE_USE_TESSERACT := Some (lit "true");
     vision_fetch := vision_fetch sample_env;
     places_fetch := sample_places;
     select_user_fails := false;
     insert_restaurant_reply := DbData (lit "restaurant-1");
     update_media_error := None;
     insert_cache_error := None |}.

(** The vision client finds the whole sign and then its words; one
    detection has no description. *)
Definition sample_ocr_env : OcrEnv :=
  {| GOOGLE_APPLICATION_CREDENTIALS_JSON := Some (lit "{}");
     credentials_are_json := true;
     SUPABASE_URL := Some (lit "https://db.example");
     SERVICE_ROLE_KEY := Some (lit "service-key");
     textDetection := fun _ =>
       Detected (Some [Some (lit "Joes Grill"); Some (lit "Joes"); None;
                       Some (lit "Grill")]);
     ocr_update_error := None |}.

(** The same, with a data store that turns the update down. *)
Definition ocr_env_update_refused : OcrEnv :=
  {| GOOGLE_APPLICATION_CREDENTIALS_JSON := Some (lit "{}");
     credentials_are_json := true;
     SUPABASE_URL := Some (lit "https://db.example");
     SERVICE_ROLE_KEY := Some (lit "service-key");
     textDetection := textDetection sample_ocr_env;
     ocr_update_error := Some (lit "permission denied") |}.

Definition sample_ocr_request : OcrRequest :=
  {| ocr_method := lit "POST";
     ocr_json := OcrFields (Some sample_media_id)
                           (Some (lit "https://cdn.example/photo.jpg")) |}.

(** A body without [image_url]. *)
Definition incomplete_ocr_request : OcrRequest :=
  {| ocr_method := lit "POST";
     ocr_json := OcrFields (Some sample_media_id) None |}.

(** The row is [processing] at the first two attempts and [done] from the
    third on. *)
Definition slow_replies (attempt : nat) : SelectReply :=
  if attempt <? 2 then Selected (lit "processing") None None
  else Selected (lit "done") (Some (lit "restaurant-1"))
                (Some (lit "pizza night joes grill")).

(** The row stays [processing]. *)
Definition stuck_replies (attempt : nat) : SelectReply :=
  Selected (lit "processing") None None.
(** * Proofs *)

(** Drops from the context the parameters the goal does not speak of, so
    that no proof depends on them by accident. *)
Ltac unused :=
  repeat match goal with
         | f : str -> str |- _ => clear f
         | f : str -> bool |- _ => clear f
         end.

(** ** Strings *)

Lemma str_eqb_eq (a b : str) : str_eqb a b = true <-> a = b.
Proof.
  revert b; induction a as [|x a IH]; intros [|y b]; simpl;
    try (split; [discriminate | discriminate]); try tauto.
  rewrite andb_true_iff, N.eqb_eq, IH.
  split; [intros [-> ->]; reflexivity | intros E; inversion E; auto].
Qed.

Lemma str_eqb_refl (a : str) : str_eqb a a = true.
Proof. apply str_eqb_eq; reflexivity. Qed.

Lemma str_eqb_neq (a b : str) : str_eqb a b = false <-> a <> b.
Proof.
  rewrite <- str_eqb_eq. destruct (str_eqb a b); split; congruence.
Qed.

Lemma drop_while_incl f s c : In c (drop_while f s) -> In c s.
Proof.
  induction s as [|x s IH]; simpl; auto.
  destruct (f x); simpl; auto.
Qed.

Lemma trim_incl s c : In c (trim s) -> In c s.
Proof.
  unfold trim, trimEnd, trimStart. intros H.
  apply in_rev, drop_while_incl, in_rev in H.
  revert H; apply drop_while_incl.
Qed.

Lemma split_incl sep s piece c :
  In piece (split sep s) -> In c piece -> In c s.
Proof.
  revert piece; induction s as [|x s IH]; simpl; intros piece.
  - intros [<-|[]] [].
  - destruct (x =? sep)%N.
    + intros [<-|H] Hc; [destruct Hc | right; eauto].
    + destruct (split sep s) as [|p ps].
      * intros [<-|[]] [<-|[]]; auto.
      * intros [<-|H] Hc.
        -- destruct Hc as [<-|Hc]; [auto | right; apply (IH p); simpl; auto].
        -- right; apply (IH piece); simpl; auto.
Qed.

Lemma join_incl sep parts c :
  In c (join sep parts) -> In c sep \/ exists p, In p parts /\ In c p.
Proof.
  unused. induction parts as [|p rest IH]; simpl; [tauto|].
  destruct rest as [|q rest].
  - intros H; right; exists p; auto.
  - rewrite !in_app_iff. intros [H|[H|H]].
    + right; exists p; auto.
    + auto.
    + destruct (IH H) as [?|[p' [? ?]]]; auto. right; exists p'; simpl; auto.
Qed.

Lemma ascii_lower_no_upper s c : In c (ascii_lower s) -> is_upper c = false.
Proof.
  unfold ascii_lower; rewrite in_map_iff; intros [x [<- _]].
  unfold ascii_lower_unit, is_upper.
  destruct (65 <=? x)%N eqn:A, (x <=? 90)%N eqn:B; simpl; auto.
  - apply N.leb_le in A. apply andb_false_iff; right; apply N.leb_gt; lia.
  - rewrite A, B; reflexivity.
  - rewrite A; reflexivity.
  - rewrite A; reflexivity.
Qed.


(** ** Rounding to doubles *)

Lemma pow2_pos e : (0 < pow2 e)%Q.
Proof. apply Qpower_0_lt. reflexivity. Qed.

Lemma pow2_add a b : (pow2 (a + b) == pow2 a * pow2 b)%Q.
Proof. apply Qpower_plus. discriminate. Qed.

Lemma pow2_opp a : (pow2 (- a) == / pow2 a)%Q.
Proof. apply Qpower_opp. Qed.

Lemma pow2_le a b : (a <= b)%Z -> (pow2 a <= pow2 b)%Q.
Proof. intros H. apply Qpower_le_compat_l; [exact H | discriminate]. Qed.

Lemma pow2_lt a b : (a < b)%Z -> (pow2 a < pow2 b)%Q.
Proof. intros H. apply Qpower_lt_compat_l; [exact H | reflexivity]. Qed.

Lemma pow2_lt_inv a b : (pow2 a < pow2 b)%Q -> (a < b)%Z.
Proof. intros H. apply (Qpower_lt_compat_l_inv 2); [exact H | reflexivity]. Qed.

Lemma pow2_Z n : (0 <= n)%Z -> (pow2 n == inject_Z (2 ^ n))%Q.
Proof. intros H. unfold pow2. now rewrite (Zpower_Qpower 2 n H). Qed.

Lemma pow2_sub a b : (pow2 a / pow2 b == pow2 (a - b))%Q.
Proof.
  unfold Z.sub. rewrite pow2_add, pow2_opp. reflexivity.
Qed.

(** The binade of a positive number. *)
Lemma binade_spec x :
  (0 < x)%Q -> (pow2 (binade x) <= x)%Q /\ (x < pow2 (binade x + 1))%Q.
Proof.
  intros P. unfold binade.
  destruct (Qle_bool 1 x) eqn:O.
  - apply Qle_bool_iff in O.
    assert (F : (0 < Qfloor x)%Z).
    { assert (H : (Qfloor 1 <= Qfloor x)%Z) by now apply Qfloor_resp_le.
      change (Qfloor 1) with 1%Z in H. lia. }
    destruct (Z.log2_spec (Qfloor x) F) as [A B].
    pose proof (Z.log2_nonneg (Qfloor x)) as N.
    rewrite !pow2_Z by lia. split.
    + apply Qle_trans with (inject_Z (Qfloor x)); [|apply Qfloor_le].
      now rewrite <- Zle_Qle.
    + apply Qlt_le_trans with (inject_Z (Qfloor x + 1)); [apply Qlt_floor|].
      rewrite <- Zle_Qle. unfold Z.succ in B. lia.
  - assert (L : (x < 1)%Q).
    { destruct (Qlt_le_dec x 1) as [L|L]; auto.
      apply Qle_bool_iff in L. congruence. }
    assert (I : (1 < / x)%Q).
    { apply Qlt_shift_inv_l; [exact P|]. now rewrite Qmult_1_l. }
    set (a := Qceiling (/ x)).
    assert (A2 : (1 < a)%Z).
    { assert (H : (1 < inject_Z a)%Q)
        by (apply Qlt_le_trans with (/ x)%Q; [exact I | apply Qle_ceiling]).
      change 1%Q with (inject_Z 1) in H. now rewrite <- Zlt_Qlt in H. }
    destruct (Z.log2_up_spec a A2) as [Lo Hi].
    pose proof (Z.log2_up_nonneg a) as N.
    set (k := Z.log2_up a) in *.
    assert (K : (0 < k)%Z).
    { destruct (Z.eq_dec k 0) as [E|E]; [|lia].
      rewrite E in Hi. simpl in Hi. lia. }
    assert (X : ~ (x == 0)%Q) by (intros E; rewrite E in P; discriminate).
    split.
    + rewrite pow2_opp, pow2_Z by lia.
      apply Qle_shift_inv_r.
      * change 0%Q with (inject_Z 0). rewrite <- Zlt_Qlt.
        apply Z.pow_pos_nonneg; lia.
      * (* 1 <= x * 2^k, from /x <= a <= 2^k *)
        assert (H : (/ x <= inject_Z (2 ^ k))%Q).
        { apply Qle_trans with (inject_Z a); [apply Qle_ceiling|].
          now rewrite <- Zle_Qle. }
        apply (fun H => Qmult_le_compat_r _ _ x H (Qlt_le_weak _ _ P)) in H.
        rewrite (Qmult_comm (/ x)), Qmult_inv_r in H by exact X.
        rewrite Qmult_comm. exact H.
    + replace (- k + 1)%Z with (- (k - 1))%Z by lia.
      rewrite pow2_opp, pow2_Z by lia.
      apply Qlt_shift_inv_l.
      * change 0%Q with (inject_Z 0). rewrite <- Zlt_Qlt.
        apply Z.pow_pos_nonneg; lia.
      * (* x * 2^(k-1) < 1, from 2^(k-1) <= a - 1 < /x *)
        assert (H : (inject_Z (2 ^ (k - 1)) < / x)%Q).
        { apply Qle_lt_trans with (inject_Z (a - 1)).
          - rewrite <- Zle_Qle. replace (k - 1)%Z with (Z.pred k) by lia. lia.
          - apply Qceiling_lt. }
        apply (fun H => Qmult_lt_compat_r _ _ x P H) in H.
        rewrite (Qmult_comm (/ x)), Qmult_inv_r in H by exact X.
        rewrite Qmult_comm. exact H.
Qed.

Lemma binade_le x y : (0 < x)%Q -> (x <= y)%Q -> (binade x <= binade y)%Z.
Proof.
  intros P L.
  destruct (binade_spec P) as [A _].
  destruct (@binade_spec y) as [_ B]; [lra|].
  assert (H : (binade x < binade y + 1)%Z) by (apply pow2_lt_inv; lra).
  lia.
Qed.

(** Rounding to the nearest integer. *)
Lemma nearest_even_bounds q :
  (Qfloor q <= nearest_even q <= Qfloor q + 1)%Z.
Proof.
  unfold nearest_even.
  destruct (q - inject_Z (Qfloor q) ?= 1 # 2)%Q; [destruct (Z.even _)| |]; lia.
Qed.

Lemma nearest_even_le q q' : (q <= q')%Q -> (nearest_even q <= nearest_even q')%Z.
Proof.
  intros L.
  pose proof (Qfloor_resp_le _ _ L) as F.
  destruct (Z.eq_dec (Qfloor q) (Qfloor q')) as [E|E].
  - unfold nearest_even. rewrite <- E.
    destruct (q - inject_Z (Qfloor q) ?= 1 # 2)%Q eqn:C;
      destruct (q' - inject_Z (Qfloor q) ?= 1 # 2)%Q eqn:C';
      try (destruct (Z.even (Qfloor q))); try lia; exfalso;
      try (apply (proj2 (Qeq_alt _ _)) in C);
      try (apply (proj2 (Qlt_alt _ _)) in C);
      try (apply (proj2 (Qgt_alt _ _)) in C);
      try (apply (proj2 (Qeq_alt _ _)) in C');
      try (apply (proj2 (Qlt_alt _ _)) in C');
      try (apply (proj2 (Qgt_alt _ _)) in C'); lra.
  - pose proof (nearest_even_bounds q). pose proof (nearest_even_bounds q'). lia.
Qed.

Lemma nearest_even_Z z : nearest_even (inject_Z z) = z.
Proof.
  unfold nearest_even. rewrite Qfloor_Z.
  assert (E : (inject_Z z - inject_Z z ?= 1 # 2)%Q = Lt).
  { apply (proj1 (Qlt_alt _ _)). lra. }
  now rewrite E.
Qed.

Lemma nearest_even_eq q z : (q == inject_Z z)%Q -> nearest_even q = z.
Proof.
  intros E. rewrite <- (nearest_even_Z z).
  apply Z.le_antisymm; apply nearest_even_le; rewrite E; apply Qle_refl.
Qed.

Lemma round_pos_grid x (e : Z) :
  (ulp_exponent x <= e)%Z -> (x <= pow2 e)%Q ->
  (round_pos x <= pow2 e)%Q.
Proof.
  intros S L. unfold round_pos. fold (ulp_exponent x).
  set (s := ulp_exponent x) in *.
  assert (E : (pow2 e / pow2 s == inject_Z (2 ^ (e - s)))%Q).
  { rewrite pow2_sub. apply pow2_Z. lia. }
  assert (N : (nearest_even (x / pow2 s) <= 2 ^ (e - s))%Z).
  { rewrite <- (nearest_even_eq E). apply nearest_even_le.
    apply Qmult_le_compat_r; [exact L|].
    apply Qlt_le_weak, Qinv_lt_0_compat, pow2_pos. }
  rewrite Zle_Qle in N.
  apply (Qmult_le_compat_r _ _ (pow2 s)) in N;
    [|apply Qlt_le_weak, pow2_pos].
  rewrite <- E in N. 
  assert (D : (pow2 e / pow2 s * pow2 s == pow2 e)%Q).
  { field. pose proof (pow2_pos s). intros Z0. rewrite Z0 in H. discriminate. }
  rewrite D in N. exact N.
Qed.

Lemma round_pos_grid_ge x (e : Z) :
  (ulp_exponent x <= e)%Z -> (pow2 e <= x)%Q ->
  (pow2 e <= round_pos x)%Q.
Proof.
  intros S L. unfold round_pos. fold (ulp_exponent x).
  set (s := ulp_exponent x) in *.
  assert (E : (pow2 e / pow2 s == inject_Z (2 ^ (e - s)))%Q).
  { rewrite pow2_sub. apply pow2_Z. lia. }
  assert (N : (2 ^ (e - s) <= nearest_even (x / pow2 s))%Z).
  { rewrite <- (nearest_even_eq E). apply nearest_even_le.
    apply Qmult_le_compat_r; [exact L|].
    apply Qlt_le_weak, Qinv_lt_0_compat, pow2_pos. }
  rewrite Zle_Qle in N.
  apply (Qmult_le_compat_r _ _ (pow2 s)) in N;
    [|apply Qlt_le_weak, pow2_pos].
  rewrite <- E in N. 
  assert (D : (pow2 e / pow2 s * pow2 s == pow2 e)%Q).
  { field. pose proof (pow2_pos s). intros Z0. rewrite Z0 in H. discriminate. }
  rewrite D in N. exact N.
Qed.

Lemma round_pos_le x y :
  (0 < x)%Q -> (x <= y)%Q -> (round_pos x <= round_pos y)%Q.
Proof.
  intros P L.
  pose proof (binade_le P L) as B.
  destruct (Z.eq_dec (ulp_exponent x) (ulp_exponent y)) as [E|E].
  - unfold round_pos. fold (ulp_exponent x) (ulp_exponent y). rewrite <- E.
    apply Qmult_le_compat_r; [|apply Qlt_le_weak, pow2_pos].
    rewrite <- Zle_Qle. apply nearest_even_le.
    apply Qmult_le_compat_r; [exact L|].
    apply Qlt_le_weak, Qinv_lt_0_compat, pow2_pos.
  - assert (Bl : (binade x < binade y)%Z) by (unfold ulp_exponent in E; lia).
    assert (Sy : (ulp_exponent y <= binade y)%Z).
    { unfold ulp_exponent in *. lia. }
    assert (Sx : (ulp_exponent x <= binade y)%Z).
    { unfold ulp_exponent in *. lia. }
    destruct (binade_spec P) as [_ Xu].
    destruct (@binade_spec y) as [Yl _]; [lra|].
    apply Qle_trans with (pow2 (binade y)).
    + apply round_pos_grid; [exact Sx|].
      apply Qle_trans with (pow2 (binade x + 1)); [lra|].
      apply pow2_le. lia.
    + apply round_pos_grid_ge; auto.
Qed.

Lemma round_pos_nonneg x : (0 < x)%Q -> (0 <= round_pos x)%Q.
Proof.
  intros P. unfold round_pos, ulp_exponent.
  apply Qmult_le_0_compat; [|apply Qlt_le_weak, pow2_pos].
  change 0%Q with (inject_Z 0). rewrite <- Zle_Qle.
  pose proof (nearest_even_bounds (x / pow2 (Z.max (binade x - 52) (-1074)))).
  assert ((0 <= Qfloor (x / pow2 (Z.max (binade x - 52) (-1074))))%Z).
  { change 0%Z with (Qfloor 0). apply Qfloor_resp_le.
    apply Qle_shift_div_l; [apply pow2_pos|]. lra. }
  lia.
Qed.

(** The rounding itself. *)
Lemma double_proper x y : (x == y)%Q -> double x = double y.
Proof. intros E. unfold double. now rewrite (Qred_complete _ _ E). Qed.

Lemma double_of_pos x : (0 < x)%Q -> (double x == round_pos (Qred x))%Q.
Proof.
  intros P. unfold double. rewrite Qred_correct.
  assert (C : (Qred x ?= 0)%Q = Gt).
  { apply (proj1 (Qgt_alt _ _)). now rewrite Qred_correct. }
  now rewrite C.
Qed.

Lemma double_of_neg x : (x < 0)%Q -> (double x == - round_pos (- Qred x))%Q.
Proof.
  intros P. unfold double. rewrite Qred_correct.
  assert (C : (Qred x ?= 0)%Q = Lt).
  { apply (proj1 (Qlt_alt _ _)). now rewrite Qred_correct. }
  now rewrite C.
Qed.

Lemma double_of_zero x : (x == 0)%Q -> (double x == 0)%Q.
Proof. intros E. now rewrite (double_proper E). Qed.

Lemma double_nonneg x : (0 <= x)%Q -> (0 <= double x)%Q.
Proof.
  intros N. destruct (Qlt_le_dec 0 x) as [P|Z].
  - rewrite (double_of_pos P). apply round_pos_nonneg. now rewrite Qred_correct.
  - rewrite double_of_zero; [apply Qle_refl | lra].
Qed.

Lemma double_nonpos x : (x <= 0)%Q -> (double x <= 0)%Q.
Proof.
  intros N. destruct (Qlt_le_dec x 0) as [P|Z].
  - rewrite (double_of_neg P).
    assert (H : (0 <= round_pos (- Qred x))%Q).
    { apply round_pos_nonneg. rewrite Qred_correct. lra. }
    lra.
  - rewrite double_of_zero; [apply Qle_refl | lra].
Qed.

(** Rounding never changes the order of two numbers. *)
Lemma double_le x y : (x <= y)%Q -> (double x <= double y)%Q.
Proof.
  intros L.
  destruct (Qlt_le_dec 0 x) as [Px|Nx].
  - assert (Py : (0 < y)%Q) by lra.
    rewrite (double_of_pos Px), (double_of_pos Py).
    apply round_pos_le; rewrite !Qred_correct; auto.
  - destruct (Qlt_le_dec y 0) as [Ny|Py].
    + assert (Nx' : (x < 0)%Q) by lra.
      rewrite (double_of_neg Nx'), (double_of_neg Ny).
      assert (H : (round_pos (- Qred y) <= round_pos (- Qred x))%Q).
      { apply round_pos_le; rewrite !Qred_correct; lra. }
      lra.
    + apply Qle_trans with 0%Q; [now apply double_nonpos | now apply double_nonneg].
Qed.

Lemma on_grid_eq x y : (x == y)%Q -> on_grid x -> on_grid y.
Proof. intros E [k H]. exists k. now rewrite <- E. Qed.

Lemma on_grid_0 : on_grid 0.
Proof. exists 0%Z. reflexivity. Qed.

Lemma round_pos_on_grid x : on_grid (round_pos x).
Proof.
  unfold round_pos, ulp_exponent. set (s := Z.max (binade x - 52) (-1074)).
  set (m := nearest_even (x / pow2 s)).
  exists (m * 2 ^ (s + 1074))%Z.
  rewrite inject_Z_mult, <- (pow2_Z (n := s + 1074)) by lia.
  rewrite <- Qmult_assoc, <- pow2_add.
  replace (s + 1074 + -1074)%Z with s by lia. reflexivity.
Qed.

Lemma on_grid_opp x : on_grid x -> on_grid (- x).
Proof.
  intros [k H]. exists (- k)%Z. rewrite H, inject_Z_opp. ring.
Qed.

Lemma double_on_grid x : on_grid (double x).
Proof.
  destruct (Qlt_le_dec 0 x) as [P|N].
  - apply on_grid_eq with (round_pos (Qred x)).
    + symmetry. now apply double_of_pos.
    + apply round_pos_on_grid.
  - destruct (Qlt_le_dec x 0) as [P|Z].
    + apply on_grid_eq with (- round_pos (- Qred x))%Q.
      * symmetry. now apply double_of_neg.
      * apply on_grid_opp, round_pos_on_grid.
    + apply on_grid_eq with 0%Q; [|apply on_grid_0].
      symmetry. apply double_of_zero. lra.
Qed.

Lemma on_grid_max x y : on_grid x -> on_grid y -> on_grid (Qmax x y).
Proof.
  intros Hx Hy.
  destruct (Q.max_spec x y) as [[_ E]|[_ E]];
    [apply on_grid_eq with y | apply on_grid_eq with x]; auto; now symmetry.
Qed.

Lemma smallest_double_exact : (double (pow2 (-1074)) == pow2 (-1074))%Q.
Proof. vm_compute. reflexivity. Qed.

(** The sign of a rounded difference of two doubles is the sign of the
    difference: a difference of two doubles never rounds to zero. *)
Lemma double_sub_sign a b :
  on_grid a -> on_grid b -> ((0 < double (b - a))%Q <-> (a < b)%Q).
Proof.
  intros [ka Ha] [kb Hb]. split.
  - intros P. destruct (Qlt_le_dec a b) as [L|L]; auto.
    assert (H : (double (b - a) <= 0)%Q) by (apply double_nonpos; lra).
    lra.
  - intros L.
    pose proof (pow2_pos (-1074)) as T.
    assert (K : (ka < kb)%Z).
    { rewrite Ha, Hb in L.
      destruct (Z_lt_le_dec ka kb) as [K|K]; auto.
      rewrite Zle_Qle in K.
      apply (fun H => Qmult_le_compat_r _ _ (pow2 (-1074)) H (Qlt_le_weak _ _ T))
        in K. lra. }
    assert (G : (pow2 (-1074) <= b - a)%Q).
    { rewrite Ha, Hb.
      assert (H : (1 <= inject_Z kb - inject_Z ka)%Q).
      { unfold Qminus. rewrite <- inject_Z_opp, <- inject_Z_plus.
        change 1%Q with (inject_Z 1). rewrite <- Zle_Qle. lia. }
      apply (fun H => Qmult_le_compat_r _ _ (pow2 (-1074)) H (Qlt_le_weak _ _ T))
        in H. ring_simplify in H. ring_simplify. lra. }
    apply double_le in G. rewrite smallest_double_exact in G. lra.
Qed.

(** *** The loop and the set, in closed form *)

Lemma push_loop_filter lines acc :
  fold_left push_if_candidate lines acc = acc ++ filter qualifies lines.
Proof.
  revert acc; induction lines as [|l lines IH]; intros acc; simpl.
  - now rewrite app_nil_r.
  - rewrite IH. unfold push_if_candidate.
    destruct (qualifies l); [now rewrite <- app_assoc | reflexivity].
Qed.

Lemma Set_loop_fresh items seen :
  fold_left Set_add items seen = seen ++ fresh seen items.
Proof.
  revert seen; induction items as [|x items IH]; intros seen; simpl.
  - now rewrite app_nil_r.
  - rewrite IH. unfold Set_add. destruct (Set_has seen x); auto.
    now rewrite <- app_assoc.
Qed.

Lemma extractPOICandidates_eq text :
  extractPOICandidates text = fresh [] (filter qualifies (lines_of text)).
Proof.
  unfold extractPOICandidates, Set_of.
  now rewrite push_loop_filter, Set_loop_fresh.
Qed.

Lemma Set_has_In s x : Set_has s x = true <-> In x s.
Proof.
  unfold Set_has. rewrite existsb_exists. split.
  - intros [y [Hy E]]. apply str_eqb_eq in E. now subst.
  - intros H. exists x. split; auto. apply str_eqb_refl.
Qed.

Lemma fresh_In seen items x :
  In x (fresh seen items) -> In x items /\ ~ In x seen.
Proof.
  unused.
  revert seen; induction items as [|y items IH]; intros seen; simpl; [tauto|].
  destruct (Set_has seen y) eqn:E.
  - intros H. destruct (IH _ H). auto.
  - intros [<-|H].
    + split; auto. rewrite <- Set_has_In. congruence.
    + destruct (IH _ H) as [H1 H2]. split; auto.
      intros Hs. apply H2, in_or_app. auto.
Qed.

Lemma fresh_NoDup seen items : NoDup (fresh seen items).
Proof.
  revert seen; induction items as [|y items IH]; intros seen; simpl.
  - constructor.
  - destruct (Set_has seen y); auto.
    constructor; auto.
    intros H. apply fresh_In in H. destruct H as [_ H].
    apply H, in_or_app. simpl; auto.
Qed.

Lemma first_index_In x l : In x l -> exists i, first_index x l = Some i.
Proof.
  unused.
  induction l as [|y l IH]; simpl; [tauto|].
  destruct (str_eqb y x) eqn:E; [eauto|].
  intros [->|H]; [rewrite str_eqb_refl in E; discriminate|].
  destruct (IH H) as [i ->]. simpl; eauto.
Qed.

Lemma first_index_skip x y l :
  y <> x -> first_index x (y :: l) = option_map S (first_index x l).
Proof.
  intros H; simpl. apply str_eqb_neq in H. now rewrite H.
Qed.

(** Order of first occurrence, for the set built over a filtered list. *)
Lemma fresh_filter_order (f : str -> bool) (l seen : list str) i j a b :
  let out := fresh seen (filter f l) in
  nth_error out i = Some a -> nth_error out j = Some b -> i < j ->
  exists ia ib,
    first_index a l = Some ia /\ first_index b l = Some ib /\ ia < ib.
Proof.
  simpl. revert seen i j.
  induction l as [|y l IH]; intros seen i j; simpl.
  - destruct i; discriminate.
  - assert (shift : forall seen' i' j',
      (forall z, In z (fresh seen' (filter f l)) -> y <> z) ->
      nth_error (fresh seen' (filter f l)) i' = Some a ->
      nth_error (fresh seen' (filter f l)) j' = Some b -> i' < j' ->
      exists ia ib,
        (if str_eqb y a then Some 0 else option_map S (first_index a l)) = Some ia /\
        (if str_eqb y b then Some 0 else option_map S (first_index b l)) = Some ib /\
        ia < ib).
    { intros seen' i' j' Hne Ha Hb Hlt.
      destruct (IH _ _ _ Ha Hb Hlt) as [ia [ib [Ea [Eb L]]]].
      apply nth_error_In in Ha, Hb.
      apply Hne, str_eqb_neq in Ha. apply Hne, str_eqb_neq in Hb.
      rewrite Ha, Hb, Ea, Eb. simpl. exists (S ia), (S ib). repeat split; lia. }
    destruct (f y) eqn:Fy; simpl.
    + destruct (Set_has seen y) eqn:Sy.
      * apply shift. intros z Hz ->. apply fresh_In in Hz.
        destruct Hz as [_ Hz]. apply Hz, Set_has_In, Sy.
      * destruct i as [|i]; simpl.
        -- intros Ha Hb Hlt. inversion Ha; subst a. rewrite str_eqb_refl.
           destruct j as [|j]; [lia|]. simpl in Hb. apply nth_error_In in Hb.
           apply fresh_In in Hb. destruct Hb as [Hb Hn].
           apply filter_In in Hb. destruct Hb as [Hb _].
           assert (y <> b) by (intros ->; apply Hn, in_or_app; simpl; auto).
           apply str_eqb_neq in H. rewrite H.
           destruct (first_index_In _ _ Hb) as [ib ->].
           exists 0, (S ib). simpl. repeat split; lia.
        -- intros Ha Hb Hlt. destruct j as [|j]; [lia|]. simpl in Hb.
           apply (shift (seen ++ [y]) i j); auto; [|lia].
           intros z Hz ->. apply fresh_In in Hz. destruct Hz as [_ Hz].
           apply Hz, in_or_app. simpl; auto.
    + apply shift. intros z Hz ->. apply fresh_In in Hz.
      destruct Hz as [Hz _]. apply filter_In in Hz. destruct Hz. congruence.
Qed.

Lemma candidates_are_qualifying_lines text c :
  In c (extractPOICandidates text) ->
  In c (lines_of text) /\ qualifies c = true.
Proof.
  rewrite extractPOICandidates_eq. intros H.
  apply fresh_In in H. destruct H as [H _].
  now apply filter_In in H.
Qed.

(** C5.  Whatever the text, no extracted candidate includes [http] or
    [www]; every candidate is one of the trimmed non-empty lines of the
    text; no candidate occurs twice (strings compared code unit by code
    unit, so case matters); and the candidates come in the order in which
    they first occur among the lines of the text. *)
Theorem extractPOICandidates_clean_unique_ordered (t : str) :
  let out := extractPOICandidates t in
  (forall c, In c out ->
     In c (lines_of t) /\
     includes c (lit "http") = false /\ includes c (lit "www") = false) /\
  NoDup out /\
  (forall i j a b,
     nth_error out i = Some a -> nth_error out j = Some b -> i < j ->
     exists ia ib,
       first_index a (lines_of t) = Some ia /\
       first_index b (lines_of t) = Some ib /\ ia < ib).
Proof.
  unused.
  cbv zeta. split; [|split].
  - intros c H. apply candidates_are_qualifying_lines in H.
    destruct H as [Hl Hq]. split; auto.
    unfold qualifies in Hq. rewrite !andb_true_iff, !negb_true_iff in Hq.
    tauto.
  - rewrite extractPOICandidates_eq. apply fresh_NoDup.
  - rewrite extractPOICandidates_eq. intros i j a b.
    apply (fresh_filter_order qualifies (lines_of t) []).
Qed.

(** The empty text has no candidates. *)
Lemma extractPOICandidates_empty : extractPOICandidates [] = [].
Proof. reflexivity. Qed.

(** *** Title Case lines *)

Lemma NoMatch_is_final s : fold_left title_step s NoMatch = NoMatch.
Proof. induction s; simpl; auto. Qed.

Lemma isTitleCase_starts_with_capital line :
  isTitleCase line = true ->
  exists c rest, line = c :: rest /\ is_upper c = true.
Proof.
  unfold isTitleCase. destruct line as [|c rest]; simpl; [discriminate|].
  destruct (is_upper c) eqn:U; [eauto|].
  rewrite NoMatch_is_final. discriminate.
Qed.

Lemma line_units_from_text text line c :
  In line (lines_of text) -> In c line -> In c text.
Proof.
  unfold lines_of. intros H Hc. apply filter_In in H. destruct H as [H _].
  apply in_map_iff in H. destruct H as [piece [<- Hp]].
  apply trim_incl in Hc. eapply split_incl; eauto.
Qed.

(** Given the one fact about lower-casing that the argument needs, that
    its result holds none of the code units A-Z: no line of the
    lower-cased join of the frame texts matches the Title Case pattern,
    and so every candidate extracted from it includes a keyword of the
    table (both sides lower-cased) or includes [@] or [#]. *)
Lemma lowered_text_has_no_title_case
  (lower_has_no_capital :
     forall s c, In c (toLowerCase s) -> is_upper c = false)
  (ocrResults : list OCRResult) :
  let allText := aggregate ocrResults in
  allText = toLowerCase (join (lit " ") (map text ocrResults)) /\
  (forall line, In line (lines_of allText) -> isTitleCase line = false) /\
  (forall c, In c (extractPOICandidates allText) ->
     hasFoodKeyword c = true \/
     includes c (lit "@") = true \/ includes c (lit "#") = true).
Proof.
  unused.
  cbv zeta.
  assert (T : forall line, In line (lines_of (aggregate ocrResults)) ->
                           isTitleCase line = false).
  { intros line H. destruct (isTitleCase line) eqn:E; auto.
    destruct (isTitleCase_starts_with_capital _ E) as [c [rest [-> U]]].
    assert (In c (aggregate ocrResults))
      by (eapply line_units_from_text; eauto; simpl; auto).
    apply lower_has_no_capital in H0. congruence. }
  split; [reflexivity | split; auto].
  intros c H. apply candidates_are_qualifying_lines in H.
  destruct H as [Hl Hq]. apply T in Hl.
  unfold qualifies, hasSocialIndicator in Hq.
  rewrite Hl, andb_false_l, orb_false_r in Hq.
  rewrite !andb_true_iff, !orb_true_iff in Hq. tauto.
Qed.

(** *** The edit-distance table *)

Lemma fill_row_length cj str1 above left :
  length (fill_row cj str1 above left) <= length str1.
Proof.
  revert above left; induction str1 as [|ci str1 IH]; intros above left; simpl.
  - destruct above; auto.
  - destruct above as [|diag [|up rest]]; simpl; try lia.
    specialize (IH (up :: rest)
      (min3 (left + 1) (up + 1) (diag + (if (ci =? cj)%N then 0 else 1)))).
    lia.
Qed.

(** Cell [(j, i)] of the table never exceeds [max i j]. *)
Lemma fill_row_bounded cj str1 :
  forall above left i0 j,
    (forall k v, nth_error above k = Some v -> v <= Nat.max (i0 + k) j) ->
    left <= Nat.max i0 (S j) ->
    forall k v, nth_error (fill_row cj str1 above left) k = Some v ->
                v <= Nat.max (S i0 + k) (S j).
Proof.
  induction str1 as [|ci str1 IH]; intros above left i0 j Habove Hleft k v.
  - destruct above; destruct k; discriminate.
  - destruct above as [|diag [|up rest]];
      try (destruct k; discriminate).
    simpl.
    assert (Hd : diag <= Nat.max i0 j)
      by (specialize (Habove 0 diag eq_refl); rewrite Nat.add_0_r in Habove; auto).
    set (cell := min3 (left + 1) (up + 1)
                      (diag + (if (ci =? cj)%N then 0 else 1))).
    assert (Hc : cell <= Nat.max (S i0) (S j)).
    { unfold cell, min3. destruct (ci =? cj)%N; lia. }
    destruct k as [|k]; simpl.
    + intros E; inversion E; subst v. lia.
    + intros E.
      assert (B : v <= Nat.max (S (S i0) + k) (S j)).
      { apply (IH (up :: rest) cell (S i0) j) with (k := k); auto.
        intros k' v' E'. specialize (Habove (S k') v' E'). lia. }
      lia.
Qed.

Lemma rows_bounded str1 str2 :
  forall j above,
    (forall k v, nth_error above k = Some v -> v <= Nat.max k j) ->
    length above <= S (length str1) ->
    let final := snd (fold_left (next_row str1) str2 (S j, above)) in
    (forall k v, nth_error final k = Some v -> v <= Nat.max k (j + length str2))
    /\ length final <= S (length str1).
Proof.
  induction str2 as [|cj str2 IH]; intros j above Hb Hl; simpl.
  - split; auto. intros k v E. rewrite Nat.add_0_r. auto.
  - specialize (IH (S j) (S j :: fill_row cj str1 above (S j))).
    simpl in IH. destruct IH as [B L].
    + intros [|k] v E; simpl in E.
      * inversion E; lia.
      * apply (@fill_row_bounded cj str1 above (S j) 0 j) in E; auto; lia.
    + pose proof (fill_row_length cj str1 above (S j)). lia.
    + split; auto. intros k v E. specialize (B k v E). lia.
Qed.

Lemma last_nth_error (l : list nat) d :
  l = [] \/ nth_error l (pred (length l)) = Some (last l d).
Proof.
  induction l as [|x l IH]; [auto|]. right.
  destruct IH as [->|IH]; [reflexivity|].
  destruct l as [|y l]; [reflexivity|]. exact IH.
Qed.

Lemma seq_nth_error len :
  forall start k v, nth_error (seq start len) k = Some v -> v = start + k.
Proof.
  induction len as [|len IH]; intros start k v; simpl.
  - destruct k; discriminate.
  - destruct k as [|k]; simpl.
    + intros E; inversion E; lia.
    + intros E. apply IH in E. lia.
Qed.

Lemma levenshteinDistance_le str1 str2 :
  levenshteinDistance str1 str2 <= Nat.max (length str1) (length str2).
Proof.
  unfold levenshteinDistance.
  destruct (@rows_bounded str1 str2 0 (seq 0 (length str1 + 1))) as [B L].
  - intros k v E. apply seq_nth_error in E. lia.
  - rewrite length_seq. lia.
  - simpl in B, L.
    set (final := snd (fold_left (next_row str1) str2 (1, seq 0 (length str1 + 1)))) in *.
    destruct (last_nth_error final 0) as [->|E]; [simpl; lia|].
    apply B in E. lia.
Qed.

Lemma calculateSimilarity_nonneg a b : (0 <= calculateSimilarity a b)%Q.
Proof.
  unfold calculateSimilarity.
  destruct (str_eqb (toLowerCase a) (toLowerCase b)); [lra|].
  set (s1 := toLowerCase a). set (s2 := toLowerCase b).
  set (longer := if length s2 <? length s1 then s1 else s2).
  set (shorter := if length s2 <? length s1 then s2 else s1).
  destruct (length longer =? 0) eqn:Z; [lra|].
  apply Nat.eqb_neq in Z.
  assert (D : levenshteinDistance longer shorter <= length longer).
  { pose proof (levenshteinDistance_le longer shorter) as H.
    assert (length shorter <= length longer).
    { unfold longer, shorter. destruct (length s2 <? length s1) eqn:C.
      - apply Nat.ltb_lt in C. lia.
      - apply Nat.ltb_ge in C. lia. }
    lia. }
  apply Qle_shift_div_l.
  - replace 0%Q with (inject_Z 0) by reflexivity. rewrite <- Zlt_Qlt. lia.
  - rewrite Qmult_0_l. unfold Qminus. rewrite <- inject_Z_opp, <- inject_Z_plus.
    replace 0%Q with (inject_Z 0) by reflexivity. rewrite <- Zle_Qle. lia.
Qed.

(** *** The score of one place *)

Lemma tenth_nonneg : (0 <= tenth)%Q.
Proof. apply double_nonneg. discriminate. Qed.

Lemma score_step_max p maxScore c :
  score_step p maxScore c
  = Qmax maxScore (add_bonuses p (double (calculateSimilarity c (name p)))).
Proof. reflexivity. Qed.

(** Adding the bonuses keeps the order of two similarities. *)
Lemma add_bonuses_le p a b :
  (a <= b)%Q -> (add_bonuses p a <= add_bonuses p b)%Q.
Proof.
  intros L. unfold add_bonuses. cbv zeta.
  assert (F : (double (a + tenth) <= double (b + tenth))%Q)
    by (apply double_le; lra).
  destruct (foodType p), (highRating p); auto.
  apply double_le. lra.
Qed.

Lemma add_bonuses_proper p a b :
  (a == b)%Q -> (add_bonuses p a == add_bonuses p b)%Q.
Proof.
  intros E. apply Qle_antisym; apply add_bonuses_le; rewrite E; apply Qle_refl.
Qed.

Lemma add_bonuses_nonneg p s : (0 <= s)%Q -> (0 <= add_bonuses p s)%Q.
Proof.
  intros N. unfold add_bonuses. cbv zeta. pose proof tenth_nonneg as T.
  assert (F : (0 <= double (s + tenth))%Q) by (apply double_nonneg; lra).
  destruct (foodType p), (highRating p); auto; apply double_nonneg; lra.
Qed.

Lemma add_bonuses_on_grid p s : on_grid s -> on_grid (add_bonuses p s).
Proof.
  intros G. unfold add_bonuses. cbv zeta.
  destruct (foodType p), (highRating p); auto; apply double_on_grid.
Qed.

Lemma score_loop p candidates :
  forall maxScore,
    let final := fold_left (score_step p) candidates maxScore in
    (maxScore <= final)%Q /\
    (forall c, In c candidates ->
       (add_bonuses p (double (calculateSimilarity c (name p))) <= final)%Q) /\
    ((final == maxScore)%Q \/
     exists c, In c candidates /\
               (final == add_bonuses p (double (calculateSimilarity c (name p))))%Q).
Proof.
  unused.
  induction candidates as [|c cs IH]; intros maxScore; simpl.
  - split; [lra|]. split; [tauto|]. left; reflexivity.
  - rewrite score_step_max.
    set (s := add_bonuses p (double (calculateSimilarity c (name p)))).
    destruct (IH (Qmax maxScore s)) as [A [B C]].
    pose proof (Q.le_max_l maxScore s). pose proof (Q.le_max_r maxScore s).
    split; [lra|]. split.
    + intros c' [<-|Hc]; [fold s; lra | auto].
    + destruct C as [C|[c' [Hc C]]].
      * destruct (Q.max_spec maxScore s) as [[_ E]|[_ E]].
        -- right. exists c. split; auto. fold s. lra.
        -- left. lra.
      * right. exists c'. auto.
Qed.

Lemma score_loop_on_grid p candidates :
  forall maxScore,
    on_grid maxScore -> on_grid (fold_left (score_step p) candidates maxScore).
Proof.
  induction candidates as [|c cs IH]; intros maxScore G; simpl; auto.
  apply IH. rewrite score_step_max. apply on_grid_max; auto.
  apply add_bonuses_on_grid, double_on_grid.
Qed.

(** Every score is a double. *)
Lemma scorePlace_on_grid candidates p :
  on_grid (score (scorePlace candidates p)).
Proof. apply score_loop_on_grid, on_grid_0. Qed.

Lemma max_similarity_exists candidates p :
  candidates <> [] -> exists m, is_max_similarity candidates p m.
Proof.
  induction candidates as [|c cs IH]; [congruence|]. intros _.
  destruct cs as [|c' cs].
  - exists (calculateSimilarity c (name p)). split.
    + exists c. simpl. split; auto. reflexivity.
    + intros x [<-|[]]. lra.
  - destruct IH as [m [[c0 [H0 E0]] B]]; [discriminate|].
    destruct (Qlt_le_dec m (calculateSimilarity c (name p))) as [L|L].
    + exists (calculateSimilarity c (name p)). split.
      * exists c. simpl. split; auto. reflexivity.
      * intros x [<-|Hx]; [lra|]. specialize (B x Hx). lra.
    + exists m. split.
      * exists c0. split; [right; exact H0 | exact E0].
      * intros x [<-|Hx]; [lra | auto].
Qed.

(** The loop takes the maximum of the candidates' scores; since adding
    the bonuses keeps the order, that is the score of the greatest
    similarity. *)
Lemma scorePlace_is_max_plus_bonus candidates p m :
  is_max_similarity candidates p m ->
  (score (scorePlace candidates p) == add_bonuses p (double m))%Q.
Proof.
  intros [[c0 [H0 E0]] B]. simpl.
  destruct (score_loop p candidates 0%Q) as [A [L U]].
  specialize (L c0 H0).
  rewrite (double_proper E0) in L.
  apply Qle_antisym; [|exact L].
  destruct U as [U|[c [Hc U]]].
  - rewrite U. apply add_bonuses_nonneg, double_nonneg.
    rewrite <- E0. apply calculateSimilarity_nonneg.
  - rewrite U. apply add_bonuses_le, double_le, B, Hc.
Qed.

(** With no candidate the loop body never runs: the score is zero and no
    bonus is added. *)
Lemma scorePlace_no_candidates p : score (scorePlace [] p) = 0%Q.
Proof. reflexivity. Qed.
(** *** Sorting by score *)

(** The comparison moves [x] in front of [y] exactly when [x] scores
    more: the rounded difference of two doubles has the sign of the
    difference. *)
Lemma moves_in_front x y :
  on_grid (score x) -> on_grid (score y) ->
  (Qlt_bool 0 (by_score_desc y x) = true <-> (score y < score x)%Q).
Proof.
  intros Gx Gy. rewrite <- (@double_sub_sign (score y) (score x) Gy Gx).
  unfold Qlt_bool, by_score_desc. rewrite negb_true_iff.
  set (d := double (score x - score y)).
  destruct (Qle_bool d 0) eqn:E.
  - apply Qle_bool_iff in E. split; [discriminate | intros; lra].
  - split; auto. intros _.
    destruct (Qlt_le_dec 0 d) as [L|L]; auto.
    apply Qle_bool_iff in L. congruence.
Qed.

Lemma sort_insert_perm x l :
  Permutation (sort_insert by_score_desc x l) (x :: l).
Proof.
  induction l as [|y l IH]; simpl; auto.
  destruct (Qlt_bool 0 (by_score_desc y x)); auto.
  rewrite IH. apply perm_swap.
Qed.

Lemma sort_insert_scored x l :
  on_grid (score x) -> scored l -> scored (sort_insert by_score_desc x l).
Proof.
  intros Gx G. unfold scored in *. rewrite Forall_forall in *.
  intros z Hz. apply (Permutation_in _ (sort_insert_perm x l)) in Hz.
  destruct Hz as [<-|Hz]; auto.
Qed.

Lemma sort_insert_sorted x l :
  on_grid (score x) -> scored l ->
  StronglySorted score_ge l ->
  StronglySorted score_ge (sort_insert by_score_desc x l).
Proof.
  intros Gx G. induction 1 as [|y l S IH F]; simpl.
  - repeat constructor.
  - inversion G as [|? ? Gy G']; subst.
    destruct (Qlt_bool 0 (by_score_desc y x)) eqn:E.
    + apply (@moves_in_front x y Gx Gy) in E.
      constructor; [constructor; auto|].
      constructor; [unfold score_ge; lra|].
      eapply Forall_impl; [|exact F]. unfold score_ge; intros; lra.
    + assert (L : (score x <= score y)%Q).
      { destruct (Qlt_le_dec (score y) (score x)) as [L|L]; auto.
        apply (@moves_in_front x y Gx Gy) in L. congruence. }
      constructor; auto.
      rewrite Forall_forall. intros z Hz.
      apply (Permutation_in _ (sort_insert_perm x l)) in Hz.
      destruct Hz as [<-|Hz]; [exact L|].
      rewrite Forall_forall in F. auto.
Qed.

Lemma no_tie_below q l :
  Forall (fun z => (score z < q)%Q) l -> filter (has_score q) l = [].
Proof.
  induction 1 as [|z l Hz _ IH]; simpl; auto.
  unfold has_score at 1. destruct (Qeq_bool (score z) q) eqn:E; auto.
  apply Qeq_bool_iff in E. lra.
Qed.

(** An inserted element lands behind the elements of its own score. *)
Lemma sort_insert_stable q x l :
  on_grid (score x) -> scored l ->
  StronglySorted score_ge l ->
  filter (has_score q) (sort_insert by_score_desc x l)
  = filter (has_score q) l ++ filter (has_score q) [x].
Proof.
  intros Gx G. induction 1 as [|y l S IH F]; [reflexivity|].
  inversion G as [|? ? Gy G']; subst.
  cbn [sort_insert].
  destruct (Qlt_bool 0 (by_score_desc y x)) eqn:E.
  - apply (@moves_in_front x y Gx Gy) in E.
    change (filter (has_score q) (x :: y :: l))
      with (if has_score q x then x :: filter (has_score q) (y :: l)
            else filter (has_score q) (y :: l)).
    change (filter (has_score q) [x]) with (if has_score q x then [x] else []).
    destruct (has_score q x) eqn:Q; [|now rewrite app_nil_r].
    apply Qeq_bool_iff in Q.
    rewrite (@no_tie_below q (y :: l)); [reflexivity|].
    constructor; [lra|].
    eapply Forall_impl; [|exact F]. unfold score_ge; intros; lra.
  - cbn [filter]. rewrite (IH G').
    destruct (has_score q y); reflexivity.
Qed.

Lemma sort_loop l :
  forall sorted,
    scored l -> scored sorted ->
    StronglySorted score_ge sorted ->
    let out := fold_left (fun acc x => sort_insert by_score_desc x acc) l sorted in
    StronglySorted score_ge out /\
    Permutation out (sorted ++ l) /\
    (forall q, filter (has_score q) out
               = filter (has_score q) sorted ++ filter (has_score q) l).
Proof.
  induction l as [|x l IH]; intros sorted Gl Gs S; simpl.
  - rewrite app_nil_r. split; auto. split; auto.
    intros q. now rewrite app_nil_r.
  - inversion Gl as [|? ? Gx Gl']; subst.
    destruct (IH _ Gl' (@sort_insert_scored x sorted Gx Gs)
                (@sort_insert_sorted x sorted Gx Gs S))
      as [A [B C]].
    split; auto. split.
    + rewrite B. rewrite (sort_insert_perm x sorted).
      apply Permutation_middle.
    + intros q. rewrite C. rewrite (@sort_insert_stable q x sorted Gx Gs S).
      rewrite <- app_assoc. f_equal. simpl.
      destruct (has_score q x); reflexivity.
Qed.

Lemma sort_by_score l :
  scored l ->
  StronglySorted score_ge (sort by_score_desc l) /\
  Permutation (sort by_score_desc l) l /\
  (forall q, filter (has_score q) (sort by_score_desc l)
             = filter (has_score q) l).
Proof.
  intros G.
  destruct (@sort_loop l [] G) as [A [B C]]; [constructor | constructor|].
  split; auto.
Qed.

Lemma scored_places candidates places :
  scored (map (scorePlace candidates) places).
Proof.
  apply Forall_forall. intros sp H. apply in_map_iff in H.
  destruct H as [p [<- _]]. apply scorePlace_on_grid.
Qed.

(** The scorer's output: sorted, the scored places, ties in input
    order. *)
Lemma sort_scored candidates places :
  let out := scorePlaceCandidates candidates places in
  StronglySorted score_ge out /\
  Permutation out (map (scorePlace candidates) places) /\
  (forall q, filter (has_score q) out
             = filter (has_score q) (map (scorePlace candidates) places)).
Proof. apply sort_by_score, scored_places. Qed.

(** C9.  Whatever the candidates and the places, the scorer's output is in
    non-increasing order of score (each place scores at least as much as
    every place after it), holds exactly the scored places, and the places
    of any one score stand in the order they had in the input.  The scores
    are the doubles the code computes, and the comparison is the sign of
    their rounded difference. *)
Theorem scorePlaceCandidates_sorted_stable
  (candidates : list str) (places : list PlaceSearchResult) :
  let out := scorePlaceCandidates candidates places in
  StronglySorted score_ge out /\
  Permutation out (map (scorePlace candidates) places) /\
  (forall q, filter (has_score q) out
             = filter (has_score q) (map (scorePlace candidates) places)).
Proof. apply sort_scored. Qed.

Lemma foodType_iff p :
  foodType p = true <->
  exists ts type keyword,
    types p = Some ts /\ In type ts /\ In keyword FOOD_KEYWORDS /\
    includes type keyword = true.
Proof.
  unused. unfold foodType. destruct (types p) as [ts|].
  - rewrite existsb_exists. split.
    + intros [type [Ht H]]. apply existsb_exists in H.
      destruct H as [keyword [Hk H]]. exists ts, type, keyword. auto.
    + intros [ts' [type [keyword [E [Ht [Hk H]]]]]]. inversion E; subst ts'.
      exists type. split; auto. apply existsb_exists. eauto.
  - split; [discriminate|]. intros [ts [type [keyword [E _]]]]. discriminate.
Qed.

Lemma highRating_iff p :
  highRating p = true <-> exists r, rating p = Some r /\ (4 < r)%Q.
Proof.
  unused. unfold highRating, Qlt_bool. destruct (rating p) as [r|].
  - rewrite andb_true_iff, !negb_true_iff. split.
    + intros [_ H]. exists r. split; auto.
      destruct (Qlt_le_dec 4 r) as [L|L]; auto.
      apply Qle_bool_iff in L. congruence.
    + intros [r' [E L]]. inversion E; subst r'. split.
      * destruct (Qeq_bool r 0) eqn:Z; auto. apply Qeq_bool_iff in Z. lra.
      * destruct (Qle_bool r 4) eqn:Z; auto. apply Qle_bool_iff in Z. lra.
  - split; [discriminate|]. intros [r [E _]]. discriminate.
Qed.

(** C2, as the code has it.  For a list of candidates that is not empty,
    every place of the input is scored exactly once, and its score is got
    from the greatest similarity [m] between its name and a candidate by
    the additions of the loop, each counted once and each an addition of
    doubles: 0.1 when one of its categories includes a keyword of the
    table, then 0.1 when it has a rating above 4. *)
Theorem scorePlaceCandidates_max_plus_bonus
  (candidates : list str) (places : list PlaceSearchResult) :
  candidates <> [] ->
  let out := scorePlaceCandidates candidates places in
  Permutation (map place out) places /\
  (forall sp, In sp out ->
     exists m,
       is_max_similarity candidates (place sp) m /\
       let s0 := double m in
       let s1 := if foodType (place sp) then double (s0 + double (1 # 10))
                 else s0 in
       let s2 := if highRating (place sp) then double (s1 + double (1 # 10))
                 else s1 in
       (score sp == s2)%Q) /\
  (forall p,
     (foodType p = true <->
      exists ts type keyword,
        types p = Some ts /\ In type ts /\ In keyword FOOD_KEYWORDS /\
        includes type keyword = true) /\
     (highRating p = true <-> exists r, rating p = Some r /\ (4 < r)%Q)).
Proof.
  intros N. cbv zeta. destruct (sort_scored candidates places) as [_ [P _]].
  split; [|split].
  - rewrite P, map_map. simpl. now rewrite map_id.
  - intros sp H. apply (Permutation_in _ P) in H.
    apply in_map_iff in H. destruct H as [p [<- _]].
    destruct (@max_similarity_exists candidates p N) as [m Hm].
    exists m. split; [exact Hm|].
    exact (scorePlace_is_max_plus_bonus Hm).
  - intros p. split; [apply foodType_iff | apply highRating_iff].
Qed.
(** *** What the loops leave alone *)

Lemma preserves_ret {X A : Type} (view : World -> X) (a : A) :
  preserves view (ret a).
Proof. intros w; reflexivity. Qed.

Lemma preserves_throw {X A : Type} (view : World -> X) e :
  preserves view (@throw A e).
Proof. intros w; reflexivity. Qed.

Lemma preserves_lift {X A : Type} (view : World -> X) (o : Outcome A) :
  preserves view (lift o).
Proof. intros w; reflexivity. Qed.

Lemma preserves_bind {X A B : Type} (view : World -> X)
      (m : M A) (k : A -> M B) :
  preserves view m -> (forall a, preserves view (k a)) ->
  preserves view (bind m k).
Proof.
  intros Hm Hk w. unfold bind. specialize (Hm w).
  destruct (m w) as [[a|e] w']; simpl in *; [rewrite Hk|]; auto.
Qed.

Lemma preserves_try_catch {X A : Type} (view : World -> X)
      (m : M A) (h : str -> M A) :
  preserves view m -> (forall e, preserves view (h e)) ->
  preserves view (try_catch m h).
Proof.
  intros Hm Hh w. unfold try_catch. specialize (Hm w).
  destruct (m w) as [[a|e] w']; simpl in *; [|rewrite Hh]; auto.
Qed.

Lemma log_keeps_store e : preserves store (log e).
Proof. intros w; reflexivity. Qed.

Lemma log_keeps_searches e : preserves searches (log e).
Proof. intros w; reflexivity. Qed.

Lemma issue_keeps_store c : preserves store (issue c).
Proof. intros w; reflexivity. Qed.

Lemma issue_keeps_searches c :
  is_places_call c = false -> preserves searches (issue c).
Proof.
  intros H w. unfold searches; simpl. rewrite filter_app; simpl.
  rewrite H. apply app_nil_r.
Qed.

Create HintDb frame.

#[local] Hint Resolve preserves_ret preserves_throw preserves_lift
  log_keeps_store log_keeps_searches issue_keeps_store : frame.

Lemma performOCRWithVision_keeps_store env url :
  preserves store (performOCRWithVision env url).
Proof.
  unfold performOCRWithVision.
  destruct (unset (GOOGLE_VISION_API_KEY env)); auto with frame.
  apply preserves_bind; auto with frame. intros _.
  destruct (vision_fetch env url) as [e|ok st [[|[d c] l]|]];
    try destruct (negb ok); auto with frame.
Qed.

Lemma performOCRWithVision_keeps_searches env url :
  preserves searches (performOCRWithVision env url).
Proof.
  unfold performOCRWithVision.
  destruct (unset (GOOGLE_VISION_API_KEY env)); auto with frame.
  apply preserves_bind; [now apply issue_keeps_searches|]. intros _.
  destruct (vision_fetch env url) as [e|ok st [[|[d c] l]|]];
    try destruct (negb ok); auto with frame.
Qed.

Lemma ocr_frames_preserves {X : Type} (view : World -> X) env t :
  (forall url, preserves view (performOCRWithVision env url)) ->
  (forall e, preserves view (log e)) ->
  forall urls acc, preserves view (ocr_frames env t urls acc).
Proof.
  intros Hv Hl. induction urls as [|url urls IH]; intros acc; simpl.
  - apply preserves_ret.
  - apply preserves_bind; auto.
    apply preserves_try_catch.
    + apply preserves_bind; [|intros; apply preserves_ret].
      destruct t; auto.
      unfold performOCRWithTesseract.
      apply preserves_bind; auto. intros; apply preserves_ret.
    + intros e. apply preserves_bind; auto. intros; apply preserves_ret.
Qed.

Lemma ocr_frames_keeps_store env t urls acc :
  preserves store (ocr_frames env t urls acc).
Proof.
  apply ocr_frames_preserves;
    auto using performOCRWithVision_keeps_store with frame.
Qed.

Lemma ocr_frames_keeps_searches env t urls acc :
  preserves searches (ocr_frames env t urls acc).
Proof.
  apply ocr_frames_preserves;
    auto using performOCRWithVision_keeps_searches with frame.
Qed.

Lemma searchPlaces_keeps_store env query country city :
  preserves store (searchPlaces env query country city).
Proof.
  unfold searchPlaces.
  destruct (unset (GOOGLE_MAPS_API_KEY env)); auto with frame.
  destruct (negb (isWellFormed (build_query query city))); auto with frame.
  apply preserves_bind; auto with frame. intros _.
  destruct (places_fetch env (build_query query city)) as [e|ok st [data|]];
    try destruct (negb ok); auto with frame.
  destruct (negb (str_eqb (pb_status data) (lit "OK"))); auto with frame.
  apply preserves_bind; auto with frame.
Qed.

Lemma search_candidates_keeps_store env country city candidates :
  forall acc, preserves store (search_candidates env candidates country city acc).
Proof.
  induction candidates as [|c cs IH]; intros acc; simpl; auto with frame.
  apply preserves_bind; auto.
  apply preserves_try_catch.
  - apply preserves_bind; auto with frame. apply searchPlaces_keeps_store.
  - intros e. apply preserves_bind; auto with frame.
Qed.

(** *** The loops absorb every failure *)

Lemma never_throws_ret {A : Type} (a : A) : never_throws (ret a).
Proof. intros w; exists a; reflexivity. Qed.

Lemma never_throws_bind {A B : Type} (m : M A) (k : A -> M B) :
  never_throws m -> (forall a, never_throws (k a)) -> never_throws (bind m k).
Proof.
  intros Hm Hk w. unfold bind. destruct (Hm w) as [a Ha].
  destruct (m w) as [[a'|e] w']; simpl in Ha; [|discriminate].
  apply Hk.
Qed.

Lemma never_throws_try_catch {A : Type} (m : M A) (h : str -> M A) :
  (forall e, never_throws (h e)) -> never_throws (try_catch m h).
Proof.
  intros Hh w. unfold try_catch.
  destruct (m w) as [[a|e] w']; [exists a; reflexivity | apply Hh].
Qed.

Lemma never_throws_log e : never_throws (log e).
Proof. intros w; exists tt; reflexivity. Qed.

Lemma ocr_frames_never_throws env t urls :
  forall acc, never_throws (ocr_frames env t urls acc).
Proof.
  induction urls as [|url urls IH]; intros acc; simpl.
  - apply never_throws_ret.
  - apply never_throws_bind; auto.
    apply never_throws_try_catch. intros e.
    apply never_throws_bind; [apply never_throws_log|].
    intros; apply never_throws_ret.
Qed.

Lemma search_candidates_never_throws env country city candidates :
  forall acc, never_throws (search_candidates env candidates country city acc).
Proof.
  induction candidates as [|c cs IH]; intros acc; simpl.
  - apply never_throws_ret.
  - apply never_throws_bind; auto.
    apply never_throws_try_catch. intros e.
    apply never_throws_bind; [apply never_throws_log|].
    intros; apply never_throws_ret.
Qed.

(** *** The two ways out of the handler *)

Lemma ask_user_run env id txt top w :
  ask_user env id txt top w =
  (Returned (ok_json (needs_confirmation_with (map to_candidate top) txt)),
   {| store := match update_media_error env with
               | Some _ => store w
               | None => {| media := update_rows id (review_update txt)
                                                 (media (store w));
                            restaurants := restaurants (store w);
                            place_cache := place_cache (store w) |}
               end;
      console := console w;
      calls := calls w ++ [UpdateMedia id (review_update txt)] |}).
Proof.
  unfold ask_user, update_media, bind, issue, read_store, write_store, ret.
  destruct (update_media_error env); reflexivity.
Qed.

Lemma auto_confirm_refused env r txt candidates best w message :
  insert_restaurant_reply env = DbError message ->
  auto_confirm env r txt candidates best w =
  (Thrown (lit "Failed to create restaurant: " ++ message),
   {| store := store w;
      console := console w;
      calls := calls w ++ [SelectUserId (media_id r)]
                 ++ [InsertRestaurant
                       (restaurant_of best
                          (lookup_user_id env (media_id r) (store w)))] |}).
Proof.
  intros H.
  unfold auto_confirm, select_user_id, insert_restaurant, bind, issue,
    read_store, write_store, ret, throw.
  rewrite H. cbn. now rewrite <- app_assoc.
Qed.

Lemma auto_confirm_accepted env r txt candidates best w id :
  insert_restaurant_reply env = DbData id ->
  let created_by := lookup_user_id env (media_id r) (store w) in
  let w' := snd (auto_confirm env r txt candidates best w) in
  fst (auto_confirm env r txt candidates best w)
    = Returned (ok_json (confirmed id (score best))) /\
  restaurants (store w')
    = restaurants (store w)
        ++ [{| r_id := id; r_fields := restaurant_of best created_by |}] /\
  calls w' = calls w
               ++ [SelectUserId (media_id r);
                   InsertRestaurant (restaurant_of best created_by);
                   UpdateMedia (media_id r) (link_update id txt);
                   InsertPlaceCache (cache_entry_of r candidates best)] /\
  media (store w')
    = match update_media_error env with
      | Some _ => media (store w)
      | None => update_rows (media_id r) (link_update id txt) (media (store w))
      end /\
  place_cache (store w')
    = match insert_cache_error env with
      | Some _ => place_cache (store w)
      | None => place_cache (store w) ++ [cache_entry_of r candidates best]
      end.
Proof.
  intros H.
  unfold auto_confirm, select_user_id, insert_restaurant, update_media,
    insert_place_cache, bind, issue, read_store, write_store, ret, throw.
  rewrite H.
  destruct (update_media_error env), (insert_cache_error env); cbn;
    rewrite <- !app_assoc; auto.
Qed.

Lemma serve_post env req w :
  str_eqb (method req) (lit "POST") = true ->
  serve env req w =
  match process env req w with
  | (Returned response, w') => (response, w')
  | (Thrown message, w') =>
      ({| status := 500; body := error_body message |},
       {| store := store w';
          console := console w' ++ [console_error (lit "Process media error:")
                                                  message];
          calls := calls w' |})
  end.
Proof. intros H. unfold serve. now rewrite H. Qed.

(** A run that gets to the scoring step continues with it. *)
Lemma process_reaches_scoring env req w r ocrResults w1 allPlaces w2 :
  ProcessMediaSchema_parse (json req) = Returned r ->
  ocr_frames env (useTesseract env) (frame_urls r) [] w
    = (Returned ocrResults, w1) ->
  let allText := aggregate ocrResults in
  let candidates := extractPOICandidates allText in
  candidates <> [] ->
  search_candidates env (firstn 3 candidates) (country r) (city r) [] w1
    = (Returned allPlaces, w2) ->
  allPlaces <> [] ->
  process env req w
  = score_and_decide env r (normalize allText) candidates allPlaces w2.
Proof.
  intros Hp Ho allText candidates Hc Hs Ha.
  unfold process, bind at 1, lift. rewrite Hp. cbv beta iota.
  unfold bind at 1. rewrite Ho. cbv beta iota zeta.
  fold allText. fold candidates.
  destruct candidates as [|c0 cs] eqn:E; [congruence|].
  unfold bind at 1. rewrite Hs. cbv beta iota.
  destruct allPlaces; [congruence | reflexivity].
Qed.

(** A run without candidates goes straight to the user. *)
Lemma process_without_candidates env req w r ocrResults w1 :
  ProcessMediaSchema_parse (json req) = Returned r ->
  ocr_frames env (useTesseract env) (frame_urls r) [] w
    = (Returned ocrResults, w1) ->
  extractPOICandidates (aggregate ocrResults) = [] ->
  process env req w
  = ask_user env (media_id r) (normalize (aggregate ocrResults)) [] w1.
Proof.
  intros Hp Ho Hc.
  unfold process, bind at 1, lift. rewrite Hp. cbv beta iota.
  unfold bind at 1. rewrite Ho. cbv beta iota zeta. now rewrite Hc.
Qed.

(** Without a key every search throws before it calls the provider. *)
Lemma search_candidates_without_key env country city :
  unset (GOOGLE_MAPS_API_KEY env) = true ->
  forall candidates acc w,
    let run := search_candidates env candidates country city acc w in
    fst run = Returned acc /\ calls (snd run) = calls w /\
    store (snd run) = store w.
Proof.
  intros U. cbv zeta.
  induction candidates as [|c cs IH]; intros acc w; [simpl; auto|].
  cbn [search_candidates].
  unfold bind at 1, try_catch, bind at 1, searchPlaces. rewrite U.
  unfold throw, bind, log, ret. cbv beta iota.
  match goal with
  | |- context [search_candidates env cs country city acc ?w0] =>
      destruct (IH acc w0) as [A [B C]]
  end.
  rewrite A, B, C. auto.
Qed.

Lemma searches_after_update w id u :
  filter is_places_call (calls w ++ [UpdateMedia id u])
  = filter is_places_call (calls w).
Proof. rewrite filter_app. simpl. apply app_nil_r. Qed.

(** *** The decision *)

Lemma scorePlaceCandidates_best candidates p ps :
  exists bestMatch others,
    scorePlaceCandidates candidates (p :: ps) = bestMatch :: others /\
    Forall (score_ge bestMatch) others.
Proof.
  destruct (sort_scored candidates (p :: ps)) as [S [P _]].
  destruct (scorePlaceCandidates candidates (p :: ps)) as [|b others].
  - apply Permutation_nil in P. discriminate.
  - exists b, others. split; auto. now inversion S.
Qed.

(** C1, as the code has it by design.  Take a run that reaches the
    scoring step: a POST whose body passes validation, with at least one
    candidate and at least one place found.  The scored list has a first
    place, which scores at least as much as every other.
    - If its score is at least 0.75 (0.75 itself included), the data store
      accepts the new place record and accepts the update of the media
      item, the response is [confirmed] with the id of that record and
      the score; the record, with the fields of the place, is the one row
      added to [restaurants]; every row of the media item is linked to it,
      has status [done] and holds the normalized text.
    - If its score is at least 0.75 and the data store refuses the record,
      the response is a server error and the data store is as before.
    - If its score is below 0.75 and the data store accepts the update of
      the media item, the response is [needs_confirmation] with the first
      three scored places at most; no place record and no cache entry is
      written; every row of the media item has status
      [needs_confirmation] and holds the normalized text.
    What happens when the data store refuses the update of the media item
    is left out here. *)
Theorem decision_at_the_threshold env req w r ocrResults w1 allPlaces w2 :
  str_eqb (method req) (lit "POST") = true ->
  ProcessMediaSchema_parse (json req) = Returned r ->
  ocr_frames env (useTesseract env) (frame_urls r) [] w
    = (Returned ocrResults, w1) ->
  let allText := toLowerCase (join (lit " ") (map text ocrResults)) in
  let normalizedText := normalize allText in
  let candidates := extractPOICandidates allText in
  candidates <> [] ->
  search_candidates env (firstn 3 candidates) (country r) (city r) [] w1
    = (Returned allPlaces, w2) ->
  allPlaces <> [] ->
  exists bestMatch others,
    scorePlaceCandidates candidates allPlaces = bestMatch :: others /\
    Forall (score_ge bestMatch) others /\
    let response := fst (serve env req w) in
    let w' := snd (serve env req w) in
    (forall id,
       (3 # 4 <= score bestMatch)%Q ->
       insert_restaurant_reply env = DbData id ->
       update_media_error env = None ->
       response = {| status := 200;
                     body := confirmed id (score bestMatch) |} /\
       restaurants (store w')
         = restaurants (store w)
             ++ [{| r_id := id;
                    r_fields :=
                      {| ri_name := name (place bestMatch);
                         ri_address := address (place bestMatch);
                         ri_lat := lat (place bestMatch);
                         ri_lng := lng (place bestMatch);
                         ri_place_provider := lit "google";
                         ri_place_id := place_id (place bestMatch);
                         ri_tags := [lit "ai-analyzed"];
                         ri_created_by :=
                           lookup_user_id env (media_id r) (store w) |} |}] /\
       media (store w')
         = map (fun row =>
                  if str_eqb (m_id row) (media_id r)
                  then {| m_id := m_id row;
                          m_user_id := m_user_id row;
                          m_restaurant_id := Some id;
                          m_ocr_text := Some normalizedText;
                          m_status := done |}
                  else row)
               (media (store w))) /\
    (forall message,
       (3 # 4 <= score bestMatch)%Q ->
       insert_restaurant_reply env = DbError message ->
       response = {| status := 500;
                     body := error_body (lit "Failed to create restaurant: "
                                           ++ message) |} /\
       store w' = store w) /\
    ((score bestMatch < 3 # 4)%Q ->
     update_media_error env = None ->
       response
       = {| status := 200;
            body := needs_confirmation_with
                      (map (fun sp => {| cand_name := name (place sp);
                                         cand_address := address (place sp);
                                         cand_lat := lat (place sp);
                                         cand_lng := lng (place sp);
                                         cand_place_id := place_id (place sp);
                                         cand_score := score sp |})
                           (firstn 3 (bestMatch :: others)))
                      normalizedText |} /\
       length (firstn 3 (bestMatch :: others)) <= 3 /\
       restaurants (store w') = restaurants (store w) /\
       place_cache (store w') = place_cache (store w) /\
       media (store w')
         = map (fun row =>
                  if str_eqb (m_id row) (media_id r)
                  then {| m_id := m_id row;
                          m_user_id := m_user_id row;
                          m_restaurant_id := m_restaurant_id row;
                          m_ocr_text := Some normalizedText;
                          m_status := needs_confirmation |}
                  else row)
               (media (store w))).
Proof.
  intros Hm Hp Ho allText normalizedText candidates Hc Hs Ha.
  assert (S1 : store w1 = store w).
  { pose proof (ocr_frames_keeps_store env (useTesseract env) (frame_urls r) [] w) as K.
    rewrite Ho in K. exact K. }
  assert (S2 : store w2 = store w).
  { pose proof (search_candidates_keeps_store env (country r) (city r)
                  (firstn 3 candidates) [] w1) as K.
    rewrite Hs in K. simpl in K. congruence. }
  rewrite (serve_post env req w Hm).
  rewrite (process_reaches_scoring env req w Hp Ho Hc Hs Ha).
  change (aggregate ocrResults) with allText.
  fold normalizedText. fold candidates.
  destruct allPlaces as [|p ps]; [congruence|].
  destruct (scorePlaceCandidates_best candidates p ps) as [b [others [E F]]].
  exists b, others. split; auto. split; auto.
  unfold score_and_decide. rewrite E.
  change (firstn 3 (b :: others)) with (b :: firstn 2 others).
  cbv beta iota zeta.
  destruct (Qle_bool (3 # 4) (score b)) eqn:T.
  - apply Qle_bool_iff in T. split; [|split].
    + intros id _ Hi U.
      destruct (auto_confirm_accepted env r normalizedText candidates b w2 Hi)
        as [R [Rs [_ [Ms _]]]].
      destruct (auto_confirm env r normalizedText candidates b w2) as [o w3].
      simpl in *. subst o. simpl. rewrite Rs, Ms, S2, U.
      split; auto.
    + intros message _ Hi.
      rewrite (auto_confirm_refused env r normalizedText candidates b w2 Hi).
      simpl. auto.
    + intros L. lra.
  - assert (L : (score b < 3 # 4)%Q).
    { destruct (Qlt_le_dec (score b) (3 # 4)) as [L|L]; auto.
      apply Qle_bool_iff in L. congruence. }
    split; [|split].
    + intros id G. lra.
    + intros message G. lra.
    + intros _ U. rewrite ask_user_run. cbn [fst snd store calls].
      rewrite U, S2. cbn [restaurants place_cache media].
      split; [reflexivity|]. split.
      * change (b :: firstn 2 others) with (firstn 3 (b :: others)).
        rewrite length_firstn. lia.
      * auto.
Qed.

(** *** Validation *)

(** C3, as the code answers.  A POST whose [media_id] fails the UUID
    check, or one of whose [frame_urls] fails the URL check, is turned
    down before any outbound call, the data store is not touched, and the
    response carries status 500. *)
Theorem malformed_request_gets_500 env req w r :
  str_eqb (method req) (lit "POST") = true ->
  json req = Fields r ->
  isUUID (media_id r) = false \/
  (exists url, In url (frame_urls r) /\ isURL url = false) ->
  let response := fst (serve env req w) in
  let w' := snd (serve env req w) in
  status response = 500 /\ store w' = store w /\ calls w' = calls w.
Proof.
  intros Hm Hj Hbad.
  assert (V : isUUID (media_id r) && forallb isURL (frame_urls r) = false).
  { destruct Hbad as [U|[url [Hin U]]].
    - now rewrite U.
    - apply andb_false_iff. right.
      destruct (forallb isURL (frame_urls r)) eqn:F; auto.
      rewrite forallb_forall in F. rewrite (F _ Hin) in U. discriminate. }
  rewrite (serve_post env req w Hm).
  unfold process, bind, lift, ProcessMediaSchema_parse.
  rewrite Hj, V.
  destruct (isUUID (media_id r)); simpl; auto.
Qed.

(** *** No candidates *)

(** What holds of every run whose candidate list is empty: the response
    is [needs_confirmation] with no candidates and the normalized text;
    the one call issued after text recognition is the update that writes
    status [needs_confirmation] and the normalized text to the media item;
    no place search is issued and no place record is written.  The rows
    of the media item carry the status and the text only if the data
    store accepts the update: its reply is not looked at. *)
Lemma no_candidates_ends_the_run env req w r ocrResults w1 :
  str_eqb (method req) (lit "POST") = true ->
  ProcessMediaSchema_parse (json req) = Returned r ->
  ocr_frames env (useTesseract env) (frame_urls r) [] w
    = (Returned ocrResults, w1) ->
  extractPOICandidates (aggregate ocrResults) = [] ->
  let normalizedText := normalize (aggregate ocrResults) in
  let response := fst (serve env req w) in
  let w' := snd (serve env req w) in
  response = {| status := 200;
                body := needs_confirmation_with [] normalizedText |} /\
  calls w' = calls w1
               ++ [UpdateMedia (media_id r)
                               {| u_restaurant_id := None;
                                  u_status := needs_confirmation;
                                  u_ocr_text := normalizedText |}] /\
  searches w' = searches w /\
  restaurants (store w') = restaurants (store w) /\
  media (store w')
  = match update_media_error env with
    | Some _ => media (store w)
    | None =>
        map (fun row =>
               if str_eqb (m_id row) (media_id r)
               then {| m_id := m_id row;
                       m_user_id := m_user_id row;
                       m_restaurant_id := m_restaurant_id row;
                       m_ocr_text := Some normalizedText;
                       m_status := needs_confirmation |}
               else row)
            (media (store w))
    end.
Proof.
  intros Hm Hp Ho Hc.
  assert (S1 : store w1 = store w).
  { pose proof (ocr_frames_keeps_store env (useTesseract env) (frame_urls r) [] w) as K.
    rewrite Ho in K. exact K. }
  assert (P1 : searches w1 = searches w).
  { pose proof (ocr_frames_keeps_searches env (useTesseract env) (frame_urls r) [] w) as K.
    rewrite Ho in K. exact K. }
  rewrite (serve_post env req w Hm).
  rewrite (process_without_candidates env req w Hp Ho Hc).
  rewrite ask_user_run. simpl.
  split; auto. split; auto. split; [|split].
  - unfold searches in *. simpl. rewrite filter_app. simpl.
    rewrite app_nil_r. exact P1.
  - destruct (update_media_error env); simpl; congruence.
  - destruct (update_media_error env); simpl; rewrite S1; reflexivity.
Qed.

(** A text with nothing in it has no candidates, whatever lower-casing
    does to it. *)
Lemma no_text_no_candidates ocrResults :
  aggregate ocrResults = [] ->
  extractPOICandidates (aggregate ocrResults) = [].
Proof. intros ->. reflexivity. Qed.

(** *** Place search and the provider's status *)

(** One pass of the loop over the candidates whose search throws: the
    exception is caught and logged, the places found so far are kept, and
    the loop goes on with the next candidate. *)
Lemma search_candidates_catches env query rest country city allPlaces w e w1 :
  searchPlaces env query country city w = (Thrown e, w1) ->
  search_candidates env (query :: rest) country city allPlaces w
  = search_candidates env rest country city allPlaces
      {| store := store w1;
         console := console w1
           ++ [console_error (lit "Place search failed for candidate "
                                ++ [34%N] ++ query ++ [34%N; 58%N]) e];
         calls := calls w1 |}.
Proof.
  intros S. cbn [search_candidates].
  unfold bind at 1, try_catch, bind at 1. rewrite S.
  unfold bind, log, ret. reflexivity.
Qed.

(** C7, as the code has it.  With the key configured and a query that
    can be encoded, so that the provider is asked: when the provider
    answers with an HTTP success and a body whose status is not [OK], the
    search returns the empty list and logs one warning; when the provider
    answers with an HTTP status that is not a success, the search throws.
    The loop of the handler catches that exception, logs it with the
    candidate, keeps the places found so far and goes on with the next
    candidate; it never throws itself. *)
Theorem searchPlaces_on_provider_status env query country city w :
  unset (GOOGLE_MAPS_API_KEY env) = false ->
  let searchQuery := build_query query city in
  isWellFormed searchQuery = true ->
  (forall statusText data,
     places_fetch env searchQuery = PlacesResponse true statusText (Some data) ->
     pb_status data <> lit "OK" ->
     searchPlaces env query country city w
     = (Returned [],
        {| store := store w;
           console := console w ++ [console_warn
                                      (lit "Places API returned status: "
                                         ++ pb_status data)];
           calls := calls w ++ [PlacesCall searchQuery] |})) /\
  (forall statusText body,
     places_fetch env searchQuery = PlacesResponse false statusText body ->
     fst (searchPlaces env query country city w)
     = Thrown (lit "Places API error: " ++ statusText) /\
     forall rest allPlaces,
       search_candidates env (query :: rest) country city allPlaces w
       = search_candidates env rest country city allPlaces
           {| store := store w;
              console := console w
                ++ [console_error
                      (lit "Place search failed for candidate "
                         ++ [34%N] ++ query ++ [34%N; 58%N])
                      (lit "Places API error: " ++ statusText)];
              calls := calls w ++ [PlacesCall searchQuery] |}) /\
  (forall candidates allPlaces,
     never_throws (search_candidates env candidates country city allPlaces)).
Proof.
  intros K searchQuery W. subst searchQuery. split; [|split].
  - intros st data F N. unfold searchPlaces. rewrite K, W, F.
    apply str_eqb_neq in N. rewrite N. reflexivity.
  - intros st b F.
    assert (S : searchPlaces env query country city w
                = (Thrown (lit "Places API error: " ++ st),
                   {| store := store w;
                      console := console w;
                      calls := calls w ++ [PlacesCall (build_query query city)] |})).
    { unfold searchPlaces. rewrite K, W, F. reflexivity. }
    split; [now rewrite S|].
    intros rest allPlaces.
    now rewrite (@search_candidates_catches env query rest country city allPlaces w _ _ S).
  - intros. apply search_candidates_never_throws.
Qed.

(** *** The candidates of a run *)

(** A search calls the provider once, unless its query cannot be
    encoded. *)
Lemma searchPlaces_issues env query country city w :
  unset (GOOGLE_MAPS_API_KEY env) = false ->
  calls (snd (searchPlaces env query country city w))
  = calls w ++ (if isWellFormed (build_query query city)
                then [PlacesCall (build_query query city)] else []).
Proof.
  intros K. unfold searchPlaces. rewrite K.
  destruct (isWellFormed (build_query query city));
    [|simpl; now rewrite app_nil_r].
  unfold bind, issue. cbv beta iota zeta. cbn [negb]. cbv iota.
  destruct (places_fetch env (build_query query city)) as [e|ok st [data|]];
    try destruct ok; try reflexivity.
  cbn [negb]. cbv iota.
  destruct (negb (str_eqb (pb_status data) (lit "OK"))); [reflexivity|].
  unfold lift. reflexivity.
Qed.

Lemma search_candidates_issues env country city :
  unset (GOOGLE_MAPS_API_KEY env) = false ->
  forall candidates allPlaces w,
    calls (snd (search_candidates env candidates country city allPlaces w))
    = calls w
        ++ map PlacesCall
             (filter isWellFormed
                     (map (fun c => build_query c city) candidates)).
Proof.
  intros K. induction candidates as [|c cs IH]; intros acc w.
  - simpl. now rewrite app_nil_r.
  - pose proof (searchPlaces_issues env c country city w K) as I.
    cbn [search_candidates map filter].
    unfold bind at 1, try_catch, bind at 1.
    destruct (searchPlaces env c country city w) as [[ps|e] w1];
      cbn [snd] in I; unfold ret, bind, log; cbv beta iota;
      rewrite IH; cbn [calls]; rewrite I, <- app_assoc;
      destruct (isWellFormed (build_query c city)); reflexivity.
Qed.

Lemma searches_of_queries (queries : list str) (l : list Call) :
  filter is_places_call (l ++ map PlacesCall queries)
  = filter is_places_call l ++ map PlacesCall queries.
Proof.
  rewrite filter_app. f_equal.
  induction queries as [|q qs IH]; simpl; [reflexivity | now rewrite IH].
Qed.

Lemma ask_user_keeps_searches env id txt top :
  preserves searches (ask_user env id txt top).
Proof.
  intros w. rewrite ask_user_run. unfold searches. cbn [snd calls].
  rewrite filter_app. simpl. apply app_nil_r.
Qed.

Lemma auto_confirm_keeps_searches env r txt candidates best :
  preserves searches (auto_confirm env r txt candidates best).
Proof.
  intros w. unfold searches.
  destruct (insert_restaurant_reply env) as [id|message] eqn:I.
  - destruct (auto_confirm_accepted env r txt candidates best w I)
      as [_ [_ [Cs _]]].
    rewrite Cs, filter_app. simpl. apply app_nil_r.
  - rewrite (auto_confirm_refused env r txt candidates best w I).
    cbn [snd calls]. rewrite !filter_app. simpl. now rewrite !app_nil_r.
Qed.

Lemma score_and_decide_keeps_searches env r txt candidates allPlaces :
  preserves searches (score_and_decide env r txt candidates allPlaces).
Proof.
  unfold score_and_decide.
  destruct (firstn 3 (scorePlaceCandidates candidates allPlaces)) as [|b top].
  - apply ask_user_keeps_searches.
  - destruct (Qle_bool (3 # 4) (score b)).
    + apply auto_confirm_keeps_searches.
    + apply ask_user_keeps_searches.
Qed.

(** The place searches of a run are those for the first three candidates
    of the lower-cased text, in order, and no other; a query that cannot
    be encoded is not sent. *)
Lemma process_searches env req w r :
  ProcessMediaSchema_parse (json req) = Returned r ->
  exists ocrResults w1,
    ocr_frames env (useTesseract env) (frame_urls r) [] w
      = (Returned ocrResults, w1) /\
    searches (snd (process env req w))
    = searches w
        ++ (if unset (GOOGLE_MAPS_API_KEY env) then []
            else map PlacesCall
                   (filter isWellFormed
                      (map (fun c => build_query c (city r))
                         (firstn 3 (extractPOICandidates
                                      (aggregate ocrResults)))))).
Proof.
  intros P.
  remember (process env req w) as out eqn:E.
  unfold process, bind at 1, lift in E. rewrite P in E.
  cbv beta iota in E. unfold bind at 1 in E.
  pose proof (ocr_frames_keeps_searches env (useTesseract env) (frame_urls r)
                [] w) as S1.
  destruct (ocr_frames_never_throws env (useTesseract env) (frame_urls r) [] w)
    as [ocr O].
  destruct (ocr_frames env (useTesseract env) (frame_urls r) [] w)
    as [[ocr'|e] w1]; simpl in O, S1; [|discriminate].
  exists ocr', w1. split; [reflexivity|].
  cbv zeta in E.
  destruct (extractPOICandidates (aggregate ocr')) as [|c cs] eqn:C.
  { subst out. rewrite ask_user_keeps_searches, S1.
    destruct (unset (GOOGLE_MAPS_API_KEY env)); simpl; now rewrite app_nil_r. }
  unfold bind at 1 in E.
  assert (S2 : searches (snd (search_candidates env (firstn 3 (c :: cs))
                                (country r) (city r) [] w1))
               = searches w
                   ++ (if unset (GOOGLE_MAPS_API_KEY env) then []
                       else map PlacesCall
                              (filter isWellFormed
                                 (map (fun c => build_query c (city r))
                                      (firstn 3 (c :: cs)))))).
  { unfold searches. destruct (unset (GOOGLE_MAPS_API_KEY env)) eqn:K.
    - destruct (search_candidates_without_key env (country r) (city r) K
                  (firstn 3 (c :: cs)) [] w1) as [_ [Cl _]].
      rewrite Cl, app_nil_r. exact S1.
    - rewrite (search_candidates_issues env (country r) (city r) K).
      rewrite searches_of_queries. unfold searches in S1. now rewrite S1. }
  destruct (search_candidates_never_throws env (country r) (city r)
              (firstn 3 (c :: cs)) [] w1) as [ps S].
  destruct (search_candidates env (firstn 3 (c :: cs)) (country r) (city r)
              [] w1) as [[places|e] w2]; cbn [fst snd] in S, S2; [|discriminate].
  subst out. rewrite <- S2.
  destruct places as [|p ps'].
  - apply ask_user_keeps_searches.
  - apply score_and_decide_keeps_searches.
Qed.

(** C10.  Given the one fact about lower-casing that the argument needs,
    that its result holds none of the code units A-Z.  In every run of
    the handler on a valid request, the candidates are extracted from the
    lower-cased join of the frame texts: the place searches the run
    issues are exactly those for the first three of these candidates, in
    order (none without a key for the provider, and none for a query that
    cannot be encoded).  No line of that text matches the Title Case
    pattern, and so every candidate includes a keyword of the table or
    includes [@] or [#]. *)
Theorem pipeline_candidates_never_title_case
  (lower_has_no_capital :
     forall s c, In c (toLowerCase s) -> is_upper c = false)
  (env : Env) (req : Request) (w : World) (r : ProcessMediaRequest) :
  str_eqb (method req) (lit "POST") = true ->
  ProcessMediaSchema_parse (json req) = Returned r ->
  exists ocrResults,
    fst (ocr_frames env (useTesseract env) (frame_urls r) [] w)
      = Returned ocrResults /\
    let allText := toLowerCase (join (lit " ") (map text ocrResults)) in
    let candidates := extractPOICandidates allText in
    searches (snd (serve env req w))
    = searches w
        ++ (if unset (GOOGLE_MAPS_API_KEY env) then []
            else map PlacesCall
                   (filter isWellFormed
                      (map (fun c => build_query c (city r))
                           (firstn 3 candidates)))) /\
    (forall line, In line (lines_of allText) -> isTitleCase line = false) /\
    (forall c, In c candidates ->
       isTitleCase c = false /\
       (hasFoodKeyword c = true \/
        includes c (lit "@") = true \/ includes c (lit "#") = true)).
Proof.
  intros Hm P.
  destruct (process_searches env req w P) as [ocr [w1 [O S]]].
  exists ocr. rewrite O. split; [reflexivity|]. cbv zeta.
  destruct (lowered_text_has_no_title_case lower_has_no_capital ocr)
    as [_ [T Q]].
  split; [|split].
  - rewrite (serve_post env req w Hm).
    destruct (process env req w) as [[resp|e] w2]; exact S.
  - exact T.
  - intros c H. split; [|exact (Q c H)].
    apply candidates_are_qualifying_lines in H. destruct H as [H _].
    exact (T c H).
Qed.

(** *** The cache entry *)

(** In every run that reaches the confident branch with a data store that
    accepts the place record, one cache entry is sent; its
    [normalized_query] is the first extracted candidate, lower-cased, and
    it carries the locality hint of the request and the fields and score
    of the confirmed place. *)
Lemma cache_entry_is_keyed_by_first_candidate
      env r txt candidates bestMatch w id :
  insert_restaurant_reply env = DbData id ->
  let w' := snd (auto_confirm env r txt candidates bestMatch w) in
  let entry := cache_entry_of r candidates bestMatch in
  In (InsertPlaceCache entry) (calls w') /\
  c_normalized_query entry = toLowerCase (hd [] candidates) /\
  c_country entry = country r /\ c_city entry = city r /\
  c_place_id entry = place_id (place bestMatch) /\
  c_name entry = name (place bestMatch) /\
  (c_score entry == score bestMatch)%Q.
Proof.
  intros H.
  destruct (auto_confirm_accepted env r txt candidates bestMatch w H)
    as [_ [_ [Cs _]]].
  cbv zeta. rewrite Cs. split.
  - apply in_or_app. right. simpl. auto.
  - simpl. repeat split; reflexivity.
Qed.

(** ** More on the scorer *)

(** *** The table and its recurrence *)

Lemma prefix_distance_nil_r p1 : prefix_distance p1 [] = length p1.
Proof. destruct p1; reflexivity. Qed.

Lemma prefix_distance_cons a p1 b p2 :
  prefix_distance (a :: p1) (b :: p2)
  = min3 (prefix_distance p1 (b :: p2) + 1)
         (prefix_distance (a :: p1) p2 + 1)
         (prefix_distance p1 p2 + (if (a =? b)%N then 0 else 1)).
Proof. reflexivity. Qed.

Lemma row_from_head p1 rest p2 :
  row_from p1 rest p2 = prefix_distance p1 p2 :: tl (row_from p1 rest p2).
Proof. destruct rest; reflexivity. Qed.

Lemma fill_row_is_row_from cj rest :
  forall p1 p2,
    fill_row cj rest (row_from p1 rest p2) (prefix_distance p1 (cj :: p2))
    = tl (row_from p1 rest (cj :: p2)).
Proof.
  induction rest as [|c rest IH]; intros p1 p2; [reflexivity|].
  cbn [row_from tl].
  rewrite (row_from_head (c :: p1) rest p2).
  cbn [fill_row]. rewrite <- prefix_distance_cons.
  rewrite <- (row_from_head (c :: p1) rest p2), IH.
  now rewrite <- row_from_head.
Qed.

Lemma first_row p1 rest :
  row_from p1 rest [] = seq (length p1) (length rest + 1).
Proof.
  revert p1; induction rest as [|c rest IH]; intros p1; simpl.
  - now rewrite prefix_distance_nil_r.
  - rewrite prefix_distance_nil_r, IH. reflexivity.
Qed.

Lemma next_row_is_row_from str1 p2 cj :
  next_row str1 (S (length p2), row_from [] str1 p2) cj
  = (S (length (cj :: p2)), row_from [] str1 (cj :: p2)).
Proof.
  unfold next_row. f_equal.
  rewrite (row_from_head [] str1 (cj :: p2)). f_equal.
  exact (fill_row_is_row_from cj str1 [] p2).
Qed.

Lemma rows_are_row_from str1 str2 :
  forall p2,
    fold_left (next_row str1) str2 (S (length p2), row_from [] str1 p2)
    = (S (length p2 + length str2), row_from [] str1 (rev str2 ++ p2)).
Proof.
  induction str2 as [|cj str2 IH]; intros p2.
  - simpl. now rewrite Nat.add_0_r.
  - cbn [fold_left]. rewrite next_row_is_row_from, IH.
    f_equal; [simpl; lia|]. f_equal. simpl. now rewrite <- app_assoc.
Qed.

Lemma last_row_from rest :
  forall p1 p2, last (row_from p1 rest p2) 0 = prefix_distance (rev rest ++ p1) p2.
Proof.
  induction rest as [|c rest IH]; intros p1 p2; [reflexivity|].
  replace (rev (c :: rest) ++ p1) with (rev rest ++ c :: p1)
    by (simpl; now rewrite <- app_assoc).
  rewrite <- IH. cbn [row_from].
  now rewrite (row_from_head (c :: p1) rest p2).
Qed.

Lemma table_is_prefix_distance (str1 str2 : str) :
  levenshteinDistance str1 str2 = prefix_distance (rev str1) (rev str2).
Proof.
  unfold levenshteinDistance.
  pose proof (rows_are_row_from str1 str2 []) as H.
  rewrite first_row in H. simpl in H.
  rewrite H. simpl. rewrite last_row_from, !app_nil_r. reflexivity.
Qed.

(** X1.  The table filled row by row computes the classical recurrence of
    the edit distance on the two strings, read from their ends. *)
Theorem levenshteinDistance_recurrence (str1 str2 : str) :
  levenshteinDistance str1 str2 = prefix_distance (rev str1) (rev str2).
Proof. apply table_is_prefix_distance. Qed.

Lemma prefix_distance_sym p1 :
  forall p2, prefix_distance p1 p2 = prefix_distance p2 p1.
Proof.
  induction p1 as [|a p1 IH1]; intros p2.
  - destruct p2; reflexivity.
  - induction p2 as [|b p2 IH2]; [reflexivity|].
    rewrite !prefix_distance_cons, IH2, (IH1 (b :: p2)), (IH1 p2).
    rewrite (N.eqb_sym b a). unfold min3. lia.
Qed.

Lemma table_sym (str1 str2 : str) :
  levenshteinDistance str1 str2 = levenshteinDistance str2 str1.
Proof.
  rewrite !table_is_prefix_distance. apply prefix_distance_sym.
Qed.

(** X2.  The distance does not depend on the order of its arguments. *)
Theorem levenshteinDistance_sym (str1 str2 : str) :
  levenshteinDistance str1 str2 = levenshteinDistance str2 str1.
Proof. apply table_sym. Qed.

Lemma prefix_distance_zero p1 :
  forall p2, prefix_distance p1 p2 = 0 <-> p1 = p2.
Proof.
  induction p1 as [|a p1 IH1]; intros p2.
  - simpl. destruct p2; simpl; split; congruence.
  - induction p2 as [|b p2 IH2].
    + simpl. split; discriminate.
    + rewrite prefix_distance_cons. unfold min3.
      destruct (a =? b)%N eqn:E.
      * apply N.eqb_eq in E. subst b. split.
        -- intros H. f_equal. apply IH1. lia.
        -- intros H. inversion H; subst.
           assert (prefix_distance p2 p2 = 0) by (now apply IH1). lia.
      * apply N.eqb_neq in E. split; [lia | congruence].
Qed.

Lemma table_zero (str1 str2 : str) :
  levenshteinDistance str1 str2 = 0 <-> str1 = str2.
Proof.
  rewrite table_is_prefix_distance, prefix_distance_zero.
  split; [|now intros ->].
  intros H. rewrite <- (rev_involutive str1), H. apply rev_involutive.
Qed.

(** X3.  The distance is zero exactly between a string and itself. *)
Theorem levenshteinDistance_zero (str1 str2 : str) :
  levenshteinDistance str1 str2 = 0 <-> str1 = str2.
Proof. apply table_zero. Qed.

Lemma prefix_distance_bounds p1 :
  forall p2,
    length p1 - length p2 <= prefix_distance p1 p2 /\
    length p2 - length p1 <= prefix_distance p1 p2 /\
    prefix_distance p1 p2 <= Nat.max (length p1) (length p2).
Proof.
  induction p1 as [|a p1 IH1]; intros p2.
  - destruct p2; simpl; lia.
  - induction p2 as [|b p2 IH2].
    + simpl. lia.
    + rewrite prefix_distance_cons. unfold min3.
      pose proof (IH1 (b :: p2)). pose proof (IH1 p2).
      simpl length in *.
      destruct (a =? b)%N; lia.
Qed.

(** X4.  The distance lies between the difference of the two lengths and
    the greater of them; to the empty string it is the length. *)
Theorem levenshteinDistance_bounds (str1 str2 : str) :
  length str1 - length str2 <= levenshteinDistance str1 str2 /\
  length str2 - length str1 <= levenshteinDistance str1 str2 /\
  levenshteinDistance str1 str2 <= Nat.max (length str1) (length str2) /\
  levenshteinDistance str1 [] = length str1 /\
  levenshteinDistance [] str2 = length str2.
Proof.
  unused.
  rewrite !table_is_prefix_distance.
  pose proof (prefix_distance_bounds (rev str1) (rev str2)) as H.
  rewrite !length_rev in H.
  repeat split; try tauto.
  - simpl. now rewrite prefix_distance_nil_r, length_rev.
  - rewrite (prefix_distance_sym (rev []) (rev str2)). simpl.
    now rewrite prefix_distance_nil_r, length_rev.
Qed.

(** *** Similarity *)

Lemma longer_is_longer (s1 s2 : str) :
  let longer := if length s2 <? length s1 then s1 else s2 in
  let shorter := if length s2 <? length s1 then s2 else s1 in
  length shorter <= length longer.
Proof.
  cbv zeta. destruct (length s2 <? length s1) eqn:C.
  - apply Nat.ltb_lt in C. lia.
  - apply Nat.ltb_ge in C. lia.
Qed.

Lemma similarity_in_range (str1 str2 : str) :
  (0 <= calculateSimilarity str1 str2 <= 1)%Q.
Proof.
  split; [apply calculateSimilarity_nonneg|].
  unfold calculateSimilarity.
  destruct (str_eqb (toLowerCase str1) (toLowerCase str2)); [lra|].
  set (s1 := toLowerCase str1). set (s2 := toLowerCase str2).
  set (longer := if length s2 <? length s1 then s1 else s2).
  set (shorter := if length s2 <? length s1 then s2 else s1).
  destruct (length longer =? 0) eqn:Z; [lra|].
  apply Nat.eqb_neq in Z.
  apply Qle_shift_div_r.
  - replace 0%Q with (inject_Z 0) by reflexivity. rewrite <- Zlt_Qlt. lia.
  - rewrite Qmult_1_l. unfold Qminus.
    rewrite <- inject_Z_opp, <- inject_Z_plus, <- Zle_Qle. lia.
Qed.

(** X5.  A similarity is a number between 0 and 1. *)
Theorem calculateSimilarity_range (str1 str2 : str) :
  (0 <= calculateSimilarity str1 str2 <= 1)%Q.
Proof. apply similarity_in_range. Qed.

(** X6.  The similarity of two strings is 1 exactly when they are equal
    once lower-cased. *)
Theorem calculateSimilarity_one (str1 str2 : str) :
  (calculateSimilarity str1 str2 == 1)%Q <-> toLowerCase str1 = toLowerCase str2.
Proof.
  unfold calculateSimilarity.
  destruct (str_eqb (toLowerCase str1) (toLowerCase str2)) eqn:E.
  - apply str_eqb_eq in E. split; [auto | reflexivity].
  - apply str_eqb_neq in E. split; [|congruence]. intros H. exfalso.
    set (s1 := toLowerCase str1) in *. set (s2 := toLowerCase str2) in *.
    pose proof (longer_is_longer s1 s2) as LL. cbv zeta in LL.
    set (longer := if length s2 <? length s1 then s1 else s2) in *.
    set (shorter := if length s2 <? length s1 then s2 else s1) in *.
    assert (D : levenshteinDistance longer shorter <> 0).
    { rewrite table_zero. unfold longer, shorter.
      destruct (length s2 <? length s1); congruence. }
    destruct (length longer =? 0) eqn:Z.
    + apply Nat.eqb_eq in Z.
      assert (longer = []) by (destruct longer; [auto | discriminate]).
      assert (shorter = [])
        by (destruct shorter; [auto | simpl in LL; lia]).
      apply D. apply table_zero. congruence.
    + apply Nat.eqb_neq in Z.
      assert (N0 : ~ (inject_Z (Z.of_nat (length longer)) == 0)%Q).
      { replace 0%Q with (inject_Z 0) by reflexivity.
        rewrite inject_Z_injective. lia. }
      pose proof (@Qmult_div_r
                    (inject_Z (Z.of_nat (length longer))
                     - inject_Z (Z.of_nat (levenshteinDistance longer shorter)))
                    _ N0) as M.
      rewrite H in M.
      assert (Z0 : (inject_Z (Z.of_nat (levenshteinDistance longer shorter))
                    == 0)%Q).
      { revert M.
        generalize (inject_Z (Z.of_nat (levenshteinDistance longer shorter))).
        generalize (inject_Z (Z.of_nat (length longer))).
        intros a b M. lra. }
      unfold Qeq in Z0. simpl in Z0. lia.
Qed.

(** X7.  The similarity does not depend on the order of its arguments. *)
Theorem calculateSimilarity_sym (str1 str2 : str) :
  calculateSimilarity str1 str2 = calculateSimilarity str2 str1.
Proof.
  unfold calculateSimilarity.
  set (s1 := toLowerCase str1). set (s2 := toLowerCase str2).
  destruct (str_eqb s1 s2) eqn:E.
  - apply str_eqb_eq in E. rewrite E, str_eqb_refl. reflexivity.
  - assert (E' : str_eqb s2 s1 = false).
    { apply str_eqb_neq. apply str_eqb_neq in E. congruence. }
    rewrite E'.
    destruct (Nat.lt_trichotomy (length s1) (length s2)) as [L|[L|L]].
    + assert (A : (length s2 <? length s1) = false) by (apply Nat.ltb_ge; lia).
      assert (B : (length s1 <? length s2) = true) by (apply Nat.ltb_lt; lia).
      rewrite A, B. reflexivity.
    + assert (A : (length s2 <? length s1) = false) by (apply Nat.ltb_ge; lia).
      assert (B : (length s1 <? length s2) = false) by (apply Nat.ltb_ge; lia).
      rewrite A, B, L, (table_sym s2 s1). reflexivity.
    + assert (A : (length s2 <? length s1) = true) by (apply Nat.ltb_lt; lia).
      assert (B : (length s1 <? length s2) = false) by (apply Nat.ltb_ge; lia).
      rewrite A, B. reflexivity.
Qed.

(** *** Scores *)

Lemma one_is_a_double : double 1 = 1%Q.
Proof. vm_compute. reflexivity. Qed.

(** The greatest score: a similarity of 1 with both bonuses, each sum
    rounded as it is made. *)
Lemma add_bonuses_one p : (add_bonuses p 1 <= top_score)%Q.
Proof.
  unfold add_bonuses. cbv zeta.
  destruct (foodType p), (highRating p);
    apply Qle_bool_iff; vm_compute; reflexivity.
Qed.

Lemma scorePlace_range candidates p :
  (0 <= score (scorePlace candidates p) <= top_score)%Q.
Proof.
  simpl. destruct (score_loop p candidates 0%Q) as [A [_ U]].
  split; [exact A|].
  destruct U as [U|[c [_ U]]].
  - rewrite U. apply Qle_bool_iff. vm_compute. reflexivity.
  - rewrite U.
    apply Qle_trans with (add_bonuses p (double 1)).
    + apply add_bonuses_le, double_le, similarity_in_range.
    + rewrite one_is_a_double. apply add_bonuses_one.
Qed.

(** X8.  The scorer returns as many scored places as it was given places,
    and every score lies between 0 and the double that the sum
    (1 + 0.1) + 0.1 gives, each addition rounded as the machine rounds
    it. *)
Theorem scorePlaceCandidates_range
  (candidates : list str) (places : list PlaceSearchResult) :
  length (scorePlaceCandidates candidates places) = length places /\
  Forall (fun sp =>
            (0 <= score sp
             <= double (double (1 + double (1 # 10)) + double (1 # 10)))%Q)
         (scorePlaceCandidates candidates places).
Proof.
  destruct (sort_scored candidates places) as [_ [P _]].
  split.
  - rewrite (Permutation_length P). apply length_map.
  - rewrite Forall_forall. intros sp H.
    apply (Permutation_in _ P) in H. apply in_map_iff in H.
    destruct H as [p [<- _]]. apply scorePlace_range.
Qed.

Lemma is_max_similarity_perm candidates candidates' p m :
  Permutation candidates candidates' ->
  is_max_similarity candidates p m -> is_max_similarity candidates' p m.
Proof.
  intros P [[c [Hc E]] B]. split.
  - exists c. split; auto. eapply Permutation_in; eauto.
  - intros c' Hc'. apply B. eapply Permutation_in; [symmetry|]; eauto.
Qed.

(** X9.  The score of a place depends on which candidates there are, not
    on their order, and further candidates never lower it. *)
Theorem scorePlace_candidates
  (candidates candidates' more : list str) (p : PlaceSearchResult) :
  (Permutation candidates candidates' ->
   (score (scorePlace candidates p) == score (scorePlace candidates' p))%Q) /\
  (score (scorePlace candidates p) <= score (scorePlace (candidates ++ more) p))%Q.
Proof.
  split.
  - intros P. destruct candidates as [|c cs].
    + apply Permutation_nil in P. subst. reflexivity.
    + destruct (@max_similarity_exists (c :: cs) p) as [m Hm]; [discriminate|].
      rewrite (scorePlace_is_max_plus_bonus Hm).
      rewrite (scorePlace_is_max_plus_bonus (is_max_similarity_perm P Hm)).
      reflexivity.
  - simpl. rewrite fold_left_app.
    apply (score_loop p more (fold_left (score_step p) candidates 0%Q)).
Qed.

(** ** More on strings, lines and the normalized text *)

Lemma drop_while_starts f s :
  match drop_while f s with
  | [] => True
  | c :: _ => f c = false
  end.
Proof.
  induction s as [|x s IH]; simpl; auto.
  destruct (f x) eqn:E; auto.
Qed.

Lemma drop_while_id f s :
  match s with [] => True | c :: _ => f c = false end -> drop_while f s = s.
Proof. destruct s as [|c s]; simpl; auto. now intros ->. Qed.

Lemma drop_while_suffix f s :
  exists pre, s = pre ++ drop_while f s /\ Forall (fun c => f c = true) pre.
Proof.
  induction s as [|x s [pre [E F]]]; simpl.
  - exists []. auto.
  - destruct (f x) eqn:Fx.
    + exists (x :: pre). simpl. split; [congruence | auto].
    + exists []. auto.
Qed.

Lemma trimEnd_prefix s :
  exists suf, s = trimEnd s ++ suf /\ Forall (fun c => is_space c = true) suf.
Proof.
  unfold trimEnd.
  destruct (drop_while_suffix is_space (rev s)) as [pre [E F]].
  exists (rev pre). split.
  - rewrite <- rev_app_distr, <- E. now rewrite rev_involutive.
  - now apply Forall_rev.
Qed.

Lemma trim_is_trimmed s : trimmed (trim s).
Proof.
  unfold trimmed, trim. split.
  - destruct (trimEnd_prefix (trimStart s)) as [suf [E _]].
    pose proof (drop_while_starts is_space s) as H.
    fold (trimStart s) in H. rewrite E in H.
    destruct (trimEnd (trimStart s)); simpl in *; auto.
  - unfold trimEnd. rewrite rev_involutive.
    apply (drop_while_starts is_space (rev (trimStart s))).
Qed.

Lemma trim_of_trimmed s : trimmed s -> trim s = s.
Proof.
  intros [A B]. unfold trim, trimEnd, trimStart.
  rewrite (drop_while_id is_space s A), (drop_while_id is_space (rev s) B).
  apply rev_involutive.
Qed.

Lemma split_has_no_separator sep s piece :
  In piece (split sep s) -> ~ In sep piece.
Proof.
  revert piece; induction s as [|x s IH]; simpl; intros piece.
  - intros [<-|[]] [].
  - destruct (x =? sep)%N eqn:E.
    + intros [<-|H]; [intros [] | auto].
    + apply N.eqb_neq in E. destruct (split sep s) as [|p ps].
      * intros [<-|[]] [?|[]]. congruence.
      * intros [<-|H].
        -- intros [?|Hp]; [congruence|]. apply (IH p); simpl; auto.
        -- apply IH. simpl; auto.
Qed.

Lemma split_without_separator sep s : ~ In sep s -> split sep s = [s].
Proof.
  unused.
  induction s as [|x s IH]; simpl; auto. intros H.
  destruct (x =? sep)%N eqn:E.
  - apply N.eqb_eq in E. tauto.
  - rewrite IH by tauto. reflexivity.
Qed.

Lemma split_app sep p rest :
  ~ In sep p -> split sep (p ++ sep :: rest) = p :: split sep rest.
Proof.
  unused.
  induction p as [|x p IH]; simpl; intros H.
  - now rewrite N.eqb_refl.
  - destruct (x =? sep)%N eqn:E.
    + apply N.eqb_eq in E. tauto.
    + rewrite IH by tauto. reflexivity.
Qed.

Lemma split_join sep parts :
  parts <> [] -> (forall p, In p parts -> ~ In sep p) ->
  split sep (join [sep] parts) = parts.
Proof.
  unused.
  induction parts as [|p rest IH]; [congruence|]. intros _ H.
  destruct rest as [|q rest].
  - simpl. apply split_without_separator. apply H. simpl; auto.
  - change (join [sep] (p :: q :: rest)) with (p ++ sep :: join [sep] (q :: rest)).
    rewrite split_app by (apply H; simpl; auto).
    rewrite IH; [reflexivity | discriminate |].
    intros x Hx. apply H. simpl in *. tauto.
Qed.

(** *** Lines and candidates *)

Lemma lines_are_tidy text line :
  In line (lines_of text) ->
  line <> [] /\ trimmed line /\ ~ In 10%N line.
Proof.
  unfold lines_of. intros H. apply filter_In in H. destruct H as [H L].
  apply in_map_iff in H. destruct H as [piece [<- Hp]].
  split; [|split].
  - intros E. rewrite E in L. discriminate.
  - apply trim_is_trimmed.
  - intros Hn. apply trim_incl in Hn.
    exact (split_has_no_separator _ _ _ Hp Hn).
Qed.

(** X10.  Every extracted candidate is a non-empty string on one line,
    without white space at either end. *)
Theorem candidates_are_tidy (text c : str) :
  In c (extractPOICandidates text) ->
  c <> [] /\ trimmed c /\ ~ In 10%N c.
Proof.
  intros H. apply candidates_are_qualifying_lines in H.
  destruct H as [H _]. exact (lines_are_tidy _ _ H).
Qed.

Lemma fresh_of_new items :
  forall seen,
    NoDup items -> (forall x, In x items -> ~ In x seen) ->
    fresh seen items = items.
Proof.
  induction items as [|x items IH]; intros seen N D; [reflexivity|].
  simpl. inversion N as [|? ? Nx N']; subst.
  destruct (Set_has seen x) eqn:E.
  - apply Set_has_In in E. exfalso. apply (D x); simpl; auto.
  - f_equal. apply IH; auto.
    intros y Hy Hs. apply in_app_or in Hs. destruct Hs as [Hs|[<-|[]]].
    + apply (D y); simpl; auto.
    + auto.
Qed.

Lemma filter_all {A : Type} (f : A -> bool) (l : list A) :
  (forall x, In x l -> f x = true) -> filter f l = l.
Proof.
  induction l as [|x l IH]; simpl; intros H; [reflexivity|].
  rewrite (H x) by auto. f_equal. auto.
Qed.

Lemma map_all {A : Type} (f : A -> A) (l : list A) :
  (forall x, In x l -> f x = x) -> map f l = l.
Proof.
  induction l as [|x l IH]; simpl; intros H; [reflexivity|].
  rewrite (H x) by auto. f_equal. auto.
Qed.

(** X11.  Extraction is stable: the candidates of a text, written one per
    line, are extracted again unchanged and in the same order. *)
Theorem extractPOICandidates_again (text : str) :
  extractPOICandidates (join [10%N] (extractPOICandidates text))
  = extractPOICandidates text.
Proof.
  set (cs := extractPOICandidates text).
  assert (T : forall c, In c cs -> c <> [] /\ trimmed c /\ ~ In 10%N c).
  { intros c H. apply candidates_are_qualifying_lines in H.
    destruct H as [H _]. exact (lines_are_tidy _ _ H). }
  assert (Q : forall c, In c cs -> qualifies c = true)
    by (intros c H; apply (candidates_are_qualifying_lines text c H)).
  assert (N : NoDup cs)
    by (unfold cs; rewrite extractPOICandidates_eq; apply fresh_NoDup).
  destruct cs as [|c0 cs'] eqn:E; [reflexivity|].
  rewrite extractPOICandidates_eq. unfold lines_of.
  rewrite split_join; [|discriminate|intros p Hp; apply (T p Hp)].
  rewrite map_all by (intros x Hx; apply trim_of_trimmed, (T x Hx)).
  rewrite (filter_all (fun line => 0 <? length line)).
  - rewrite (filter_all qualifies) by exact Q.
    apply fresh_of_new; auto.
  - intros x Hx. destruct (T x Hx) as [Hne _].
    destruct x; [congruence | reflexivity].
Qed.

(** *** The normalized text *)

Lemma word_is_not_space c : is_word c = true -> is_space c = false.
Proof.
  unused. unfold is_word, is_upper, is_lower, is_digit, is_space.
  rewrite !orb_true_iff, !andb_true_iff, !N.leb_le, N.eqb_eq.
  intros H.
  repeat (apply orb_false_iff; split);
    try (apply andb_false_iff; rewrite !N.leb_gt; lia);
    apply N.eqb_neq; lia.
Qed.

Lemma blank_non_word_shape s :
  Forall (fun c => is_word c = true \/ is_space c = true) (blank_non_word s).
Proof.
  unfold blank_non_word. apply Forall_forall. intros c H.
  apply in_map_iff in H. destruct H as [x [<- _]].
  destruct (is_word x || is_space x) eqn:E.
  - now apply orb_true_iff.
  - right. reflexivity.
Qed.

Lemma collapse_spaces_shape s :
  Forall (fun c => is_word c = true \/ is_space c = true) s ->
  forall in_run,
    words_and_spaces (collapse_spaces in_run s) /\
    single_spaced (collapse_spaces in_run s) /\
    (in_run = true -> starts_clean (collapse_spaces in_run s)).
Proof.
  unfold words_and_spaces.
  induction 1 as [|c s Hc _ IH]; intros in_run; simpl.
  - repeat split; auto.
  - destruct (is_space c) eqn:S.
    + destruct in_run.
      * apply IH.
      * destruct (IH true) as [A [B C]]. specialize (C eq_refl).
        split; [constructor; auto|]. split; [|discriminate].
        destruct (collapse_spaces true s) as [|d t] eqn:E; simpl; auto.
        split; auto. intros [_ ->]. simpl in C. discriminate.
    + destruct Hc as [Hc|Hc]; [|congruence].
      destruct (IH false) as [A [B _]].
      split; [constructor; auto|]. split; [|intros _; exact S].
      destruct (collapse_spaces false s) as [|d t] eqn:E; simpl; auto.
      split; auto. intros [-> _]. discriminate.
Qed.

Lemma single_spaced_app_l a b : single_spaced (a ++ b) -> single_spaced a.
Proof.
  unused. induction a as [|c a IH]; [simpl; auto|].
  destruct a as [|d a].
  - intros _. exact I.
  - change (single_spaced ((c :: d :: a) ++ b))
      with (~ (c = 32%N /\ d = 32%N) /\ single_spaced ((d :: a) ++ b)).
    change (single_spaced (c :: d :: a))
      with (~ (c = 32%N /\ d = 32%N) /\ single_spaced (d :: a)).
    tauto.
Qed.

Lemma single_spaced_app_r a b : single_spaced (a ++ b) -> single_spaced b.
Proof.
  unused. induction a as [|c a IH]; [simpl; auto|].
  intros H. apply IH.
  destruct a as [|d a].
  - destruct b; [exact I|]. exact (proj2 H).
  - exact (proj2 H).
Qed.

Lemma trim_parts s :
  exists pre suf, s = pre ++ trim s ++ suf.
Proof.
  destruct (drop_while_suffix is_space s) as [pre [E _]].
  destruct (trimEnd_prefix (trimStart s)) as [suf [E' _]].
  exists pre, suf. unfold trim. unfold trimStart in *. now rewrite <- E', <- E.
Qed.

Lemma normalize_has_shape (allText : str) :
  words_and_spaces (normalize allText) /\
  single_spaced (normalize allText) /\
  trimmed (normalize allText).
Proof.
  unused.
  unfold normalize.
  destruct (collapse_spaces_shape (blank_non_word_shape allText) false)
    as [A [B _]].
  destruct (trim_parts (collapse_spaces false (blank_non_word allText)))
    as [pre [suf E]].
  split; [|split].
  - unfold words_and_spaces in *. rewrite E in A.
    apply Forall_app in A. destruct A as [_ A].
    apply Forall_app in A. tauto.
  - rewrite E in B. apply single_spaced_app_r in B.
    now apply single_spaced_app_l in B.
  - apply trim_is_trimmed.
Qed.

(** X12.  The normalized text holds only word characters and single
    spaces U+0020, and neither begins nor ends with a space. *)
Theorem normalize_shape (allText : str) :
  words_and_spaces (normalize allText) /\
  single_spaced (normalize allText) /\
  trimmed (normalize allText).
Proof. apply normalize_has_shape. Qed.

Lemma blank_non_word_id s : words_and_spaces s -> blank_non_word s = s.
Proof.
  unfold words_and_spaces, blank_non_word. intros H. apply map_all.
  intros c Hc. rewrite Forall_forall in H. destruct (H c Hc) as [W| ->].
  - now rewrite W.
  - reflexivity.
Qed.

Lemma collapse_spaces_id s :
  words_and_spaces s -> single_spaced s ->
  forall in_run, (in_run = true -> starts_clean s) ->
                 collapse_spaces in_run s = s.
Proof.
  unused.
  unfold words_and_spaces.
  induction 1 as [|c s Hc Hs IH]; intros SS in_run C; [reflexivity|].
  cbn [collapse_spaces].
  assert (SS' : single_spaced s) by (destruct s; simpl in *; tauto).
  destruct Hc as [W| ->].
  - rewrite (word_is_not_space c W). f_equal. apply IH; auto. discriminate.
  - change (is_space 32) with true. cbv iota.
    destruct in_run; [specialize (C eq_refl); simpl in C; discriminate|].
    f_equal. apply IH; auto. intros _.
    destruct s as [|d t]; simpl; auto.
    inversion Hs as [|? ? Hd _]; subst.
    destruct Hd as [W| ->]; [now apply word_is_not_space|].
    simpl in SS. tauto.
Qed.

Lemma normalize_fixed (allText : str) :
  normalize (normalize allText) = normalize allText.
Proof.
  destruct (normalize_has_shape allText) as [A [B C]].
  set (n := normalize allText) in *.
  unfold normalize at 1.
  rewrite (blank_non_word_id A).
  rewrite (collapse_spaces_id A B); [|discriminate].
  now apply trim_of_trimmed.
Qed.

(** X13.  Normalizing is idempotent: a text that is already normalized is
    left as it is. *)
Theorem normalize_idempotent (allText : str) :
  normalize (normalize allText) = normalize allText.
Proof. apply normalize_fixed. Qed.

(** ** More on the handler *)

(** *** Counting calls *)

Lemma issues_more {A : Type} kind n n' (m : M A) :
  n <= n' -> issues_at_most kind n m -> issues_at_most kind n' m.
Proof. intros L H w. specialize (H w). lia. Qed.

Lemma issues_ret {A : Type} kind (a : A) : issues_at_most kind 0 (ret a).
Proof. intros w. simpl. lia. Qed.

Lemma issues_throw {A : Type} kind e : issues_at_most kind 0 (@throw A e).
Proof. intros w. simpl. lia. Qed.

Lemma issues_lift {A : Type} kind (o : Outcome A) : issues_at_most kind 0 (lift o).
Proof. intros w. simpl. lia. Qed.

Lemma issues_log kind e : issues_at_most kind 0 (log e).
Proof. intros w. unfold count_calls. simpl. lia. Qed.

Lemma issues_read kind : issues_at_most kind 0 read_store.
Proof. intros w. simpl. lia. Qed.

Lemma issues_write kind s : issues_at_most kind 0 (write_store s).
Proof. intros w. unfold count_calls. simpl. lia. Qed.

Lemma issues_issue kind c :
  issues_at_most kind (if kind c then 1 else 0) (issue c).
Proof.
  intros w. unfold count_calls. simpl. rewrite filter_app, length_app. simpl.
  destruct (kind c); simpl; lia.
Qed.

Lemma issues_bind {A B : Type} kind n k (m : M A) (f : A -> M B) :
  issues_at_most kind n m -> (forall a, issues_at_most kind k (f a)) ->
  issues_at_most kind (n + k) (bind m f).
Proof.
  intros Hm Hf w. unfold bind. specialize (Hm w).
  destruct (m w) as [[a|e] w']; simpl in *.
  - specialize (Hf a w'). lia.
  - lia.
Qed.

Lemma issues_try_catch {A : Type} kind n k (m : M A) (h : str -> M A) :
  issues_at_most kind n m -> (forall e, issues_at_most kind k (h e)) ->
  issues_at_most kind (n + k) (try_catch m h).
Proof.
  intros Hm Hh w. unfold try_catch. specialize (Hm w).
  destruct (m w) as [[a|e] w']; simpl in *.
  - lia.
  - specialize (Hh e w'). lia.
Qed.

Create HintDb calls.

#[local] Hint Resolve issues_ret issues_throw issues_lift issues_log
  issues_read issues_write : calls.

Lemma performOCRWithVision_calls env url :
  issues_at_most is_vision_call 1 (performOCRWithVision env url) /\
  issues_at_most is_places_call 0 (performOCRWithVision env url).
Proof.
  unfold performOCRWithVision.
  destruct (unset (GOOGLE_VISION_API_KEY env)).
  - split; [apply issues_more with (n := 0); auto with calls | auto with calls].
  - split.
    + apply (@issues_bind _ _ is_vision_call 1 0).
      * apply (issues_issue is_vision_call (VisionCall url)).
      * intros _.
        destruct (vision_fetch env url) as [e|ok st [[|[d c] l]|]];
          try destruct (negb ok); auto with calls.
    + apply (@issues_bind _ _ is_places_call 0 0).
      * apply (issues_issue is_places_call (VisionCall url)).
      * intros _.
        destruct (vision_fetch env url) as [e|ok st [[|[d c] l]|]];
          try destruct (negb ok); auto with calls.
Qed.

Lemma performOCRWithTesseract_calls kind url :
  issues_at_most kind 0 (performOCRWithTesseract url).
Proof.
  unfold performOCRWithTesseract.
  apply (@issues_bind _ _ kind 0 0); auto with calls.
Qed.

Lemma ocr_frames_calls env t urls :
  forall acc,
    issues_at_most is_vision_call (length urls) (ocr_frames env t urls acc) /\
    issues_at_most is_places_call 0 (ocr_frames env t urls acc).
Proof.
  induction urls as [|url urls IH]; intros acc; simpl.
  - split; auto with calls.
  - assert (Step : forall kind n,
              issues_at_most kind n
                (if t then performOCRWithTesseract url
                 else performOCRWithVision env url) ->
              issues_at_most kind n
                (try_catch
                   (result <- (if t then performOCRWithTesseract url
                               else performOCRWithVision env url) ;;
                    ret (acc ++ [result]))
                   (fun error =>
                      log (console_error
                             (lit "OCR failed for frame " ++ url ++ lit ":")
                             error) ;;;
                      ret (acc ++ [no_text])))).
    { intros kind n H.
      replace n with ((n + 0) + (0 + 0)) by lia.
      apply issues_try_catch.
      - apply issues_bind; auto with calls.
      - intros e. apply issues_bind; auto with calls. }
    split.
    + change (S (length urls)) with (1 + length urls).
      apply issues_bind; [|intros a; apply IH].
      apply Step. destruct t.
      * apply issues_more with (n := 0); [lia|].
        apply performOCRWithTesseract_calls.
      * apply performOCRWithVision_calls.
    + change 0 with (0 + 0).
      apply issues_bind; [|intros a; apply IH].
      apply Step. destruct t.
      * apply performOCRWithTesseract_calls.
      * apply performOCRWithVision_calls.
Qed.

Lemma searchPlaces_calls env query country city :
  issues_at_most is_places_call 1 (searchPlaces env query country city) /\
  issues_at_most is_vision_call 0 (searchPlaces env query country city).
Proof.
  unfold searchPlaces.
  destruct (unset (GOOGLE_MAPS_API_KEY env)).
  - split; [apply issues_more with (n := 0); auto with calls | auto with calls].
  - assert (T : forall kind,
              issues_at_most kind 0
                match places_fetch env (build_query query city) with
                | PlacesFetchFails message => throw message
                | PlacesResponse ok statusText body =>
                    if negb ok
                    then throw (lit "Places API error: " ++ statusText)
                    else
                      match body with
                      | Some data =>
                          if negb (str_eqb (pb_status data) (lit "OK"))
                          then
                            log (console_warn
                                   (lit "Places API returned status: "
                                      ++ pb_status data)) ;;;
                            ret []
                          else lift (to_places (pb_results data))
                      | None => throw (lit "Unexpected token in JSON")
                      end
                end).
    { intros kind.
      destruct (places_fetch env (build_query query city)) as [e|ok st [data|]];
        try destruct (negb ok); auto with calls.
      destruct (negb (str_eqb (pb_status data) (lit "OK"))); auto with calls.
      apply (@issues_bind _ _ kind 0 0); auto with calls. }
    destruct (negb (isWellFormed (build_query query city)));
      [split; [apply issues_more with (n := 0); auto with calls
              | auto with calls]|].
    split.
    + apply (@issues_bind _ _ is_places_call 1 0); [|intros _; apply T].
      apply (issues_issue is_places_call (PlacesCall (build_query query city))).
    + apply (@issues_bind _ _ is_vision_call 0 0); [|intros _; apply T].
      apply (issues_issue is_vision_call (PlacesCall (build_query query city))).
Qed.

Lemma search_candidates_calls env country city candidates :
  forall acc,
    issues_at_most is_places_call (length candidates)
                   (search_candidates env candidates country city acc) /\
    issues_at_most is_vision_call 0
                   (search_candidates env candidates country city acc).
Proof.
  induction candidates as [|c cs IH]; intros acc; simpl.
  - split; auto with calls.
  - assert (Step : forall kind n,
              issues_at_most kind n (searchPlaces env c country city) ->
              issues_at_most kind n
                (try_catch
                   (places <- searchPlaces env c country city ;;
                    ret (acc ++ places))
                   (fun error =>
                      log (console_error
                             (lit "Place search failed for candidate "
                                ++ [34%N] ++ c ++ [34%N; 58%N]) error) ;;;
                      ret acc))).
    { intros kind n H.
      replace n with ((n + 0) + (0 + 0)) by lia.
      apply issues_try_catch.
      - apply issues_bind; auto with calls.
      - intros e. apply issues_bind; auto with calls. }
    split.
    + change (S (length cs)) with (1 + length cs).
      apply issues_bind; [|intros a; apply IH].
      apply Step, searchPlaces_calls.
    + change 0 with (0 + 0).
      apply issues_bind; [|intros a; apply IH].
      apply Step, searchPlaces_calls.
Qed.

Lemma not_of_kind kind c :
  (forall c, kind c = true -> is_vision_call c = true \/ is_places_call c = true) ->
  is_vision_call c = false -> is_places_call c = false -> kind c = false.
Proof.
  intros K V P. destruct (kind c) eqn:E; auto.
  destruct (K c E); congruence.
Qed.

Lemma ask_user_issues kind env id txt top :
  (forall c, kind c = true -> is_vision_call c = true \/ is_places_call c = true) ->
  issues_at_most kind 0 (ask_user env id txt top).
Proof.
  intros K w. rewrite ask_user_run. unfold count_calls. cbn [snd calls].
  rewrite filter_app, length_app. cbn [filter].
  rewrite (@not_of_kind kind (UpdateMedia id (review_update txt)) K eq_refl eq_refl).
  simpl. lia.
Qed.

Lemma auto_confirm_issues kind env r txt candidates best :
  (forall c, kind c = true -> is_vision_call c = true \/ is_places_call c = true) ->
  issues_at_most kind 0 (auto_confirm env r txt candidates best).
Proof.
  intros K w. destruct (insert_restaurant_reply env) as [id|message] eqn:R.
  - destruct (auto_confirm_accepted env r txt candidates best w R)
      as [_ [_ [Cs _]]].
    unfold count_calls. rewrite Cs, filter_app, length_app. cbn [filter].
    rewrite (@not_of_kind kind (SelectUserId _) K eq_refl eq_refl).
    rewrite (@not_of_kind kind (InsertRestaurant _) K eq_refl eq_refl).
    rewrite (@not_of_kind kind (UpdateMedia _ _) K eq_refl eq_refl).
    rewrite (@not_of_kind kind (InsertPlaceCache _) K eq_refl eq_refl).
    simpl. lia.
  - rewrite (auto_confirm_refused env r txt candidates best w R).
    unfold count_calls. cbn [snd calls].
    rewrite !filter_app, !length_app. cbn [filter].
    rewrite (@not_of_kind kind (SelectUserId _) K eq_refl eq_refl).
    rewrite (@not_of_kind kind (InsertRestaurant _) K eq_refl eq_refl).
    simpl. lia.
Qed.

(** *** The request budget *)

Lemma score_and_decide_issues kind env r txt candidates allPlaces :
  (forall c, kind c = true -> is_vision_call c = true \/ is_places_call c = true) ->
  issues_at_most kind 0 (score_and_decide env r txt candidates allPlaces).
Proof.
  intros K. unfold score_and_decide.
  destruct (firstn 3 (scorePlaceCandidates candidates allPlaces)) as [|b top].
  - now apply ask_user_issues.
  - destruct (Qle_bool (3 # 4) (score b)).
    + now apply auto_confirm_issues.
    + now apply ask_user_issues.
Qed.

Lemma after_validation_issues env r :
  let rest := fun ocrResults =>
    let allText := aggregate ocrResults in
    let normalizedText := normalize allText in
    let candidates := extractPOICandidates allText in
    match candidates with
    | [] => ask_user env (media_id r) normalizedText []
    | _ :: _ =>
        allPlaces <- search_candidates env (firstn 3 candidates)
                                       (country r) (city r) [] ;;
        match allPlaces with
        | [] => ask_user env (media_id r) normalizedText []
        | _ :: _ => score_and_decide env r normalizedText candidates allPlaces
        end
    end in
  forall ocrResults,
    issues_at_most is_places_call 3 (rest ocrResults) /\
    issues_at_most is_vision_call 0 (rest ocrResults).
Proof.
  cbv zeta. intros ocrResults. cbv beta zeta.
  assert (KP : forall c, is_places_call c = true ->
                         is_vision_call c = true \/ is_places_call c = true)
    by auto.
  assert (KV : forall c, is_vision_call c = true ->
                         is_vision_call c = true \/ is_places_call c = true)
    by auto.
  destruct (extractPOICandidates (aggregate ocrResults)) as [|c0 cs] eqn:E.
  - split; [apply issues_more with (n := 0); [lia|]|]; now apply ask_user_issues.
  - destruct (search_candidates_calls env (country r) (city r)
                (firstn 3 (c0 :: cs)) []) as [SP SV].
    split.
    + change 3 with (3 + 0). apply issues_bind.
      * apply issues_more with (n := length (firstn 3 (c0 :: cs))); auto.
        rewrite length_firstn. lia.
      * intros [|p ps]; [now apply ask_user_issues|].
        now apply score_and_decide_issues.
    + change 0 with (0 + 0) at 1. apply issues_bind; auto.
      intros [|p ps]; [now apply ask_user_issues|].
      now apply score_and_decide_issues.
Qed.

Lemma parse_returns body r :
  ProcessMediaSchema_parse body = Returned r ->
  body = Fields r /\ isUUID (media_id r) = true /\
  forallb isURL (frame_urls r) = true.
Proof.
  unfold ProcessMediaSchema_parse. destruct body as [| |r']; try discriminate.
  destruct (isUUID (media_id r')) eqn:U;
    destruct (forallb isURL (frame_urls r')) eqn:F; simpl; try discriminate.
  intros E. inversion E; subst. auto.
Qed.

(** X14.  One request costs at most three place searches and at most one
    text-recognition request per frame URL, whatever the providers and the
    data store answer. *)
Theorem serve_request_budget (env : Env) (req : Request) (w : World) :
  let w' := snd (serve env req w) in
  count_calls is_places_call w' <= count_calls is_places_call w + 3 /\
  count_calls is_vision_call w'
    <= count_calls is_vision_call w
       + match json req with
         | Fields r => length (frame_urls r)
         | _ => 0
         end.
Proof.
  cbv zeta.
  assert (P : forall kind n,
            count_calls kind (snd (process env req w)) <= count_calls kind w + n ->
            count_calls kind (snd (serve env req w)) <= count_calls kind w + n).
  { intros kind n H. unfold serve.
    destruct (negb (str_eqb (method req) (lit "POST"))); [simpl; lia|].
    destruct (process env req w) as [[resp|e] w1]; exact H. }
  split; apply P; unfold process, bind at 1, lift;
    destruct (ProcessMediaSchema_parse (json req)) as [r|e] eqn:E;
    try (cbn [fst snd]; lia).
  - cbv beta iota.
    pose proof (ocr_frames_calls env (useTesseract env) (frame_urls r) []) as [_ O].
    exact (@issues_bind _ _ is_places_call 0 3 _ _ O
             (fun a => proj1 (after_validation_issues env r a)) w).
  - cbv beta iota. apply parse_returns in E. destruct E as [-> _].
    pose proof (ocr_frames_calls env (useTesseract env) (frame_urls r) []) as [O _].
    pose proof (@issues_bind _ _ is_vision_call (length (frame_urls r)) 0 _ _ O
                  (fun a => proj2 (after_validation_issues env r a)) w) as H.
    rewrite Nat.add_0_r in H. exact H.
Qed.

(** *** One result per frame *)

Lemma frame_step (step : M OCRResult) (acc : list OCRResult) (url : str) w :
  fst (try_catch
         (result <- step ;; ret (acc ++ [result]))
         (fun error =>
            log (console_error (lit "OCR failed for frame " ++ url ++ lit ":")
                               error) ;;;
            ret (acc ++ [no_text])) w)
  = Returned (acc ++ [match fst (step w) with
                      | Returned result => result
                      | Thrown _ => no_text
                      end]).
Proof.
  unfold try_catch, bind, ret, log.
  destruct (step w) as [[x|e] w1]; reflexivity.
Qed.

Lemma recognition_ignores_world (env : Env) (t : bool) (url : str)
      (w w0 : World) :
  fst ((if t then performOCRWithTesseract url
        else performOCRWithVision env url) w0)
  = fst ((if t then performOCRWithTesseract url
          else performOCRWithVision env url) w).
Proof.
  destruct t; [reflexivity|].
  unfold performOCRWithVision.
  destruct (unset (GOOGLE_VISION_API_KEY env)); [reflexivity|].
  unfold bind, issue. cbn.
  destruct (vision_fetch env url) as [e|ok st [[|[d c] l]|]];
    try destruct ok; reflexivity.
Qed.

Lemma ocr_frames_results (env : Env) (t : bool) (urls : list str) :
  forall acc w,
    exists results,
      fst (ocr_frames env t urls acc w) = Returned (acc ++ results) /\
      Forall2 (frame_result env t) urls results.
Proof.
  induction urls as [|url urls IH]; intros acc w.
  - exists []. simpl. rewrite app_nil_r. split; constructor.
  - cbn [ocr_frames]. unfold bind at 1.
    match goal with
    | |- context [let (_, _) := ?X in _] =>
        assert (Fs : fst X = Returned
                       (acc ++ [match fst ((if t then performOCRWithTesseract url
                                            else performOCRWithVision env url) w) with
                                | Returned result => result
                                | Thrown _ => no_text
                                end]))
          by apply frame_step;
        destruct X as [o w1]
    end.
    cbn [fst] in Fs. subst o.
    match goal with
    | |- context [ocr_frames env t urls ?a w1] =>
        destruct (IH a w1) as [results [E F]]
    end.
    rewrite <- app_assoc in E. eexists. split; [exact E|].
    constructor; auto.
    intros w0. rewrite (recognition_ignores_world env t url w w0).
    destruct (fst ((if t then performOCRWithTesseract url
                    else performOCRWithVision env url) w)); reflexivity.
Qed.

(** X15.  The loop over the frames never throws and yields exactly one
    result per frame URL, in the order of the URLs: what text recognition
    returned for the frame, or the empty text when it threw.  It leaves
    the data store alone. *)
Theorem ocr_frames_one_result_per_frame
  (env : Env) (useTesseract : bool) (frame_urls : list str) (w : World) :
  exists results,
    fst (ocr_frames env useTesseract frame_urls [] w) = Returned results /\
    length results = length frame_urls /\
    Forall2 (frame_result env useTesseract) frame_urls results /\
    store (snd (ocr_frames env useTesseract frame_urls [] w)) = store w.
Proof.
  destruct (ocr_frames_results env useTesseract frame_urls [] w)
    as [results [E F]].
  exists results. split; [exact E|]. split; [|split; [exact F|]].
  - symmetry. exact (Forall2_length F).
  - apply ocr_frames_keeps_store.
Qed.

(** *** Every way through the handler *)

Lemma firstn_in {A : Type} n (l : list A) x : In x (firstn n l) -> In x l.
Proof.
  intros H. rewrite <- (firstn_skipn n l). apply in_or_app. now left.
Qed.

Lemma firstn_sorted {A : Type} (R : A -> A -> Prop) (l : list A) :
  StronglySorted R l -> forall n, StronglySorted R (firstn n l).
Proof.
  induction 1 as [|x l S IH F]; intros [|n]; simpl; try constructor; auto.
  apply Forall_forall. intros y Hy. apply firstn_in in Hy.
  rewrite Forall_forall in F. auto.
Qed.

(** The places the handler looks at after scoring. *)
Lemma top_places candidates places :
  let top := firstn 3 (scorePlaceCandidates candidates places) in
  length top <= 3 /\ StronglySorted score_ge top /\
  Forall (fun p => (0 <= score p <= top_score)%Q) top.
Proof.
  cbv zeta.
  destruct (sort_scored candidates places) as [S [P _]].
  split; [rewrite length_firstn; lia|]. split; [now apply firstn_sorted|].
  apply Forall_forall. intros x Hx. apply firstn_in in Hx.
  apply (Permutation_in _ P) in Hx. apply in_map_iff in Hx.
  destruct Hx as [p [<- _]]. apply scorePlace_range.
Qed.

(** The [try] block ends in one of three ways: validation throws before
    anything is done; the user is asked, with at most three places that
    all score below the threshold; or the best place is confirmed. *)
Lemma process_cases env req w :
  (exists e, ProcessMediaSchema_parse (json req) = Thrown e /\
             process env req w = (Thrown e, w)) \/
  (exists r w1 allText top,
      ProcessMediaSchema_parse (json req) = Returned r /\
      store w1 = store w /\
      length top <= 3 /\ StronglySorted score_ge top /\
      Forall (fun p => (0 <= score p)%Q /\ (score p < 3 # 4)%Q) top /\
      process env req w
      = ask_user env (media_id r) (normalize allText) top w1) \/
  (exists r w1 allText candidates best,
      ProcessMediaSchema_parse (json req) = Returned r /\
      store w1 = store w /\
      (3 # 4 <= score best)%Q /\ (score best <= top_score)%Q /\
      process env req w
      = auto_confirm env r (normalize allText) candidates best w1).
Proof.
  remember (process env req w) as out eqn:E.
  unfold process, bind at 1, lift in E.
  destruct (ProcessMediaSchema_parse (json req)) as [r|e] eqn:P;
    [|left; exists e; auto].
  right. cbv beta iota in E. unfold bind at 1 in E.
  pose proof (ocr_frames_keeps_store env (useTesseract env) (frame_urls r) [] w)
    as K1.
  destruct (ocr_frames_never_throws env (useTesseract env) (frame_urls r) [] w)
    as [ocr O].
  destruct (ocr_frames env (useTesseract env) (frame_urls r) [] w)
    as [[ocr'|e] w1]; simpl in O, K1; [|discriminate].
  clear O ocr. cbv zeta in E.
  destruct (extractPOICandidates (aggregate ocr')) as [|c cs] eqn:C.
  { left. exists r, w1, (aggregate ocr'), (@nil ScoredPlace).
    repeat split; auto; constructor. }
  unfold bind at 1 in E.
  pose proof (search_candidates_keeps_store env (country r) (city r)
                (firstn 3 (c :: cs)) [] w1) as K2.
  destruct (search_candidates_never_throws env (country r) (city r)
              (firstn 3 (c :: cs)) [] w1) as [ps S].
  destruct (search_candidates env (firstn 3 (c :: cs)) (country r) (city r)
              [] w1) as [[places|e] w2]; simpl in S, K2; [|discriminate].
  clear S ps.
  assert (K : store w2 = store w) by congruence.
  destruct places as [|p ps].
  { left. exists r, w2, (aggregate ocr'), (@nil ScoredPlace).
    repeat split; auto; constructor. }
  unfold score_and_decide in E. cbv zeta in E.
  destruct (top_places (c :: cs) (p :: ps)) as [L [So R]].
  destruct (firstn 3 (scorePlaceCandidates (c :: cs) (p :: ps)))
    as [|b top].
  { left. exists r, w2, (aggregate ocr'), (@nil ScoredPlace).
    repeat split; auto; constructor. }
  destruct (Qle_bool (3 # 4) (score b)) eqn:Q.
  - right. exists r, w2, (aggregate ocr'), (c :: cs), b.
    apply Qle_bool_iff in Q. inversion R as [|? ? [_ Rb] _]; subst.
    repeat split; auto.
  - left. exists r, w2, (aggregate ocr'), (b :: top).
    assert (Lt : (score b < 3 # 4)%Q).
    { apply Qnot_le_lt. intros H. apply Qle_bool_iff in H. congruence. }
    repeat split; auto.
    apply Forall_forall. intros x Hx. rewrite Forall_forall in R.
    split; [apply (R x Hx)|].
    destruct Hx as [<-|Hx]; [exact Lt|].
    inversion So as [|? ? _ F]; subst. rewrite Forall_forall in F.
    specialize (F x Hx). unfold score_ge in F.
    eapply Qle_lt_trans; eauto.
Qed.

(** The four kinds of response, and what each one tells about the run. *)
Lemma serve_cases env req w :
  let response := fst (serve env req w) in
  let w' := snd (serve env req w) in
  (str_eqb (method req) (lit "POST") = false /\
   response = {| status := 405; body := plain (lit "Method not allowed") |} /\
   w' = w) \/
  (str_eqb (method req) (lit "POST") = true /\
   exists e, response = {| status := 500; body := error_body e |} /\
             store w' = store w /\
             (ProcessMediaSchema_parse (json req) = Thrown e \/
              exists r message,
                ProcessMediaSchema_parse (json req) = Returned r /\
                insert_restaurant_reply env = DbError message /\
                e = lit "Failed to create restaurant: " ++ message)) \/
  (str_eqb (method req) (lit "POST") = true /\
   exists r allText top,
     ProcessMediaSchema_parse (json req) = Returned r /\
     response = ok_json (needs_confirmation_with (map to_candidate top)
                                                 (normalize allText)) /\
     length top <= 3 /\ StronglySorted score_ge top /\
     Forall (fun p => (0 <= score p)%Q /\ (score p < 3 # 4)%Q) top /\
     store w'
     = match update_media_error env with
       | Some _ => store w
       | None => {| media := update_rows (media_id r)
                                         (review_update (normalize allText))
                                         (media (store w));
                    restaurants := restaurants (store w);
                    place_cache := place_cache (store w) |}
       end) \/
  (str_eqb (method req) (lit "POST") = true /\
   exists r allText best id,
     ProcessMediaSchema_parse (json req) = Returned r /\
     insert_restaurant_reply env = DbData id /\
     response = ok_json (confirmed id (score best)) /\
     (3 # 4 <= score best)%Q /\ (score best <= top_score)%Q /\
     restaurants (store w')
     = restaurants (store w)
         ++ [{| r_id := id;
                r_fields := restaurant_of best
                              (lookup_user_id env (media_id r) (store w)) |}] /\
     media (store w')
     = match update_media_error env with
       | Some _ => media (store w)
       | None => update_rows (media_id r) (link_update id (normalize allText))
                             (media (store w))
       end /\
     length (place_cache (store w'))
     = length (place_cache (store w))
       + match insert_cache_error env with Some _ => 0 | None => 1 end).
Proof.
  cbv zeta. unfold serve.
  destruct (str_eqb (method req) (lit "POST")) eqn:Mth; simpl negb; cbv iota;
    [|left; auto].
  right.
  destruct (process_cases env req w)
    as [[e [P E]] | [[r [w1 [allText [top [P [K [L [So [F E]]]]]]]]]
                    | [r [w1 [allText [cs [best [P [K [Lo [Hi E]]]]]]]]]]];
    rewrite E.
  - left. split; auto. exists e. simpl. auto.
  - right; left. split; auto. exists r, allText, top.
    rewrite ask_user_run. cbn [fst snd store]. rewrite K.
    repeat split; auto.
  - destruct (insert_restaurant_reply env) as [id|message] eqn:I.
    + right; right. split; auto. exists r, allText, best, id.
      destruct (auto_confirm_accepted env r (normalize allText) cs best w1 I)
        as [R [Rs [_ [Me Pc]]]].
      destruct (auto_confirm env r (normalize allText) cs best w1)
        as [[resp|e] w2]; simpl in R; [|discriminate].
      inversion R; subst resp. cbn [fst snd] in *.
      rewrite Rs, Me, Pc, K.
      repeat split; auto.
      destruct (insert_cache_error env); [lia|].
      rewrite length_app. simpl. lia.
    + left. split; auto.
      rewrite (auto_confirm_refused env r (normalize allText) cs best w1 I).
      eexists. cbn [fst snd store]. split; [reflexivity|]. split; [exact K|].
      right. exists r, message. auto.
Qed.
(** *** What a response tells *)

(** X16.  The handler answers with one of three status codes, and the code
    goes with the kind of body: 405 with the plain text, exactly when the
    method is not POST; 500 with an error message; 200 with one of the two
    results. *)
Theorem serve_status_codes (env : Env) (req : Request) (w : World) :
  let response := fst (serve env req w) in
  (status response = 405 <-> method req <> lit "POST") /\
  match body response with
  | plain text => status response = 405 /\ text = lit "Method not allowed"
  | error_body _ => status response = 500
  | confirmed _ _ | needs_confirmation_with _ _ => status response = 200
  end.
Proof.
  cbv zeta.
  destruct (serve_cases env req w)
    as [[Mth [R _]] | [[Mth [e [R _]]]
       | [[Mth [r [allText [top [_ [R _]]]]]]
         | [Mth [r [allText [best [id [_ [_ [R _]]]]]]]]]]];
    rewrite R; simpl; rewrite <- str_eqb_neq, Mth;
    repeat split; auto; try discriminate.
Qed.

(** X17.  A response other than 200 means that the data store is as it was
    before the request: a rejected request or a refused insert leaves no
    partial write behind. *)
Theorem serve_failure_leaves_store (env : Env) (req : Request) (w : World) :
  status (fst (serve env req w)) <> 200 ->
  store (snd (serve env req w)) = store w.
Proof.
  destruct (serve_cases env req w)
    as [[_ [_ R]] | [[_ [e [_ [R _]]]]
       | [[_ [r [allText [top [_ [R _]]]]]]
         | [_ [r [allText [best [id [_ [_ [R _]]]]]]]]]]];
    try (rewrite R; simpl; congruence); try congruence.
Qed.

Lemma sorted_map_to_candidate top :
  StronglySorted score_ge top ->
  StronglySorted (fun a b => (cand_score b <= cand_score a)%Q)
                 (map to_candidate top).
Proof.
  induction 1 as [|p top S IH F]; simpl; constructor; auto.
  apply Forall_forall. intros c Hc. apply in_map_iff in Hc.
  destruct Hc as [q [<- Hq]]. rewrite Forall_forall in F.
  exact (F q Hq).
Qed.

(** X18.  A response that asks the user carries at most three places, each
    with a score from 0 up to but not including 0.75, best first, and a
    text that is in normalized form.  Such a run adds nothing to
    [restaurants] or to the cache. *)
Theorem needs_confirmation_response
  (env : Env) (req : Request) (w : World)
  (candidates : list Candidate) (ocr_text : str) :
  body (fst (serve env req w)) = needs_confirmation_with candidates ocr_text ->
  let w' := snd (serve env req w) in
  length candidates <= 3 /\
  Forall (fun c => (0 <= cand_score c)%Q /\ (cand_score c < 3 # 4)%Q)
         candidates /\
  StronglySorted (fun a b => (cand_score b <= cand_score a)%Q) candidates /\
  normalize ocr_text = ocr_text /\
  restaurants (store w') = restaurants (store w) /\
  place_cache (store w') = place_cache (store w).
Proof.
  cbv zeta.
  destruct (serve_cases env req w)
    as [[_ [R _]] | [[_ [e [R _]]]
       | [[_ [r [allText [top [_ [R [L [So [F St]]]]]]]]]
         | [_ [r [allText [best [id [_ [_ [R _]]]]]]]]]]];
    rewrite R; simpl; try discriminate.
  intros E. inversion E; subst candidates ocr_text. clear E.
  rewrite St.
  split; [now rewrite length_map|].
  split.
  { apply Forall_forall. intros c Hc. apply in_map_iff in Hc.
    destruct Hc as [p [<- Hp]]. rewrite Forall_forall in F.
    exact (F p Hp). }
  split; [now apply sorted_map_to_candidate|].
  split; [apply normalize_fixed|].
  destruct (update_media_error env); auto.
Qed.

(** X19.  A response that confirms carries the id the data store gave to
    the new row and a score from 0.75 to the double that the sum
    (1 + 0.1) + 0.1 gives, each addition rounded as the machine rounds it
    (1.2000000000000002).  Exactly one row was added to [restaurants],
    with that id, the provider [google] and the tag [ai-analyzed]; the
    cache grew by at most one entry. *)
Theorem confirmed_response
  (env : Env) (req : Request) (w : World) (id : str) (s : Q) :
  body (fst (serve env req w)) = confirmed id s ->
  let w' := snd (serve env req w) in
  (3 # 4 <= s)%Q /\
  (s <= double (double (1 + double (1 # 10)) + double (1 # 10)))%Q /\
  insert_restaurant_reply env = DbData id /\
  (exists fields,
      restaurants (store w')
      = restaurants (store w) ++ [{| r_id := id; r_fields := fields |}] /\
      ri_place_provider fields = lit "google" /\
      ri_tags fields = [lit "ai-analyzed"]) /\
  length (place_cache (store w)) <= length (place_cache (store w'))
    <= length (place_cache (store w)) + 1.
Proof.
  cbv zeta.
  destruct (serve_cases env req w)
    as [[_ [R _]] | [[_ [e [R _]]]
       | [[_ [r [allText [top [_ [R _]]]]]]
         | [_ [r [allText [best [id' [_ [I [R [Lo [Hi [Rs [_ Pc]]]]]]]]]]]]]]];
    rewrite R; simpl; try discriminate.
  intros E. inversion E; subst id' s. clear E.
  repeat split; auto.
  - eexists. split; [exact Rs|]. split; reflexivity.
  - rewrite Pc. lia.
  - rewrite Pc. destruct (insert_cache_error env); lia.
Qed.

(** *** The rows of [media] *)

Lemma update_rows_identity id u rows :
  map m_id (update_rows id u rows) = map m_id rows /\
  map m_user_id (update_rows id u rows) = map m_user_id rows /\
  Forall2 (fun old new => new = old \/
                          m_id old = id /\ new = apply_update u old)
          rows (update_rows id u rows).
Proof.
  unfold update_rows.
  induction rows as [|row rows [A [B C]]]; simpl; [repeat split; constructor|].
  rewrite A, B.
  destruct (str_eqb (m_id row) id) eqn:E.
  - apply str_eqb_eq in E. repeat split; auto.
  - repeat split; auto.
Qed.

Lemma serve_media env req w :
  let w' := snd (serve env req w) in
  media (store w') = media (store w) \/
  exists r u,
    json req = Fields r /\
    (u_status u = needs_confirmation \/ u_status u = done) /\
    media (store w') = update_rows (media_id r) u (media (store w)).
Proof.
  cbv zeta.
  destruct (serve_cases env req w)
    as [[_ [_ R]] | [[_ [e [_ [R _]]]]
       | [[_ [r [allText [top [P [_ [_ [_ [_ R]]]]]]]]]
         | [_ [r [allText [best [id [P [_ [_ [_ [_ [_ [R _]]]]]]]]]]]]]]].
  - left. now rewrite R.
  - left. now rewrite R.
  - rewrite R. destruct (update_media_error env); [now left|].
    right. apply parse_returns in P. destruct P as [P _].
    exists r, (review_update (normalize allText)). simpl. auto.
  - rewrite R. destruct (update_media_error env); [now left|].
    right. apply parse_returns in P. destruct P as [P _].
    exists r, (link_update id (normalize allText)). simpl. auto.
Qed.

(** X20.  Whatever the request, the table [media] keeps its rows, their
    ids and their owners; the only rows that can change are those whose id
    is the request's [media_id], and they end in status
    [needs_confirmation] or [done]. *)
Theorem media_rows_keep_identity (env : Env) (req : Request) (w : World) :
  let before := media (store w) in
  let after := media (store (snd (serve env req w))) in
  map m_id after = map m_id before /\
  map m_user_id after = map m_user_id before /\
  Forall2 (fun old new =>
             new = old \/
             exists r, json req = Fields r /\ m_id old = media_id r /\
                       (m_status new = needs_confirmation \/
                        m_status new = done))
          before after.
Proof.
  cbv zeta.
  destruct (serve_media env req w) as [E | [r [u [J [U E]]]]]; rewrite E.
  - repeat split; auto. clear E.
    induction (media (store w)); constructor; auto.
  - destruct (update_rows_identity (media_id r) u (media (store w)))
      as [A [B C]].
    repeat split; auto.
    eapply Forall2_impl; [|exact C].
    intros old new [H | [H ->]]; [now left|].
    right. exists r. simpl. auto.
Qed.
(** *** Running without a provider *)

Lemma process_without_maps_key env req w r :
  unset (GOOGLE_MAPS_API_KEY env) = true ->
  ProcessMediaSchema_parse (json req) = Returned r ->
  exists allText w2,
    process env req w
    = ask_user env (media_id r) (normalize allText) [] w2 /\
    store w2 = store w /\ searches w2 = searches w.
Proof.
  intros U P.
  remember (process env req w) as out eqn:E.
  unfold process, bind at 1, lift in E. rewrite P in E.
  cbv beta iota in E. unfold bind at 1 in E.
  pose proof (ocr_frames_keeps_store env (useTesseract env) (frame_urls r) [] w)
    as K1.
  pose proof (ocr_frames_keeps_searches env (useTesseract env) (frame_urls r)
                [] w) as S1.
  destruct (ocr_frames_never_throws env (useTesseract env) (frame_urls r) [] w)
    as [ocr O].
  destruct (ocr_frames env (useTesseract env) (frame_urls r) [] w)
    as [[ocr'|e] w1]; simpl in O, K1, S1; [|discriminate].
  cbv zeta in E.
  destruct (extractPOICandidates (aggregate ocr')) as [|c cs].
  { exists (aggregate ocr'), w1. auto. }
  unfold bind at 1 in E.
  destruct (search_candidates_without_key env (country r) (city r) U
              (firstn 3 (c :: cs)) [] w1) as [F [Cl St]].
  destruct (search_candidates env (firstn 3 (c :: cs)) (country r) (city r)
              [] w1) as [[places|e] w2]; simpl in F, Cl, St; [|discriminate].
  inversion F; subst places.
  exists (aggregate ocr'), w2. split; [exact E|].
  split; [congruence|]. unfold searches in *. now rewrite Cl.
Qed.

(** X21.  Without a key for the place provider no place search is issued
    and nothing is confirmed: every valid request ends with a response
    that asks the user and offers no place. *)
Theorem serve_without_maps_key
  (env : Env) (req : Request) (w : World) (r : ProcessMediaRequest) :
  unset (GOOGLE_MAPS_API_KEY env) = true ->
  str_eqb (method req) (lit "POST") = true ->
  ProcessMediaSchema_parse (json req) = Returned r ->
  let w' := snd (serve env req w) in
  (exists ocr_text,
      fst (serve env req w) = ok_json (needs_confirmation_with [] ocr_text)) /\
  searches w' = searches w /\
  restaurants (store w') = restaurants (store w) /\
  place_cache (store w') = place_cache (store w).
Proof.
  intros U Mth P. cbv zeta. rewrite (serve_post env req w Mth).
  destruct (process_without_maps_key env req w U P)
    as [allText [w2 [E [K S]]]].
  rewrite E, ask_user_run. cbn [fst snd].
  split; [eexists; reflexivity|].
  unfold searches in *. cbn [calls store].
  rewrite searches_after_update, S, K.
  destruct (update_media_error env); auto.
Qed.

(** *** Running without text recognition *)

Lemma ocr_frames_blind env t :
  t = true \/ unset (GOOGLE_VISION_API_KEY env) = true ->
  forall urls acc w,
    let run := ocr_frames env t urls acc w in
    fst run = Returned (acc ++ repeat no_text (length urls)) /\
    calls (snd run) = calls w /\ store (snd run) = store w.
Proof.
  intros H. cbv zeta.
  induction urls as [|url urls IH]; intros acc w.
  - simpl. rewrite app_nil_r. auto.
  - cbn [ocr_frames length repeat].
    replace (acc ++ no_text :: repeat no_text (length urls))
      with ((acc ++ [no_text]) ++ repeat no_text (length urls))
      by now rewrite <- app_assoc.
    unfold bind at 1, try_catch, bind at 1.
    destruct t.
    + unfold performOCRWithTesseract, bind, log, ret. cbv beta iota.
      match goal with
      | |- context [ocr_frames env true urls (acc ++ [no_text]) ?w0] =>
          destruct (IH (acc ++ [no_text]) w0) as [A [B C]]
      end.
      rewrite A, B, C. auto.
    + destruct H as [H|H]; [discriminate|].
      unfold performOCRWithVision. rewrite H.
      unfold throw, bind, log, ret. cbv beta iota.
      match goal with
      | |- context [ocr_frames env false urls (acc ++ [no_text]) ?w0] =>
          destruct (IH (acc ++ [no_text]) w0) as [A [B C]]
      end.
      rewrite A, B, C. auto.
Qed.

Lemma join_no_text n : blank (join (lit " ") (map text (repeat no_text n))).
Proof.
  unused. unfold blank.
  induction n as [|n IH]; [constructor|].
  destruct n as [|n]; [constructor|].
  change (Forall (fun c => is_space c = true)
                 ([] ++ lit " " ++ join (lit " ")
                                       (map text (repeat no_text (S n))))).
  simpl app. constructor; [reflexivity | exact IH].
Qed.

Lemma drop_while_all f s :
  Forall (fun c => f c = true) s -> drop_while f s = [].
Proof.
  induction 1 as [|c s H _ IH]; simpl; [reflexivity|]. now rewrite H.
Qed.

Lemma trim_blank s : blank s -> trim s = [].
Proof.
  intros H. unfold trim, trimStart, trimEnd.
  now rewrite (drop_while_all is_space H).
Qed.

Lemma split_pieces sep s piece :
  In piece (split sep s) -> forall c, In c piece -> In c s.
Proof.
  revert piece. induction s as [|x s IH]; simpl; intros piece.
  - intros [<-|[]] c [].
  - destruct (x =? sep)%N.
    + intros [<-|H] c Hc; [destruct Hc | right; eauto].
    + destruct (split sep s) as [|p ps].
      * intros [<-|[]] c [<-|[]]. now left.
      * intros [<-|H] c Hc.
        -- destruct Hc as [<-|Hc]; [now left | right].
           apply (IH p); simpl; auto.
        -- right. apply (IH piece); simpl; auto.
Qed.

Lemma lines_of_blank s : blank s -> lines_of s = [].
Proof.
  intros H. unfold lines_of.
  assert (T : forall piece, In piece (split 10%N s) -> trim piece = []).
  { intros piece Hp. apply trim_blank. apply Forall_forall. intros c Hc.
    unfold blank in H. rewrite Forall_forall in H.
    apply H. exact (split_pieces _ _ _ Hp c Hc). }
  induction (split 10%N s) as [|p ps IH]; [reflexivity|].
  simpl. rewrite (T p) by (simpl; auto). simpl.
  apply IH. intros piece Hp. apply T. simpl; auto.
Qed.

Lemma extractPOICandidates_blank s : blank s -> extractPOICandidates s = [].
Proof.
  intros H. unfold extractPOICandidates. now rewrite (lines_of_blank H).
Qed.

Lemma collapse_blank s :
  blank s ->
  collapse_spaces true s = [] /\
  (collapse_spaces false s = [] \/ collapse_spaces false s = [32%N]).
Proof.
  unused.
  induction 1 as [|c s H _ [A B]]; simpl; [auto|].
  rewrite H, A. auto.
Qed.

Lemma normalize_blank s : blank s -> normalize s = [].
Proof.
  unused.
  intros H. unfold normalize.
  assert (E : blank_non_word s = s).
  { unfold blank_non_word. apply map_all. intros c Hc.
    unfold blank in H. rewrite Forall_forall in H. rewrite (H c Hc).
    now rewrite orb_true_r. }
  rewrite E. destruct (collapse_blank H) as [_ [-> | ->]]; reflexivity.
Qed.

(** X22.  With the Tesseract flag set, or without a key for the vision
    provider, no frame yields any text.  If lower-casing keeps white space
    white, every valid request then ends the same way: the user is asked,
    no place is offered, the text is empty, and the only outbound request
    is the status update. *)
Theorem serve_without_recognition
  (env : Env) (req : Request) (w : World) (r : ProcessMediaRequest) :
  useTesseract env = true \/ unset (GOOGLE_VISION_API_KEY env) = true ->
  (forall s, blank s -> blank (toLowerCase s)) ->
  str_eqb (method req) (lit "POST") = true ->
  ProcessMediaSchema_parse (json req) = Returned r ->
  fst (serve env req w) = ok_json (needs_confirmation_with [] []) /\
  calls (snd (serve env req w))
  = calls w ++ [UpdateMedia (media_id r) (review_update [])].
Proof.
  intros H Low Mth P. rewrite (serve_post env req w Mth).
  destruct (@ocr_frames_blind env (useTesseract env)) with
    (urls := frame_urls r) (acc := @nil OCRResult) (w := w) as [A [B C]].
  { destruct H; auto. }
  destruct (ocr_frames env (useTesseract env) (frame_urls r) [] w)
    as [o w1] eqn:O. cbn [fst snd app] in A, B, C. subst o.
  assert (Bl : blank (aggregate (repeat no_text (length (frame_urls r)))))
    by (apply Low, join_no_text).
  rewrite (@process_without_candidates env req w r _ w1 P O
             (extractPOICandidates_blank Bl)).
  rewrite (normalize_blank Bl), ask_user_run. cbn [fst snd calls].
  now rewrite B.
Qed.
(** ** The text-recognition function *)

Lemma unset_false v : unset v = false -> exists s, v = Some s /\ s <> [].
Proof.
  unused.
  destruct v as [[|c s]|]; simpl; try discriminate.
  intros _. exists (c :: s). split; [reflexivity | discriminate].
Qed.

Lemma store_text_run env id ocr_text text w :
  store_text env id ocr_text text w =
  match ocr_update_error env with
  | Some message =>
      (Thrown (lit "Failed to update media record: " ++ message),
       {| store := store w;
          console := console w;
          calls := calls w ++ [UpdateMedia id (text_update ocr_text)] |})
  | None =>
      (Returned {| ocr_status := 200; ocr_body := ocr_done text |},
       {| store := {| media := update_rows id (text_update ocr_text)
                                           (media (store w));
                      restaurants := restaurants (store w);
                      place_cache := place_cache (store w) |};
          console := console w;
          calls := calls w ++ [UpdateMedia id (text_update ocr_text)] |})
  end.
Proof.
  unfold store_text, ocr_update_media, bind, issue, read_store, write_store,
    ret, throw.
  destruct (ocr_update_error env); reflexivity.
Qed.

(** The three ways out of the [try] block of the text-recognition
    function. *)
Lemma process_ocr_cases env req w :
  ((exists media_id image_url,
       ocr_json req = OcrFields media_id image_url /\
       (unset media_id = true \/ unset image_url = true)) /\
   process_ocr env req w
   = (Returned {| ocr_status := 400;
                  ocr_body := ocr_error
                    (lit "Missing required fields: media_id and image_url") |},
      w)) \/
  ((forall media_id image_url,
       ocr_json req = OcrFields media_id image_url ->
       unset media_id = false /\ unset image_url = false) /\
   exists message w1,
     process_ocr env req w = (Thrown message, w1) /\ store w1 = store w) \/
  (exists media_id image_url textAnnotations w1,
     ocr_json req = OcrFields (Some media_id) (Some image_url) /\
     media_id <> [] /\ image_url <> [] /\
     ocr_update_error env = None /\
     textDetection env image_url = Detected textAnnotations /\
     let extracted := extractedText match textAnnotations with
                                    | Some detections => detections
                                    | None => []
                                    end in
     process_ocr env req w
     = (Returned {| ocr_status := 200; ocr_body := ocr_done (tl extracted) |},
        w1) /\
     store w1 = {| media := update_rows media_id (text_update (hd [] extracted))
                                        (media (store w));
                   restaurants := restaurants (store w);
                   place_cache := place_cache (store w) |} /\
     calls w1 = calls w ++ [VisionCall image_url;
                            UpdateMedia media_id
                                        (text_update (hd [] extracted))]).
Proof.
  remember (process_ocr env req w) as out eqn:E.
  unfold process_ocr in E.
  destruct (ocr_json req) as [message| |media_id image_url] eqn:J.
  - right; left. split; [discriminate|]. exists message, w. auto.
  - right; left. split; [discriminate|]. eexists. exists w. split; [exact E | reflexivity].
  - destruct (unset media_id) eqn:Um.
    { left. split; [eauto|]. exact E. }
    destruct (unset image_url) eqn:Ui.
    { left. split; [eauto|]. exact E. }
    right.
    assert (V : forall m i, OcrFields media_id image_url = OcrFields m i ->
                            unset m = false /\ unset i = false).
    { intros m i H. inversion H; subst. auto. }
    cbn [orb] in E.
    destruct (unset (GOOGLE_APPLICATION_CREDENTIALS_JSON env)).
    { left. split; auto. eexists. exists w. split; [exact E | reflexivity]. }
    destruct (credentials_are_json env); cbn [negb] in E.
    2:{ left. split; auto. eexists. exists w. split; [exact E | reflexivity]. }
    destruct (unset (SUPABASE_URL env) || unset (SERVICE_ROLE_KEY env)).
    { left. split; auto. eexists. exists w. split; [exact E | reflexivity]. }
    destruct (unset_false _ Um) as [id [-> Nm]].
    destruct (unset_false _ Ui) as [url [-> Ni]].
    cbn [field_value] in E.
    destruct (textDetection env url) as [message|[[|d ds]|]] eqn:T;
      unfold bind, log, issue, throw in E; cbv beta iota zeta in E;
      try rewrite store_text_run in E;
      cbn [store console calls] in E;
      try (destruct (ocr_update_error env) as [message|] eqn:U);
      try (left; split; [exact V|]; eexists; eexists;
           split; [exact E | reflexivity]).
    + right. exists id, url, (Some []). eexists. cbv zeta.
      repeat split; auto; try exact E; cbn; auto.
      now rewrite <- app_assoc.
    + right. exists id, url, (Some (d :: ds)). eexists. cbv zeta.
      repeat split; auto; try exact E; cbn [store calls]; auto.
      now rewrite <- app_assoc.
    + right. exists id, url, None. eexists. cbv zeta.
      repeat split; auto; try exact E; cbn; auto.
      now rewrite <- app_assoc.
Qed.

(** The four kinds of response of the text-recognition function. *)
Lemma serve_process_ocr_cases env req w :
  let response := fst (serve_process_ocr env req w) in
  let w' := snd (serve_process_ocr env req w) in
  (str_eqb (ocr_method req) (lit "POST") = false /\
   response = {| ocr_status := 405;
                 ocr_body := ocr_plain (lit "Method not allowed") |} /\
   w' = w) \/
  (str_eqb (ocr_method req) (lit "POST") = true /\
   (exists media_id image_url,
       ocr_json req = OcrFields media_id image_url /\
       (unset media_id = true \/ unset image_url = true)) /\
   response = {| ocr_status := 400;
                 ocr_body := ocr_error
                   (lit "Missing required fields: media_id and image_url") |} /\
   w' = w) \/
  (str_eqb (ocr_method req) (lit "POST") = true /\
   (forall media_id image_url,
       ocr_json req = OcrFields media_id image_url ->
       unset media_id = false /\ unset image_url = false) /\
   exists message,
     response = {| ocr_status := 500;
                   ocr_body := ocr_error (message_or_default message) |} /\
     store w' = store w) \/
  (str_eqb (ocr_method req) (lit "POST") = true /\
   exists media_id image_url textAnnotations,
     ocr_json req = OcrFields (Some media_id) (Some image_url) /\
     media_id <> [] /\ image_url <> [] /\
     ocr_update_error env = None /\
     textDetection env image_url = Detected textAnnotations /\
     let extracted := extractedText match textAnnotations with
                                    | Some detections => detections
                                    | None => []
                                    end in
     response = {| ocr_status := 200; ocr_body := ocr_done (tl extracted) |} /\
     store w' = {| media := update_rows media_id (text_update (hd [] extracted))
                                        (media (store w));
                   restaurants := restaurants (store w);
                   place_cache := place_cache (store w) |} /\
     calls w' = calls w ++ [VisionCall image_url;
                            UpdateMedia media_id
                                        (text_update (hd [] extracted))]).
Proof.
  cbv zeta. unfold serve_process_ocr.
  destruct (str_eqb (ocr_method req) (lit "POST")) eqn:Mth; simpl negb;
    cbv iota; [|left; auto].
  right.
  destruct (process_ocr_cases env req w)
    as [[B E] | [[V [message [w1 [E St]]]]
       | [id [url [ds [w1 [J [Nm [Ni [U [T [E [St Cl]]]]]]]]]]]]];
    rewrite E; cbn [fst snd store].
  - left. auto.
  - right; left. split; auto. split; auto. exists message. auto.
  - right; right. split; auto. exists id, url, ds. cbv zeta.
    repeat split; auto.
Qed.

Lemma message_or_default_nonempty message : message_or_default message <> [].
Proof. unused. destruct message; discriminate. Qed.

(** X23.  The text-recognition function answers 405 exactly when the
    method is not POST and 400 exactly when a POST body lacks [media_id]
    or [image_url] (absent or empty); both leave the world untouched, with
    no request sent to the vision provider.  Every other request gets 200
    with the texts or 500 with an error message, and an error message is
    never empty. *)
Theorem serve_process_ocr_status_codes
  (env : OcrEnv) (req : OcrRequest) (w : World) :
  let response := fst (serve_process_ocr env req w) in
  let w' := snd (serve_process_ocr env req w) in
  (ocr_status response = 405 <-> ocr_method req <> lit "POST") /\
  (ocr_status response = 400 <->
   ocr_method req = lit "POST" /\
   exists media_id image_url,
     ocr_json req = OcrFields media_id image_url /\
     (unset media_id = true \/ unset image_url = true)) /\
  (ocr_status response = 405 \/ ocr_status response = 400 -> w' = w) /\
  match ocr_body response with
  | ocr_plain _ => ocr_status response = 405
  | ocr_done _ => ocr_status response = 200
  | ocr_error error =>
      (ocr_status response = 400 \/ ocr_status response = 500) /\ error <> []
  end.
Proof.
  cbv zeta.
  destruct (serve_process_ocr_cases env req w)
    as [[Mth [R W]] | [[Mth [B [R W]]] | [[Mth [V [e [R _]]]]
       | [Mth [id [url [ds [J [Nm [Ni [_ [_ [R _]]]]]]]]]]]]];
    rewrite R; cbn [ocr_status ocr_body];
    rewrite <- str_eqb_neq, <- str_eqb_eq, Mth.
  - repeat split; auto; try discriminate; intros [H _]; discriminate.
  - repeat split; auto; try discriminate.
  - repeat split; auto; try discriminate;
      try apply message_or_default_nonempty.
    + intros [_ [m [i [J [U|U]]]]]; destruct (V m i J); congruence.
    + intros [H|H]; discriminate.
  - repeat split; auto; try discriminate.
    + intros [_ [m [i [J' [U|U]]]]]; rewrite J in J'; inversion J'; subst;
        destruct id, url; simpl in U; congruence.
    + intros [H|H]; discriminate.
Qed.




(** X25.  Any answer other than 200 leaves the data store as it was, and
    a refused update is never answered with [done]: here the reply of the
    update is looked at. *)
Theorem process_ocr_failure_leaves_store
  (env : OcrEnv) (req : OcrRequest) (w : World) :
  let response := fst (serve_process_ocr env req w) in
  (ocr_status response <> 200 ->
   store (snd (serve_process_ocr env req w)) = store w) /\
  (ocr_update_error env <> None -> ocr_status response <> 200).
Proof.
  cbv zeta.
  destruct (serve_process_ocr_cases env req w)
    as [[Mth [R W]] | [[Mth [B [R W]]] | [[Mth [V [e [R St]]]]
       | [Mth [id [url [ds [J [_ [_ [U [T [R _]]]]]]]]]]]]];
    rewrite R; cbn [ocr_status]; split; intros H;
    try congruence; try discriminate.
Qed.
(** ** The client's pollers *)

Lemma filter_steps (kind : ClientStep -> bool) id cb status later :
  kind (Notify status) = false ->
  filter kind (SelectMedia id :: notify cb status ++ later)
  = (if kind (SelectMedia id) then [SelectMedia id] else [])
      ++ filter kind later.
Proof.
  unused. intros N. unfold notify. destruct cb; simpl; rewrite ?N;
    destruct (kind (SelectMedia id)); reflexivity.
Qed.

(** While the replies leave it waiting, the loop of [pollMediaStatus] asks
    once and sleeps once per attempt. *)
Lemma poll_media_waits replies id cb :
  forall k attempt remaining,
    (forall j, j < k -> pending (replies (attempt + j))) ->
    k <= remaining ->
    let now := poll_media replies id cb attempt remaining in
    let later := poll_media replies id cb (attempt + k) (remaining - k) in
    fst now = fst later /\
    length (filter is_select (snd now))
    = k + length (filter is_select (snd later)) /\
    length (filter is_sleep (snd now))
    = k + length (filter is_sleep (snd later)).
Proof.
  cbv zeta. induction k as [|k IH]; intros attempt remaining P L.
  - rewrite Nat.add_0_r, Nat.sub_0_r. auto.
  - destruct remaining as [|remaining]; [lia|].
    cbn [poll_media Nat.sub].
    pose proof (P 0 (Nat.lt_0_succ k)) as P0. rewrite Nat.add_0_r in P0.
    destruct (replies attempt) as [m|st rid txt]; [destruct P0|].
    destruct P0 as [Nd Nn].
    apply str_eqb_neq in Nd, Nn. rewrite Nd, Nn.
    destruct (IH (S attempt) remaining) as [A [B C]]; [|lia|].
    { intros j Hj. replace (S attempt + j) with (attempt + S j) by lia.
      apply P. lia. }
    replace (attempt + S k) with (S attempt + k) by lia.
    destruct (poll_media replies id cb (S attempt) remaining) as [o later].
    cbn [fst snd] in *. split; [exact A|].
    rewrite <- !app_comm_cons, !filter_steps by reflexivity.
    cbn [is_select is_sleep filter app length]. rewrite B, C. auto.
Qed.

(** One attempt that does not leave the poller waiting ends the loop. *)
Lemma poll_media_answers replies id cb attempt remaining :
  ~ pending (replies attempt) ->
  let now := poll_media replies id cb attempt (S remaining) in
  fst now
  = match replies attempt with
    | SelectFails message =>
        Thrown (lit "Failed to check media status: " ++ message)
    | Selected status restaurant_id ocr_text =>
        if str_eqb status (lit "done")
        then Returned (result_confirmed restaurant_id 1 ocr_text)
        else Returned (result_needs_confirmation [] ocr_text)
    end /\
  length (filter is_select (snd now)) = 1 /\
  length (filter is_sleep (snd now)) = 0.
Proof.
  unused.
  cbv zeta. intros N. cbn [poll_media].
  destruct (replies attempt) as [m|st rid txt]; [cbn; auto|].
  destruct (str_eqb st (lit "done")) eqn:D.
  { cbn [fst snd]. rewrite <- !app_comm_cons, !filter_steps by reflexivity.
    cbn. auto. }
  destruct (str_eqb st (lit "needs_confirmation")) eqn:C.
  { cbn [fst snd].
    rewrite <- (app_nil_r (notify cb st)), !filter_steps by reflexivity.
    cbn. auto. }
  exfalso. apply N. simpl. now rewrite <- !str_eqb_neq.
Qed.

(** X26.  [pollMediaStatus] ends at the first attempt, among its thirty,
    whose reply does not leave it waiting: it throws on a failed query,
    returns [confirmed] on status [done] and [needs_confirmation] on that
    status.  Up to there it has asked once per attempt and slept once per
    attempt that left it waiting. *)
Theorem pollMediaStatus_first_answer
  (replies : nat -> SelectReply) (mediaId : str) (onStatusUpdate : bool)
  (k : nat) :
  k < 30 ->
  (forall j, j < k -> pending (replies j)) ->
  ~ pending (replies k) ->
  let run := pollMediaStatus replies mediaId onStatusUpdate in
  fst run
  = match replies k with
    | SelectFails message =>
        Thrown (lit "Failed to check media status: " ++ message)
    | Selected status restaurant_id ocr_text =>
        if str_eqb status (lit "done")
        then Returned (result_confirmed restaurant_id 1 ocr_text)
        else Returned (result_needs_confirmation [] ocr_text)
    end /\
  length (filter is_select (snd run)) = k + 1 /\
  length (filter is_sleep (snd run)) = k.
Proof.
  cbv zeta. intros K P N. unfold pollMediaStatus.
  destruct (@poll_media_waits replies mediaId onStatusUpdate k 0 30)
    as [A [B C]]; [exact P | lia |].
  cbn [Nat.add] in A, B, C.
  destruct (30 - k) as [|remaining] eqn:R; [lia|].
  destruct (@poll_media_answers replies mediaId onStatusUpdate k remaining N)
    as [A' [B' C']].
  rewrite A, B, C, A', B', C'. auto with arith.
Qed.

Lemma poll_media_limits replies id cb :
  forall remaining attempt,
    let run := poll_media replies id cb attempt remaining in
    length (filter is_select (snd run)) <= remaining /\
    match fst run with
    | Returned (result_confirmed _ score _) => score = 1%Q
    | Returned (result_needs_confirmation candidates _) => candidates = []
    | Thrown _ => True
    end.
Proof.
  unused.
  cbv zeta. induction remaining as [|remaining IH]; intros attempt.
  - simpl. auto.
  - cbn [poll_media].
    destruct (replies attempt) as [m|st rid txt]; [cbn; split; [lia | auto]|].
    destruct (str_eqb st (lit "done")).
    { cbn [fst snd]. rewrite <- !app_comm_cons, !filter_steps by reflexivity.
      cbn. split; [lia | auto]. }
    destruct (str_eqb st (lit "needs_confirmation")).
    { cbn [fst snd].
      rewrite <- (app_nil_r (notify cb st)), !filter_steps by reflexivity.
      cbn. split; [lia | auto]. }
    specialize (IH (S attempt)).
    destruct (poll_media replies id cb (S attempt) remaining) as [o later].
    cbn [fst snd] in *.
    rewrite <- !app_comm_cons, !filter_steps by reflexivity.
    cbn [is_select filter app length]. split; [lia | tauto].
Qed.

(** X27.  [pollMediaStatus] never asks more than thirty times.  When all
    thirty replies leave it waiting it throws the timeout, after thirty
    queries and thirty sleeps.  What it returns never carries a place or a
    match score: the candidates are always empty and the score is always
    1. *)
Theorem pollMediaStatus_limits
  (replies : nat -> SelectReply) (mediaId : str) (onStatusUpdate : bool) :
  let run := pollMediaStatus replies mediaId onStatusUpdate in
  length (filter is_select (snd run)) <= 30 /\
  match fst run with
  | Returned (result_confirmed _ score _) => score = 1%Q
  | Returned (result_needs_confirmation candidates _) => candidates = []
  | Thrown _ => True
  end /\
  ((forall j, j < 30 -> pending (replies j)) ->
   fst run = Thrown (lit "Media processing timeout") /\
   length (filter is_select (snd run)) = 30 /\
   length (filter is_sleep (snd run)) = 30).
Proof.
  cbv zeta. unfold pollMediaStatus.
  destruct (@poll_media_limits replies mediaId onStatusUpdate 30 0) as [A B].
  split; [exact A|]. split; [exact B|].
  intros P.
  destruct (@poll_media_waits replies mediaId onStatusUpdate 30 0 30)
    as [A' [B' C']]; [exact P | lia |].
  rewrite A', B', C'. cbn. auto.
Qed.

(** *** Polling after the handler has answered *)

Lemma filter_update_rows id u rows :
  filter (fun row => str_eqb (m_id row) id) (update_rows id u rows)
  = map (apply_update u) (filter (fun row => str_eqb (m_id row) id) rows).
Proof.
  unused.
  unfold update_rows. induction rows as [|row rows IH]; [reflexivity|].
  cbn [map filter].
  destruct (str_eqb (m_id row) id) eqn:E; cbn [m_id apply_update map];
    rewrite E, IH; reflexivity.
Qed.

Lemma select_after_update s id u row :
  filter (fun r => str_eqb (m_id r) id) (media s) = [row] ->
  select_media {| media := update_rows id u (media s);
                  restaurants := restaurants s;
                  place_cache := place_cache s |} id
  = Selected (status_text (u_status u))
             (match u_restaurant_id u with
              | Some r => Some r
              | None => m_restaurant_id row
              end)
             (Some (u_ocr_text u)).
Proof.
  unused.
  intros H. unfold select_media. cbn [media].
  rewrite filter_update_rows, H. reflexivity.
Qed.

(** X28.  Take a request for a media item that has exactly one row, and a
    data store that accepts the update.  Once the handler has answered
    200, the poller is done at its first attempt and agrees with the
    response on the kind of result, on the restaurant and on the text; but
    it reports score 1 whatever the match scored, and no candidates
    whatever the response offered. *)
Theorem poll_after_serve
  (env : Env) (req : Request) (w : World) (r : ProcessMediaRequest)
  (row : MediaRow) (onStatusUpdate : bool) :
  json req = Fields r ->
  filter (fun m => str_eqb (m_id m) (media_id r)) (media (store w)) = [row] ->
  update_media_error env = None ->
  status (fst (serve env req w)) = 200 ->
  let w' := snd (serve env req w) in
  let run := pollMediaStatus (fun _ => select_media (store w') (media_id r))
                             (media_id r) onStatusUpdate in
  length (filter is_select (snd run)) = 1 /\
  match body (fst (serve env req w)) with
  | confirmed restaurant_id _ =>
      exists ocr_text,
        fst run = Returned (result_confirmed (Some restaurant_id) 1
                                             (Some ocr_text))
  | needs_confirmation_with _ ocr_text =>
      fst run = Returned (result_needs_confirmation [] (Some ocr_text))
  | _ => False
  end.
Proof.
  intros J Row U S. cbv zeta.
  assert (Same : forall r', ProcessMediaSchema_parse (json req) = Returned r' ->
                            r' = r).
  { intros r' P. apply parse_returns in P. destruct P as [P _].
    rewrite J in P. now inversion P. }
  destruct (serve_cases env req w)
    as [[_ [R _]] | [[_ [e [R _]]]
       | [[_ [r' [allText [top [P [R [_ [_ [_ St]]]]]]]]]
         | [_ [r' [allText [best [id [P [_ [R [_ [_ [Rs [Me Pc]]]]]]]]]]]]]]];
    rewrite R in S |- *; cbn [status body ok_json] in S |- *;
    try discriminate; apply Same in P; subst r'.
  - assert (Sel : select_media (store (snd (serve env req w))) (media_id r)
                  = Selected (lit "needs_confirmation") (m_restaurant_id row)
                             (Some (normalize allText))).
    { rewrite St, U.
      now rewrite (select_after_update (store w) (media_id r) _ Row). }
    rewrite Sel. unfold pollMediaStatus.
    destruct (@poll_media_answers
                (fun _ => Selected (lit "needs_confirmation")
                                   (m_restaurant_id row)
                                   (Some (normalize allText)))
                (media_id r) onStatusUpdate 0 29) as [A [B _]].
    { intros [_ H]. now apply H. }
    rewrite A, B. split; reflexivity.
  - assert (Sel : select_media (store (snd (serve env req w))) (media_id r)
                  = Selected (lit "done") (Some id)
                             (Some (normalize allText))).
    { unfold select_media. rewrite Me, U, filter_update_rows, Row.
      reflexivity. }
    rewrite Sel. unfold pollMediaStatus.
    destruct (@poll_media_answers
                (fun _ => Selected (lit "done") (Some id)
                                   (Some (normalize allText)))
                (media_id r) onStatusUpdate 0 29) as [A [B _]].
    { intros [H _]. now apply H. }
    rewrite A, B. split; [reflexivity|]. eexists. reflexivity.
Qed.

(** *** The poller of the text-recognition client *)

Lemma poll_ocr_waits replies id cb :
  forall k attempt remaining,
    (forall j, j < k -> ocr_pending (replies (attempt + j))) ->
    k <= remaining ->
    let now := poll_ocr replies id cb attempt remaining in
    let later := poll_ocr replies id cb (attempt + k) (remaining - k) in
    fst now = fst later /\
    length (filter is_select (snd now))
    = k + length (filter is_select (snd later)).
Proof.
  cbv zeta. induction k as [|k IH]; intros attempt remaining P L.
  - rewrite Nat.add_0_r, Nat.sub_0_r. auto.
  - destruct remaining as [|remaining]; [lia|].
    cbn [poll_ocr Nat.sub].
    pose proof (P 0 (Nat.lt_0_succ k)) as P0. rewrite Nat.add_0_r in P0.
    destruct (replies attempt) as [m|st rid txt]; [destruct P0|].
    destruct P0 as [Nd Nn].
    apply str_eqb_neq in Nd, Nn. rewrite Nd, Nn.
    destruct (IH (S attempt) remaining) as [A B]; [|lia|].
    { intros j Hj. replace (S attempt + j) with (attempt + S j) by lia.
      apply P. lia. }
    replace (attempt + S k) with (S attempt + k) by lia.
    destruct (poll_ocr replies id cb (S attempt) remaining) as [o later].
    cbn [fst snd] in *. split; [exact A|].
    rewrite <- !app_comm_cons, !filter_steps by reflexivity.
    cbn [is_select filter app length]. rewrite B. auto.
Qed.

Lemma poll_ocr_answers replies id cb attempt remaining :
  ~ ocr_pending (replies attempt) ->
  let now := poll_ocr replies id cb attempt (S remaining) in
  fst now
  = match replies attempt with
    | SelectFails message =>
        Thrown (lit "Failed to check media status: " ++ message)
    | Selected status _ ocr_text =>
        if str_eqb status (lit "done")
        then Returned ocr_text
        else Thrown (lit "OCR processing failed")
    end /\
  length (filter is_select (snd now)) = 1.
Proof.
  unused.
  cbv zeta. intros N. cbn [poll_ocr].
  destruct (replies attempt) as [m|st rid txt]; [cbn; auto|].
  destruct (str_eqb st (lit "done")) eqn:D.
  { cbn [fst snd].
    rewrite <- (app_nil_r (notify cb st)), !filter_steps by reflexivity.
    cbn. auto. }
  destruct (str_eqb st (lit "error")) eqn:C.
  { cbn [fst snd].
    rewrite <- (app_nil_r (notify cb st)), !filter_steps by reflexivity.
    cbn. auto. }
  exfalso. apply N. simpl. now rewrite <- !str_eqb_neq.
Qed.

(** X29.  [pollOCRStatus] ends at the first attempt, among its sixty,
    whose reply does not leave it waiting: it throws on a failed query and
    on status [error], and returns the row's text on status [done].  When
    all sixty replies leave it waiting it throws the timeout after sixty
    queries. *)
Theorem pollOCRStatus_first_answer
  (replies : nat -> SelectReply) (mediaId : str) (onStatusUpdate : bool) :
  let run := pollOCRStatus replies mediaId onStatusUpdate in
  (forall k,
      k < 60 ->
      (forall j, j < k -> ocr_pending (replies j)) ->
      ~ ocr_pending (replies k) ->
      fst run
      = match replies k with
        | SelectFails message =>
            Thrown (lit "Failed to check media status: " ++ message)
        | Selected status _ ocr_text =>
            if str_eqb status (lit "done")
            then Returned ocr_text
            else Thrown (lit "OCR processing failed")
        end /\
      length (filter is_select (snd run)) = k + 1) /\
  ((forall j, j < 60 -> ocr_pending (replies j)) ->
   fst run = Thrown (lit "OCR processing timeout") /\
   length (filter is_select (snd run)) = 60).
Proof.
  cbv zeta. unfold pollOCRStatus. split.
  - intros k K P N.
    destruct (@poll_ocr_waits replies mediaId onStatusUpdate k 0 60)
      as [A B]; [exact P | lia |].
    cbn [Nat.add] in A, B.
    destruct (60 - k) as [|remaining] eqn:R; [lia|].
    destruct (@poll_ocr_answers replies mediaId onStatusUpdate k remaining N)
      as [A' B'].
    rewrite A, B, A', B'. auto.
  - intros P.
    destruct (@poll_ocr_waits replies mediaId onStatusUpdate 60 0 60)
      as [A B]; [exact P | lia |].
    rewrite A, B. cbn. auto.
Qed.

(** X30.  Take a media item that has exactly one row, still waiting
    ([uploaded] or [processing]).  After the text-recognition function has
    answered [done], the poller returns at its first attempt with the text
    that was written to the row.  After any other answer the row is still
    waiting, and a poller that nobody else helps runs into its timeout
    after sixty queries: the function never writes a status that would
    tell the poller about the failure. *)
Theorem poll_after_process_ocr
  (env : OcrEnv) (req : OcrRequest) (w : World) (mediaId : str)
  (row : MediaRow) (onStatusUpdate : bool) :
  filter (fun m => str_eqb (m_id m) mediaId) (media (store w)) = [row] ->
  m_status row = uploaded \/ m_status row = processing ->
  (forall media_id image_url,
      ocr_json req = OcrFields media_id image_url -> media_id = Some mediaId) ->
  let response := fst (serve_process_ocr env req w) in
  let w' := snd (serve_process_ocr env req w) in
  let run := pollOCRStatus (fun _ => select_media (store w') mediaId)
                           mediaId onStatusUpdate in
  match ocr_body response with
  | ocr_done _ =>
      (exists fullText, fst run = Returned (Some fullText) /\
                        In (UpdateMedia mediaId (text_update fullText))
                           (calls w')) /\
      length (filter is_select (snd run)) = 1
  | _ =>
      fst run = Thrown (lit "OCR processing timeout") /\
      length (filter is_select (snd run)) = 60
  end.
Proof.
  intros Row Wait Id. cbv zeta.
  assert (Waiting : ocr_pending (select_media (store w) mediaId)).
  { unfold select_media. rewrite Row.
    destruct Wait as [-> | ->]; simpl; split; discriminate. }
  assert (Timeout : store (snd (serve_process_ocr env req w)) = store w ->
            fst (pollOCRStatus
                   (fun _ => select_media
                               (store (snd (serve_process_ocr env req w)))
                               mediaId) mediaId onStatusUpdate)
            = Thrown (lit "OCR processing timeout") /\
            length (filter is_select
                      (snd (pollOCRStatus
                              (fun _ => select_media
                                 (store (snd (serve_process_ocr env req w)))
                                 mediaId) mediaId onStatusUpdate))) = 60).
  { intros ->. unfold pollOCRStatus.
    destruct (@poll_ocr_waits (fun _ => select_media (store w) mediaId)
                mediaId onStatusUpdate 60 0 60) as [A B]; [auto | lia |].
    rewrite A, B. cbn. auto. }
  destruct (serve_process_ocr_cases env req w)
    as [[Mth [R W]] | [[Mth [B [R W]]] | [[Mth [V [e [R St]]]]
       | [Mth [id [url [ds [J [_ [_ [U [T [R [St Cl]]]]]]]]]]]]]];
    rewrite R; cbn [ocr_body].
  - apply Timeout. now rewrite W.
  - apply Timeout. now rewrite W.
  - apply Timeout. exact St.
  - specialize (Id _ _ J). inversion Id; subst id.
    assert (Sel : select_media (store (snd (serve_process_ocr env req w)))
                               mediaId
                  = Selected (lit "done") (m_restaurant_id row)
                      (Some (hd [] (extractedText
                                      match ds with
                                      | Some detections => detections
                                      | None => []
                                      end)))).
    { rewrite St. now rewrite (select_after_update (store w) mediaId _ Row). }
    rewrite Sel, Cl. unfold pollOCRStatus.
    destruct (@poll_ocr_answers
                (fun _ => Selected (lit "done") (m_restaurant_id row)
                            (Some (hd [] (extractedText
                                            match ds with
                                            | Some detections => detections
                                            | None => []
                                            end))))
                mediaId onStatusUpdate 0 59) as [A B].
    { intros [H _]. now apply H. }
    rewrite A, B. split; [|reflexivity].
    eexists. split; [reflexivity|].
    apply in_or_app. right. simpl. auto.
Qed.

End Resolution.

Arguments Thrown {A} message.
Arguments DbError {A} message.

(** * The theorems at work on concrete runs

    Lower-casing is [ascii_lower] and the two checks are [sample_isUUID]
    and [sample_isURL] from here on. *)

Definition run (env : Env) (req : Request) : Response * World :=
  serve ascii_lower sample_isUUID sample_isURL env req sample_world.

(** The frame of the sample run yields the two candidates, in the order of
    the lines. *)
Example sample_run_candidates :
  extractPOICandidates ascii_lower (ascii_lower sign_text) = sample_candidates.
Proof. vm_compute. reflexivity. Qed.

(** C5 on the sample text. *)
Lemma extractPOICandidates_clean_unique_ordered_witness :
  (In (lit "joes grill") (lines_of (ascii_lower sign_text)) /\
   includes (lit "joes grill") (lit "http") = false /\
   includes (lit "joes grill") (lit "www") = false) /\
  NoDup (extractPOICandidates ascii_lower (ascii_lower sign_text)) /\
  exists ia ib,
    first_index (lit "pizza night") (lines_of (ascii_lower sign_text)) = Some ia /\
    first_index (lit "joes grill") (lines_of (ascii_lower sign_text)) = Some ib /\
    ia < ib.
Proof.
  destruct (extractPOICandidates_clean_unique_ordered ascii_lower
              (ascii_lower sign_text)) as [A [B C]].
  split; [|split].
  - apply A. vm_compute. auto.
  - exact B.
  - apply (C 0 1); [vm_compute; reflexivity | vm_compute; reflexivity | lia].
Defined.

(** C10 on the sample run: the two searches are for the candidates of
    the lower-cased text, and [joes grill] is there for its keyword. *)
Lemma pipeline_candidates_never_title_case_witness :
  searches (snd (run sample_env sample_request))
    = [PlacesCall (lit "pizza night"); PlacesCall (lit "joes grill")] /\
  isTitleCase (lit "joes grill") = false /\
  (hasFoodKeyword ascii_lower (lit "joes grill") = true \/
   includes (lit "joes grill") (lit "@") = true \/
   includes (lit "joes grill") (lit "#") = true).
Proof.
  destruct (@pipeline_candidates_never_title_case ascii_lower sample_isUUID
              sample_isURL ascii_lower_no_upper sample_env sample_request
              sample_world
              {| media_id := sample_media_id;
                 frame_urls := [lit "https://cdn.example/frame1.jpg"];
                 country := Some (lit "NO");
                 city := None |})
    as [ocrResults [O [S [_ B]]]].
  - reflexivity.
  - vm_compute. reflexivity.
  - vm_compute in O. injection O as <-.
    split; [exact S|].
    apply B. vm_compute. auto.
Defined.

(** C2 on the sample run: the place scores (1 + 0.1) + 0.1 as the machine
    adds, which is 1.2000000000000002. *)
Lemma scorePlaceCandidates_max_plus_bonus_witness :
  sample_candidates <> [] /\
  exists sp,
    In sp (scorePlaceCandidates ascii_lower sample_candidates [sample_place]) /\
    place sp = sample_place /\
    (score sp == 1351079888211149 # 1125899906842624)%Q /\
    (12 # 10 < score sp)%Q.
Proof.
  assert (N : sample_candidates <> []) by discriminate.
  split; [exact N|].
  destruct (@scorePlaceCandidates_max_plus_bonus ascii_lower sample_candidates
              [sample_place] N) as [_ [A _]].
  assert (H : In (scorePlace ascii_lower sample_candidates sample_place)
                 (scorePlaceCandidates ascii_lower sample_candidates
                                       [sample_place]))
    by (vm_compute; auto).
  exists (scorePlace ascii_lower sample_candidates sample_place).
  split; [exact H | split; [reflexivity|]].
  destruct (A _ H) as [m [_ E]].
  split; vm_compute; reflexivity.
Defined.

(** C1 on two runs.  On the threshold: the best place scores exactly
    3/4, the record is accepted, the response is [confirmed].  Below it:
    the best place scores the double nearest to 3/5 and the response is
    [needs_confirmation] with that one place. *)
Lemma decision_at_the_threshold_witness :
  (exists s, fst (run env_on_threshold sample_request)
             = ok_json (confirmed (lit "restaurant-1") s) /\ (s == 3 # 4)%Q) /\
  (exists c, fst (run env_below_threshold sample_request)
             = ok_json (needs_confirmation_with [c] (lit "abcd")) /\
             (cand_score c == double (3 # 5))%Q) /\
  map m_status (media (store (snd (run env_on_threshold sample_request))))
    = [done] /\
  map m_status (media (store (snd (run env_below_threshold sample_request))))
    = [needs_confirmation].
Proof.
  assert (P : ProcessMediaSchema_parse sample_isUUID sample_isURL
                (json sample_request)
              = Returned {| media_id := sample_media_id;
                            frame_urls := [lit "https://cdn.example/frame1.jpg"];
                            country := Some (lit "NO");
                            city := None |})
    by (vm_compute; reflexivity).
  assert (A : exists s,
             fst (run env_on_threshold sample_request)
             = ok_json (confirmed (lit "restaurant-1") s) /\ (s == 3 # 4)%Q /\
             map m_status
                 (media (store (snd (run env_on_threshold sample_request))))
             = [done]).
  { edestruct (@decision_at_the_threshold ascii_lower sample_isUUID sample_isURL
                 env_on_threshold sample_request sample_world)
      as [best [others [E [_ [A _]]]]].
    + reflexivity.
    + exact P.
    + vm_compute. reflexivity.
    + vm_compute. discriminate.
    + vm_compute. reflexivity.
    + vm_compute. discriminate.
    + vm_compute in E. injection E as <- _.
      destruct (A (lit "restaurant-1")) as [R [_ Md]];
        [vm_compute; discriminate | reflexivity | reflexivity |].
      unfold run. rewrite R, Md. eexists. split; [reflexivity|].
      split; vm_compute; reflexivity. }
  assert (B : exists c,
             fst (run env_below_threshold sample_request)
             = ok_json (needs_confirmation_with [c] (lit "abcd")) /\
             (cand_score c == double (3 # 5))%Q /\
             map m_status
                 (media (store (snd (run env_below_threshold sample_request))))
             = [needs_confirmation]).
  { edestruct (@decision_at_the_threshold ascii_lower sample_isUUID sample_isURL
                 env_below_threshold sample_request sample_world)
      as [best [others [E [_ [_ [_ C]]]]]].
    + reflexivity.
    + exact P.
    + vm_compute. reflexivity.
    + vm_compute. discriminate.
    + vm_compute. reflexivity.
    + vm_compute. discriminate.
    + vm_compute in E. injection E as <- <-.
      destruct C as [R [_ [_ [_ Md]]]]; [vm_compute; reflexivity | reflexivity |].
      unfold run. rewrite R, Md. eexists. split; [reflexivity|].
      split; vm_compute; reflexivity. }
  destruct A as [s [A1 [A2 A3]]]. destruct B as [c [B1 [B2 B3]]].
  split; [exists s; auto|]. split; [exists c; auto|]. auto.
Defined.

(** C3's theorem on a request whose [media_id] is [42]. *)
Lemma malformed_request_gets_500_witness :
  status (fst (run sample_env malformed_request)) = 500 /\
  store (snd (run sample_env malformed_request)) = store sample_world /\
  calls (snd (run sample_env malformed_request)) = calls sample_world.
Proof.
  apply (@malformed_request_gets_500 ascii_lower sample_isUUID sample_isURL
           sample_env malformed_request sample_world
           {| media_id := lit "42";
              frame_urls := [lit "https://cdn.example/frame1.jpg"];
              country := None;
              city := None |}).
  - reflexivity.
  - reflexivity.
  - left. vm_compute. reflexivity.
Defined.

(** A frame that reads [Hello World!]: no candidates, no search, and the
    status and the normalized text are written. *)
Example no_candidates_ends_the_sample_run :
  fst (run env_plain_text sample_request)
    = ok_json (needs_confirmation_with [] (lit "hello world")) /\
  searches (snd (run env_plain_text sample_request)) = [] /\
  media (store (snd (run env_plain_text sample_request)))
    = [{| m_id := sample_media_id;
          m_user_id := lit "user-1";
          m_restaurant_id := None;
          m_ocr_text := Some (lit "hello world");
          m_status := needs_confirmation |}].
Proof. vm_compute. repeat split. Qed.

(** C7's theorem on two searches: the one for [pizza night], which the
    provider answers with [ZERO_RESULTS], and the one for [joes grill]
    with a provider that answers 503, after which the loop goes on. *)
Lemma searchPlaces_on_provider_status_witness :
  (fst (searchPlaces sample_env (lit "pizza night") (Some (lit "NO")) None
                     sample_world) = Returned [] /\
   console (snd (searchPlaces sample_env (lit "pizza night") (Some (lit "NO"))
                              None sample_world))
     = [console_warn (lit "Places API returned status: ZERO_RESULTS")]) /\
  (let loop := search_candidates env_provider_down
                 [lit "joes grill"; lit "pizza night"] None None []
                 sample_world in
   fst loop = Returned [] /\
   calls (snd loop)
     = [PlacesCall (lit "joes grill"); PlacesCall (lit "pizza night")] /\
   length (console (snd loop)) = 2).
Proof.
  split.
  - destruct (@searchPlaces_on_provider_status sample_env (lit "pizza night")
                (Some (lit "NO")) None sample_world eq_refl eq_refl) as [A _].
    rewrite (A (lit "OK")
               {| pb_status := lit "ZERO_RESULTS"; pb_results := [] |}).
    + split; reflexivity.
    + vm_compute. reflexivity.
    + vm_compute. discriminate.
  - destruct (@searchPlaces_on_provider_status env_provider_down
                (lit "joes grill") None None sample_world eq_refl eq_refl)
      as [_ [B _]].
    destruct (B (lit "Service Unavailable") None eq_refl) as [_ Step].
    cbv zeta. rewrite (Step [lit "pizza night"] []).
    vm_compute. repeat split.
Defined.

(** ** Where the code and the design document part *)

(** C1 as stated fails: in this run the best place scores well above
    0.75, the data store refuses the new record, and the outcome is an
    error response, with no place record and the status untouched. *)
Lemma confident_match_without_confirmation :
  map (fun sp => Qle_bool (3 # 4) (score sp))
      (scorePlaceCandidates ascii_lower sample_candidates [sample_place])
    = [true] /\
  fst (run env_insert_refused sample_request)
    = {| status := 500;
         body := error_body
                   (lit "Failed to create restaurant: permission denied") |} /\
  store (snd (run env_insert_refused sample_request)) = store sample_world /\
  In (PlacesCall (lit "joes grill"))
     (calls (snd (run env_insert_refused sample_request))).
Proof. vm_compute. repeat split; auto 10. Qed.

(** C2 as stated fails for the empty candidate list: the place is a
    restaurant rated 4.5, so both bonuses are due, and it scores 0, less
    than one bonus; there is no similarity to take a maximum of. *)
Lemma no_candidates_no_bonus :
  foodType sample_place = true /\
  highRating sample_place = true /\
  map score (scorePlaceCandidates ascii_lower [] [sample_place]) = [0%Q] /\
  (0 < double (1 # 10))%Q /\
  forall m, ~ is_max_similarity ascii_lower [] sample_place m.
Proof.
  split; [reflexivity|]. split; [reflexivity|]. split; [reflexivity|].
  split; [vm_compute; reflexivity|].
  intros m [[c [[] _]] _].
Qed.

(** C6: no candidates, the data store turns the update down, and the
    response is [needs_confirmation] all the same; the media item is
    still [processing] and holds no text. *)
Lemma no_candidates_refused_write_goes_unreported :
  extractPOICandidates ascii_lower (ascii_lower (lit "Hello World!")) = [] /\
  update_media_error env_plain_text_update_refused
    = Some (lit "permission denied") /\
  fst (run env_plain_text_update_refused sample_request)
    = ok_json (needs_confirmation_with [] (lit "hello world")) /\
  media (store (snd (run env_plain_text_update_refused sample_request)))
    = [sample_media_row] /\
  m_status sample_media_row = processing /\
  m_ocr_text sample_media_row = None /\
  searches (snd (run env_plain_text_update_refused sample_request)) = [] /\
  In (UpdateMedia sample_media_id
                  {| u_restaurant_id := None;
                     u_status := needs_confirmation;
                     u_ocr_text := lit "hello world" |})
     (calls (snd (run env_plain_text_update_refused sample_request))).
Proof. vm_compute. repeat split; auto 10. Qed.

(** C7 as stated fails: the provider responds with status 503 and the
    search throws to its caller. *)
Lemma searchPlaces_throws_on_http_error :
  non_success (places_fetch env_provider_down (lit "joes grill")) /\
  fst (searchPlaces env_provider_down (lit "joes grill") None None sample_world)
    = Thrown (lit "Places API error: Service Unavailable").
Proof. split; [left; reflexivity | vm_compute; reflexivity]. Qed.

(** C4: the data store turns the status update down, and the response is
    [confirmed] all the same; the media item is still [processing] and
    carries no link. *)
Lemma refused_status_write_goes_unreported :
  update_media_error env_update_refused = Some (lit "permission denied") /\
  (exists s, fst (run env_update_refused sample_request)
             = ok_json (confirmed (lit "restaurant-1") s)) /\
  media (store (snd (run env_update_refused sample_request)))
    = [sample_media_row] /\
  m_status sample_media_row = processing /\
  In (UpdateMedia sample_media_id
                  (link_update (lit "restaurant-1") (lit "pizza night joes grill")))
     (calls (snd (run env_update_refused sample_request))).
Proof.
  split; [reflexivity|]. split; [eexists; vm_compute; reflexivity|].
  split; [vm_compute; reflexivity|]. split; [reflexivity|].
  vm_compute. auto 10.
Qed.

(** C8: the confirmed place was found by, and is identical to, the second
    candidate, and the cache entry is filed under the first. *)
Lemma cache_entry_filed_under_another_candidate :
  (exists s, fst (run sample_env sample_request)
             = ok_json (confirmed (lit "restaurant-1") s)) /\
  map (fun e => (c_normalized_query e, c_name e))
      (place_cache (store (snd (run sample_env sample_request))))
    = [(lit "pizza night", lit "Joes Grill")] /\
  is_max_similarity ascii_lower sample_candidates sample_place 1%Q /\
  (calculateSimilarity ascii_lower (lit "pizza night") (lit "Joes Grill") < 1)%Q.
Proof.
  split; [eexists; vm_compute; reflexivity|].
  split; [vm_compute; reflexivity|]. split; [split|].
  - exists (lit "joes grill"). split; [vm_compute; auto | vm_compute; reflexivity].
  - intros c [<-|[<-|[]]]; vm_compute; discriminate.
  - vm_compute. reflexivity.
Qed.

(** A candidate that ends in half a surrogate pair cannot be encoded: the
    search throws, the provider is not called, and the loop goes on. *)
Example lone_surrogate_is_not_sent :
  fst (search_candidates sample_env
         [lit "grill" ++ [55357%N]; lit "joes grill"] None None []
         sample_world) = Returned [sample_place] /\
  calls (snd (search_candidates sample_env
                [lit "grill" ++ [55357%N]; lit "joes grill"] None None []
                sample_world))
    = [PlacesCall (lit "joes grill")] /\
  console (snd (search_candidates sample_env
                  [lit "grill" ++ [55357%N]; lit "joes grill"] None None []
                  sample_world))
    = [console_error (lit "Place search failed for candidate "
                        ++ [34%N] ++ lit "grill" ++ [55357%N; 34%N; 58%N])
                     (lit "URI malformed")].
Proof. vm_compute. repeat split. Qed.

(** ** The machine's doubles

    Scores are rounded by [double] after every operation.  Here the
    roundings are compared with the doubles of the machine, on the sums
    that the runs above meet (the tenth, the greatest score, the
    threshold, a sum that falls below the double next to it) and on
    every score of short strings. *)
Module Doubles.
Import PrimFloat.

Example tenth_of_the_machine :
  Qred (float_value (1 / 10)%float) = double (1 # 10).
Proof. vm_compute. reflexivity. Qed.

Example greatest_score_of_the_machine :
  Qred (float_value ((1 + 1 / 10) + 1 / 10)%float)
  = double (double (1 + double (1 # 10)) + double (1 # 10)) /\
  (12 # 10 < double (double (1 + double (1 # 10)) + double (1 # 10)))%Q.
Proof. vm_compute. split; reflexivity. Qed.

Example seven_tenths_and_a_bonus :
  Qred (float_value (7 / 10 + 1 / 10)%float)
  = double (double (7 # 10) + double (1 # 10)) /\
  Qred (float_value (8 / 10)%float) = double (8 # 10) /\
  (double (double (7 # 10) + double (1 # 10)) < double (8 # 10))%Q /\
  (7 / 10 + 1 / 10 <? 8 / 10)%float = true.
Proof. vm_compute. repeat split. Qed.

(** Seven tenths and a bonus come to less than eight tenths, so the
    restaurant three edits away is sorted behind the place two edits
    away, although it comes first in the input. *)
Example a_bonus_short_of_a_tie :
  map score (map (scorePlace ascii_lower [lit "abcdefghij"])
                 [place_three_edits; place_two_edits])
    = [double (double (7 # 10) + double (1 # 10)); double (8 # 10)] /\
  map place (scorePlaceCandidates ascii_lower [lit "abcdefghij"]
               [place_three_edits; place_two_edits])
    = [place_two_edits; place_three_edits].
Proof. vm_compute. split; reflexivity. Qed.

Example on_the_threshold :
  double (3 # 4) = (3 # 4)%Q /\
  Qred (float_value (3 / 4)%float) = (3 # 4)%Q /\
  (3 # 4 <= double (double (13 # 20) + double (1 # 10)))%Q /\
  (3 / 4 <=? 13 / 20 + 1 / 10)%float = true /\
  Qred (float_value (3 / 5)%float) = double (3 # 5).
Proof. vm_compute. repeat split; discriminate. Qed.

(** The same for every similarity there is between strings of up to 64
    code units, and for the differences the sort takes between those of
    up to 10. *)
Example scores_of_the_machine :
  forallb (fun L => forallb (scores_agree L) (seq 0 (L + 1))) (seq 1 64) = true.
Proof. vm_compute. reflexivity. Qed.

Example differences_of_the_machine :
  forallb (fun L =>
    forallb (fun d =>
      forallb (fun L' =>
        forallb (differences_agree L d L') (seq 0 (L' + 1)))
        (seq 1 10))
      (seq 0 (L + 1)))
    (seq 1 10) = true.
Proof. vm_compute. reflexivity. Qed.

End Doubles.

(** * The further properties at work on concrete runs *)

(** X9 on the two sample candidates in both orders. *)
Lemma scorePlace_candidates_witness :
  (score (scorePlace ascii_lower [lit "pizza night"; lit "joes grill"]
                     sample_place)
   == score (scorePlace ascii_lower [lit "joes grill"; lit "pizza night"]
                        sample_place))%Q.
Proof.
  apply (proj1 (@scorePlace_candidates ascii_lower
                  [lit "pizza night"; lit "joes grill"]
                  [lit "joes grill"; lit "pizza night"] [] sample_place)).
  apply perm_swap.
Defined.

(** X10 on the second candidate of the sample frame. *)
Lemma candidates_are_tidy_witness :
  lit "joes grill" <> [] /\ trimmed (lit "joes grill") /\
  ~ In 10%N (lit "joes grill").
Proof.
  apply (@candidates_are_tidy ascii_lower (ascii_lower sign_text)
           (lit "joes grill")).
  vm_compute. auto.
Defined.

(** X17 on the request whose [media_id] is [42]. *)
Lemma serve_failure_leaves_store_witness :
  store (snd (run sample_env malformed_request)) = store sample_world.
Proof.
  apply (@serve_failure_leaves_store ascii_lower sample_isUUID sample_isURL
           sample_env malformed_request sample_world).
  vm_compute. discriminate.
Defined.

(** X18 on the run that scores 3/5. *)
Lemma needs_confirmation_response_witness :
  exists candidates ocr_text,
    body (fst (run env_below_threshold sample_request))
    = needs_confirmation_with candidates ocr_text /\
    length candidates <= 3 /\
    Forall (fun c => (0 <= cand_score c)%Q /\ (cand_score c < 3 # 4)%Q)
           candidates /\
    normalize ocr_text = ocr_text.
Proof.
  eexists. eexists. split; [vm_compute; reflexivity|].
  match goal with
  | |- length ?c <= 3 /\ _ /\ normalize ?t = _ =>
      assert (H : body (fst (serve ascii_lower sample_isUUID sample_isURL
                                   env_below_threshold sample_request
                                   sample_world))
                  = needs_confirmation_with c t) by (vm_compute; reflexivity);
      destruct (@needs_confirmation_response ascii_lower sample_isUUID
                  sample_isURL env_below_threshold sample_request sample_world
                  c t H) as [A [B [_ [C _]]]]
  end.
  split; [exact A | split; [exact B | exact C]].
Defined.

(** X19 on the sample run, whose score is above 1.2. *)
Lemma confirmed_response_witness :
  exists s,
    body (fst (run sample_env sample_request))
    = confirmed (lit "restaurant-1") s /\
    (3 # 4 <= s)%Q /\
    (s <= double (double (1 + double (1 # 10)) + double (1 # 10)))%Q /\
    insert_restaurant_reply sample_env = DbData (lit "restaurant-1") /\
    (12 # 10 < s)%Q.
Proof.
  eexists. split; [vm_compute; reflexivity|].
  match goal with
  | |- (3 # 4 <= ?s)%Q /\ _ =>
      assert (H : body (fst (serve ascii_lower sample_isUUID sample_isURL
                                   sample_env sample_request sample_world))
                  = confirmed (lit "restaurant-1") s)
        by (vm_compute; reflexivity);
      destruct (@confirmed_response ascii_lower sample_isUUID sample_isURL
                  sample_env sample_request sample_world
                  (lit "restaurant-1") s H) as [A [B [C _]]]
  end.
  split; [exact A | split; [exact B | split; [exact C|]]].
  vm_compute. reflexivity.
Defined.

(** X21 on the sample request, without a key for the place provider. *)
Lemma serve_without_maps_key_witness :
  (exists ocr_text,
      fst (run env_no_maps_key sample_request)
      = ok_json (needs_confirmation_with [] ocr_text)) /\
  searches (snd (run env_no_maps_key sample_request)) = [].
Proof.
  destruct (@serve_without_maps_key ascii_lower sample_isUUID sample_isURL
              env_no_maps_key sample_request sample_world
              {| media_id := sample_media_id;
                 frame_urls := [lit "https://cdn.example/frame1.jpg"];
                 country := Some (lit "NO");
                 city := None |}) as [A [B _]].
  - reflexivity.
  - vm_compute. reflexivity.
  - vm_compute. reflexivity.
  - split; [exact A | exact B].
Defined.

Lemma ascii_lower_keeps_blank s : blank s -> blank (ascii_lower s).
Proof.
  unfold blank, ascii_lower. intros H. apply Forall_forall. intros c Hc.
  apply in_map_iff in Hc. destruct Hc as [x [<- Hx]].
  rewrite Forall_forall in H. specialize (H x Hx).
  unfold ascii_lower_unit. destruct (is_upper x) eqn:U; [|exact H].
  exfalso. revert H U. unfold is_space, is_upper.
  rewrite !orb_true_iff, !andb_true_iff, !N.leb_le, !N.eqb_eq. lia.
Qed.

(** X22 on the sample request, with the Tesseract flag set. *)
Lemma serve_without_recognition_witness :
  fst (run env_tesseract sample_request)
  = ok_json (needs_confirmation_with [] []) /\
  calls (snd (run env_tesseract sample_request))
  = [UpdateMedia sample_media_id (review_update [])].
Proof.
  apply (@serve_without_recognition ascii_lower sample_isUUID sample_isURL
           env_tesseract sample_request sample_world
           {| media_id := sample_media_id;
              frame_urls := [lit "https://cdn.example/frame1.jpg"];
              country := Some (lit "NO");
              city := None |}).
  - left. vm_compute. reflexivity.
  - exact ascii_lower_keeps_blank.
  - vm_compute. reflexivity.
  - vm_compute. reflexivity.
Defined.

(** X23 on a body without [image_url]: 400, and nothing has happened. *)
Lemma serve_process_ocr_status_codes_witness :
  ocr_status (fst (serve_process_ocr sample_ocr_env incomplete_ocr_request
                                     sample_world)) = 400 /\
  snd (serve_process_ocr sample_ocr_env incomplete_ocr_request sample_world)
  = sample_world.
Proof.
  destruct (@serve_process_ocr_status_codes sample_ocr_env
              incomplete_ocr_request sample_world) as [_ [A [B _]]].
  assert (H : ocr_status (fst (serve_process_ocr sample_ocr_env
                                 incomplete_ocr_request sample_world)) = 400).
  { apply A. split; [reflexivity|].
    exists (Some sample_media_id), None. split; [reflexivity | now right]. }
  split; [exact H | apply B; right; exact H].
Defined.


(** X25 on a refused update: the answer is not 200 and the row is as it
    was. *)
Lemma process_ocr_failure_leaves_store_witness :
  ocr_status (fst (serve_process_ocr ocr_env_update_refused sample_ocr_request
                                     sample_world)) <> 200 /\
  store (snd (serve_process_ocr ocr_env_update_refused sample_ocr_request
                                sample_world)) = store sample_world.
Proof.
  destruct (@process_ocr_failure_leaves_store ocr_env_update_refused
              sample_ocr_request sample_world) as [A B].
  assert (H : ocr_status (fst (serve_process_ocr ocr_env_update_refused
                                 sample_ocr_request sample_world)) <> 200)
    by (apply B; discriminate).
  split; [exact H | exact (A H)].
Defined.

(** X26 on a row that is [done] at the third attempt. *)
Lemma pollMediaStatus_first_answer_witness :
  fst (pollMediaStatus slow_replies sample_media_id true)
  = Returned (result_confirmed (Some (lit "restaurant-1")) 1
                               (Some (lit "pizza night joes grill"))) /\
  length (filter is_select
                 (snd (pollMediaStatus slow_replies sample_media_id true))) = 3 /\
  length (filter is_sleep
                 (snd (pollMediaStatus slow_replies sample_media_id true))) = 2.
Proof.
  apply (@pollMediaStatus_first_answer slow_replies sample_media_id true 2).
  - lia.
  - intros j Hj. destruct j as [|[|j]]; [| |lia]; simpl; split; discriminate.
  - simpl. intros [H _]. now apply H.
Defined.

(** X27 on a row that stays [processing]. *)
Lemma pollMediaStatus_limits_witness :
  fst (pollMediaStatus stuck_replies sample_media_id false)
  = Thrown (lit "Media processing timeout") /\
  length (filter is_select
                 (snd (pollMediaStatus stuck_replies sample_media_id false)))
  = 30.
Proof.
  destruct (@pollMediaStatus_limits stuck_replies sample_media_id false)
    as [_ [_ A]].
  destruct A as [A [B _]].
  - intros j _. simpl. split; discriminate.
  - split; [exact A | exact B].
Defined.

(** X28 on the sample run: the poller reports score 1 for the match. *)
Lemma poll_after_serve_witness :
  exists ocr_text,
    fst (pollMediaStatus
           (fun _ => select_media (store (snd (run sample_env sample_request)))
                                  sample_media_id)
           sample_media_id true)
    = Returned (result_confirmed (Some (lit "restaurant-1")) 1 (Some ocr_text)).
Proof.
  destruct (@poll_after_serve ascii_lower sample_isUUID sample_isURL
              sample_env sample_request sample_world
              {| media_id := sample_media_id;
                 frame_urls := [lit "https://cdn.example/frame1.jpg"];
                 country := Some (lit "NO");
                 city := None |}
              sample_media_row true) as [_ A].
  - reflexivity.
  - vm_compute. reflexivity.
  - reflexivity.
  - vm_compute. reflexivity.
  - assert (E : exists s,
               body (fst (serve ascii_lower sample_isUUID sample_isURL
                                sample_env sample_request sample_world))
               = confirmed (lit "restaurant-1") s)
      by (eexists; vm_compute; reflexivity).
    destruct E as [s E]. rewrite E in A. exact A.
Defined.

(** X29 on a row that stays [processing]. *)
Lemma pollOCRStatus_first_answer_witness :
  fst (pollOCRStatus stuck_replies sample_media_id false)
  = Thrown (lit "OCR processing timeout") /\
  length (filter is_select
                 (snd (pollOCRStatus stuck_replies sample_media_id false)))
  = 60.
Proof.
  destruct (@pollOCRStatus_first_answer stuck_replies sample_media_id false)
    as [_ A].
  apply A. intros j _. simpl. split; discriminate.
Defined.

(** X30 after a refused update: the poller waits in vain. *)
Lemma poll_after_process_ocr_witness :
  fst (pollOCRStatus
         (fun _ => select_media
                     (store (snd (serve_process_ocr ocr_env_update_refused
                                    sample_ocr_request sample_world)))
                     sample_media_id)
         sample_media_id false)
  = Thrown (lit "OCR processing timeout").
Proof.
  pose proof (@poll_after_process_ocr ocr_env_update_refused sample_ocr_request
                sample_world sample_media_id sample_media_row false) as A.
  assert (E : ocr_body (fst (serve_process_ocr ocr_env_update_refused
                               sample_ocr_request sample_world))
              = ocr_error (lit "Failed to update media record: permission denied"))
    by (vm_compute; reflexivity).
  cbv zeta in A. rewrite E in A.
  apply A.
  - vm_compute. reflexivity.
  - right. reflexivity.
  - intros m i J. injection J as <- _. reflexivity.
Defined.
